(** * deploy.js: key derivation, root.txt parsing, merging and formatting

    A shallow embedding of the pure part of [src/deploy.js]:
    [generateKeys], [readRootTxt], [updateEntries] and [formatEntries],
    together with the pieces of JavaScript they rest on: backtracking regular
    expressions, [String.prototype.replace] / [match] / [split] /
    [toLowerCase], [Array.prototype.join], and plain objects used as
    string-keyed maps (own-property order, [Object.prototype] lookups, the
    [__proto__] setter).

    Strings are lists of UTF-16 code units, given as numbers.  The classes
    of the patterns, [\d], [\s], [.] and the negated classes of the source,
    and [trim] are modelled on all code units.  [toLowerCase] and the case
    folding of the [i] flag are modelled on the code units below 256
    (Latin-1) and leave the others as they are.

    The definitions come first: characters and strings, the matcher, objects,
    the functions of deploy.js, then the functions and predicates that the
    statements are written with.  The lemmas follow: the patterns of
    deploy.js read as string functions, lookups and key order of objects,
    and the properties of the four functions.

    The effectful part, [main], [writeRootTxt], [userInteraction] and
    [deployChanges], is embedded as programs over the calls into Node
    ([fs], [console], [readline], [child_process.exec], [process.exit]);
    a run is the list of the calls made, each with what it gave back, and
    the way the run ended.  Every call gives its reply (a value, or an
    error for the calls that can throw: those of [fs], [exec] and
    [rl.question]), for every reply the environment can give; only a
    question can stay without an answer, when the input ends first, and
    then nothing follows it and the process ends by itself.  A command is
    the string handed to [exec]; what the shell makes of it is not part of
    the development.  [path.join] is a parameter. *)

From Stdlib Require Import Ascii String.
From Stdlib Require Import List Bool Arith NArith Lia.
Import ListNotations.

Set Implicit Arguments.

(* ------------------------------------------------------------------ *)
(** ** Strings and characters *)

(** A string is a list of UTF-16 code units; a code unit is a number
    (below 65536: the definitions and the statements do not use the
    bound). *)
Definition codeUnit := N.

Definition jsstring := list codeUnit.

(** The code unit of a character of the source text. *)
Definition chr (a : Ascii.ascii) : codeUnit := N_of_ascii a.

(** [str "abc"] is the JavaScript string literal ['abc']. *)
Definition str (s : string) : jsstring := map chr (list_ascii_of_string s).

Definition code (c : codeUnit) : nat := N.to_nat c.

Definition chr_eqb (a b : codeUnit) : bool := N.eqb a b.

Fixpoint str_eqb (a b : jsstring) : bool :=
  match a, b with
  | [], [] => true
  | x :: a', y :: b' => chr_eqb x y && str_eqb a' b'
  | _, _ => false
  end.

(** [\d]: the ten decimal digits. *)
Definition isDigit (c : codeUnit) : bool := (48 <=? code c) && (code c <=? 57).

(** Line terminators: LF, CR, U+2028 and U+2029. *)
Definition isLineTerminator (c : codeUnit) : bool :=
  (code c =? 10) || (code c =? 13) || (c =? 8232)%N || (c =? 8233)%N.

(** [\s], white space and line terminators: TAB, LF, VT, FF, CR, SP, NBSP,
    U+1680, U+2000 to U+200A, U+2028, U+2029, U+202F, U+205F, U+3000 and
    U+FEFF. *)
Definition isWhiteSpace (c : codeUnit) : bool :=
  ((9 <=? code c) && (code c <=? 13)) || (code c =? 32) || (code c =? 160)
  || (c =? 5760)%N || ((8192 <=? c) && (c <=? 8202))%N
  || (c =? 8232)%N || (c =? 8233)%N || (c =? 8239)%N || (c =? 8287)%N
  || (c =? 12288)%N || (c =? 65279)%N.

(** [.] without the [s] flag: anything but a line terminator. *)
Definition isDot (c : codeUnit) : bool := negb (isLineTerminator c).

Definition isUpper (c : codeUnit) : bool :=
  ((65 <=? code c) && (code c <=? 90))
  || ((192 <=? code c) && (code c <=? 222) && negb (code c =? 215)).

(** The lowercase of a code unit below 256; the code units above are left
    as they are. *)
Definition toLowerChar (c : codeUnit) : codeUnit :=
  if isUpper c then N.of_nat (code c + 32) else c.

(** [String.prototype.toLowerCase], for the characters below 256.  The
    statements about keys say which string is lowercased and hold for the
    full function as well. *)
Definition toLowerCase (s : jsstring) : jsstring := map toLowerChar s.

(** The longest prefix of [s] whose characters satisfy [p], and the rest. *)
Fixpoint takeWhile (p : codeUnit -> bool) (s : jsstring) : jsstring :=
  match s with
  | x :: s' => if p x then x :: takeWhile p s' else []
  | [] => []
  end.

Fixpoint dropWhile (p : codeUnit -> bool) (s : jsstring) : jsstring :=
  match s with
  | x :: s' => if p x then dropWhile p s' else s
  | [] => []
  end.

Definition is_chr (a : codeUnit) : codeUnit -> bool := chr_eqb a.
Definition not_chr (a : codeUnit) : codeUnit -> bool := fun c => negb (chr_eqb a c).

#[global] Arguments chr_eqb : simpl never.
#[global] Arguments is_chr : simpl never.
#[global] Arguments not_chr : simpl never.
#[global] Arguments isDigit : simpl never.
#[global] Arguments isLineTerminator : simpl never.
#[global] Arguments isWhiteSpace : simpl never.
#[global] Arguments isDot : simpl never.
#[global] Arguments toLowerChar : simpl never.

Definition hyphen : codeUnit := (chr "-").
Definition colon : codeUnit := (chr ":").
Definition period : codeUnit := (chr ".").
Definition slash : codeUnit := (chr "/").
Definition newline : codeUnit := 10%N.

(** The class [[^/.]]. *)
Definition extensionChar (c : codeUnit) : bool :=
  negb (chr_eqb c slash || chr_eqb c period).
#[global] Arguments extensionChar : simpl never.

(* ------------------------------------------------------------------ *)
(** ** Regular expressions (backtracking semantics of ECMAScript) *)

Module Regex.

Inductive regex : Type :=
| Chr (p : codeUnit -> bool)            (* one code unit of a class *)
| Cat (r1 r2 : regex)                (* r1 r2 *)
| Star (greedy : bool) (r : regex)   (* r* and r*? *)
| Group (i : nat) (r : regex)        (* capturing group number i *)
| Ahead (r : regex)                  (* (?=r) *)
| Bos                                (* ^ without the m flag *)
| Eos.                               (* $ without the m flag *)

(** [r+] on a body that consumes input: one mandatory iteration, then [r*]. *)
Definition Plus (r : regex) : regex := Cat r (Star true r).

(** A literal string, one code unit after the other; [lit c l r] is the
    pattern [c l r]. *)
Fixpoint lit (c : codeUnit) (l : jsstring) (r : regex) : regex :=
  match l with
  | [] => Cat (Chr (is_chr c)) r
  | d :: l' => Cat (Chr (is_chr c)) (lit d l' r)
  end.

(** The match state: the index reached in the input, the input that is
    left from there, and the captures so far. *)
Record mstate : Type := MState {
  pos : nat;
  rest : jsstring;
  caps : list (nat * jsstring)
}.

Definition cont := mstate -> option mstate.

(** The matcher of [r] in continuation-passing style, as in the ECMAScript
    specification: [m r st k] matches [r] at [st] and hands every candidate
    end state to [k], in priority order, until [k] accepts one.  An
    iteration of a star that consumes nothing is rejected, so a star makes
    at most [length (rest st)] iterations. *)
Fixpoint m (r : regex) (st : mstate) (k : cont) {struct r} : option mstate :=
  match r with
  | Chr p =>
      match rest st with
      | c :: s' => if p c then k (MState (S (pos st)) s' (caps st)) else None
      | [] => None
      end
  | Cat r1 r2 => m r1 st (fun st' => m r2 st' k)
  | Star greedy r' =>
      (fix loop (n : nat) (st : mstate) {struct n} : option mstate :=
         match n with
         | O => k st
         | S n' =>
             let again (_ : unit) :=
               m r' st (fun st' => if pos st <? pos st' then loop n' st' else None) in
             if greedy then
               match again tt with Some e => Some e | None => k st end
             else
               match k st with Some e => Some e | None => again tt end
         end) (length (rest st)) st
  | Group i r' =>
      m r' st (fun st' =>
        k (MState (pos st') (rest st')
             ((i, firstn (pos st' - pos st) (rest st)) :: caps st')))
  | Ahead r' =>
      match m r' st Some with
      | Some e => k (MState (pos st) (rest st) (caps e))
      | None => None
      end
  | Bos => if pos st =? 0 then k st else None
  | Eos => match rest st with [] => k st | _ :: _ => None end
  end.

(** One match: where it starts, where it ends, what follows, the captures. *)
Record mresult : Type := MResult {
  mstart : nat;
  mend : nat;
  mafter : jsstring;
  mcaps : list (nat * jsstring)
}.

(** [RegExpBuiltinExec] for a regex without the [g] and [y] flags: the
    start index runs from [i] up to the end of the input. *)
Fixpoint search (r : regex) (i : nat) (s : jsstring) : option mresult :=
  match m r (MState i s []) Some with
  | Some e => Some (MResult i (pos e) (rest e) (caps e))
  | None =>
      match s with
      | _ :: s' => search r (S i) s'
      | [] => None
      end
  end.

Definition exec (r : regex) (s : jsstring) : option mresult := search r 0 s.

(** The text of capture [i] ([undefined] is not needed: every group of the
    patterns below takes part in every match). *)
Fixpoint capture (i : nat) (cs : list (nat * jsstring)) : jsstring :=
  match cs with
  | [] => []
  | (j, s) :: cs' => if i =? j then s else capture i cs'
  end.

(** [s.match(r)[0]] for a regex without the [g] flag. *)
Definition match0 (r : regex) (s : jsstring) : option jsstring :=
  match exec r s with
  | Some e => Some (firstn (mend e - mstart e) (skipn (mstart e) s))
  | None => None
  end.

(** [s.replace(r, '')] for a regex without the [g] flag: the first match
    is cut out. *)
Definition replace_empty (r : regex) (s : jsstring) : jsstring :=
  match exec r s with
  | Some e => firstn (mstart e) s ++ mafter e
  | None => s
  end.

End Regex.
Import Regex.

(* ------------------------------------------------------------------ *)
(** ** Plain objects used as maps from strings to strings *)

Module Obj.

(** An object literal [{}] filled by assignments [o[k] = v] with string
    values: its own properties, all enumerable data properties, listed in
    the order of [[OwnPropertyKeys]] (array indices in ascending numeric
    order, then the other keys in creation order).  Its prototype is
    [Object.prototype]. *)
Definition object := list (jsstring * jsstring).

Definition empty : object := [].

(** What a property read can give here. *)
Inductive value : Type :=
| VUndefined
| VString (s : jsstring)
| VObject.        (* a function or object found on [Object.prototype] *)

(** [ToBoolean]. *)
Definition truthy (v : value) : bool :=
  match v with
  | VUndefined => false
  | VString s => match s with [] => false | _ :: _ => true end
  | VObject => true
  end.

Definition proto : jsstring := str "__proto__".

(** The property names of [Object.prototype]. *)
Definition prototypeKeys : list jsstring :=
  map str
    [ "constructor"; "__defineGetter__"; "__defineSetter__"; "hasOwnProperty";
      "__lookupGetter__"; "__lookupSetter__"; "isPrototypeOf";
      "propertyIsEnumerable"; "toString"; "valueOf"; "__proto__";
      "toLocaleString" ]%string.

Definition inherited (k : jsstring) : bool := existsb (str_eqb k) prototypeKeys.

Fixpoint getOwn (k : jsstring) (o : object) : option jsstring :=
  match o with
  | [] => None
  | (k', v) :: o' => if str_eqb k k' then Some v else getOwn k o'
  end.

Definition hasOwn (k : jsstring) (o : object) : bool :=
  match getOwn k o with Some _ => true | None => false end.

(** [o[k]]: the own property, else what [Object.prototype] has under [k]. *)
Definition get (o : object) (k : jsstring) : value :=
  match getOwn k o with
  | Some v => VString v
  | None => if inherited k then VObject else VUndefined
  end.

(** The value of a run of decimal digits. *)
Fixpoint digitsValue (acc : N) (s : jsstring) : option N :=
  match s with
  | [] => Some acc
  | c :: s' =>
      if isDigit c
      then digitsValue (10 * acc + (N.of_nat (code c) - 48)) s'
      else None
  end.

(** An array index: the canonical decimal string of an integer in
    [0, 2^32 - 2]. *)
Definition arrayIndex (k : jsstring) : option N :=
  match k with
  | [] => None
  | c :: k' =>
      if chr_eqb c (chr "0") && negb (match k' with [] => true | _ => false end)
      then None
      else match digitsValue 0 k with
           | Some n => if (n <? 4294967295)%N then Some n else None
           | None => None
           end
  end.

(** Whether a new key [k] is listed before the existing key [k']. *)
Definition precedes (k k' : jsstring) : bool :=
  match arrayIndex k, arrayIndex k' with
  | Some n, Some n' => (n <? n')%N
  | Some _, None => true
  | None, _ => false
  end.

(** Creating the own property [k]. *)
Fixpoint create (k v : jsstring) (o : object) : object :=
  match o with
  | [] => [(k, v)]
  | (k', v') :: o' =>
      if precedes k k' then (k, v) :: o else (k', v') :: create k v o'
  end.

(** Writing the own property [k], which exists: its place is kept. *)
Fixpoint overwrite (k v : jsstring) (o : object) : object :=
  match o with
  | [] => []
  | (k', v') :: o' =>
      if str_eqb k k' then (k, v) :: o' else (k', v') :: overwrite k v o'
  end.

(** [o[k] = v] with [v] a string.  [__proto__] is an accessor of
    [Object.prototype] whose setter ignores a value that is not an object;
    every other property of [Object.prototype] is a writable data property,
    so that the assignment makes an own property. *)
Definition set (k v : jsstring) (o : object) : object :=
  if str_eqb k proto then o
  else if hasOwn k o then overwrite k v o
  else create k v o.

(** [delete o[k]]. *)
Fixpoint delete (k : jsstring) (o : object) : object :=
  match o with
  | [] => []
  | (k', v') :: o' =>
      if str_eqb k k' then o' else (k', v') :: delete k o'
  end.

(** [Object.keys(o)] and [Object.entries(o)]. *)
Definition keys (o : object) : list jsstring := map fst o.
Definition entries (o : object) : list (jsstring * jsstring) := o.

(** [Object.assign(target, source)]. *)
Definition assign (target source : object) : object :=
  fold_left (fun t e => set (fst e) (snd e) t) (entries source) target.

End Obj.
Import Obj.

(* ------------------------------------------------------------------ *)
(** ** The functions of deploy.js *)

(** [/\.[^/.]+$/] *)
Definition reExtension : regex :=
  Cat (Chr (is_chr period))
    (Cat (Plus (Chr extensionChar)) Eos).

(** [/\.thisismy$/] *)
Definition reThisismy : regex := lit period (str "thisismy") Eos.

(** [/^[^-]*-(?:[^-]*-)*?(?=\d)/] *)
Definition reBaseName : regex :=
  Cat Bos
    (Cat (Star true (Chr (not_chr hyphen)))
       (Cat (Chr (is_chr hyphen))
          (Cat (Star false (Cat (Star true (Chr (not_chr hyphen)))
                                (Chr (is_chr hyphen))))
             (Ahead (Chr isDigit))))).

(** [/-$/] *)
Definition reTrailingHyphen : regex := Cat (Chr (is_chr hyphen)) Eos.

(** [/^([^:]+):\s*(.+)$/] *)
Definition reEntry : regex :=
  Cat Bos
    (Cat (Group 1 (Plus (Chr (not_chr colon))))
       (Cat (Chr (is_chr colon))
          (Cat (Star true (Chr isWhiteSpace))
             (Cat (Group 2 (Plus (Chr isDot))) Eos)))).

(** The body of the callback of [generateKeys], up to [key]. *)
Definition deriveKey (filename : jsstring) : jsstring :=
  let filenameNoExt := replace_empty reExtension filename in
  let filenameNoExtNoSuffix := replace_empty reThisismy filenameNoExt in
  let baseNameMatch := match0 reBaseName filenameNoExtNoSuffix in
  let baseName :=
    match baseNameMatch with
    | Some m0 => m0
    | None => filenameNoExtNoSuffix
    end in
  let baseName := replace_empty reTrailingHyphen baseName in
  toLowerCase baseName.

Definition generateKeys (files : list jsstring) : object :=
  fold_left (fun fileToKey filename => set (deriveKey filename) filename fileToKey)
    files empty.

(** [content.split('\n')]. *)
Fixpoint split (s : jsstring) : list jsstring :=
  match s with
  | [] => [[]]
  | c :: s' =>
      if chr_eqb c newline then [] :: split s'
      else match split s' with
           | l :: ls => (c :: l) :: ls
           | [] => [[c]]
           end
  end.

(** One line of root.txt: the key and the value it sets, if it matches. *)
Definition parseLine (line : jsstring) : option (jsstring * jsstring) :=
  match exec reEntry line with
  | Some e => Some (capture 1 (mcaps e), capture 2 (mcaps e))
  | None => None
  end.

(** The callback of [forEach] in [readRootTxt]. *)
Definition addLine (entries : object) (line : jsstring) : object :=
  match parseLine line with
  | Some (k, v) => set k v entries
  | None => entries
  end.

(** [readRootTxt], on what the file system holds at [rootTxtPath]: [None]
    when the file does not exist, else its content. *)
Definition readRootTxt (file : option jsstring) : object :=
  match file with
  | Some content => fold_left addLine (split content) empty
  | None => empty
  end.

(** [updateEntries], on two distinct objects, as [main] calls it: the
    result is the first object after the update. *)
Definition updateEntries (existingEntries newEntries : object) : object :=
  let existingEntries :=
    fold_left (fun existing key =>
                 if negb (truthy (get newEntries key))
                 then delete key existing else existing)
      (keys existingEntries) existingEntries in
  assign existingEntries newEntries.

(** [updateEntries(o, o)], one object passed for both parameters, which
    [main] never does: the reads of [newEntries] see the deletions. *)
Definition updateEntriesAliased (o : object) : object :=
  let o' :=
    fold_left (fun current key =>
                 if negb (truthy (get current key))
                 then delete key current else current)
      (keys o) o in
  assign o' o'.

(** [arr.join(sep)]. *)
Fixpoint join (sep : jsstring) (l : list jsstring) : jsstring :=
  match l with
  | [] => []
  | [x] => x
  | x :: l' => x ++ sep ++ join sep l'
  end.

Definition formatEntry (e : jsstring * jsstring) : jsstring :=
  fst e ++ str ": " ++ snd e.

Definition formatEntries (entries : object) : jsstring :=
  join [newline] (map formatEntry (Obj.entries entries)).

(* ------------------------------------------------------------------ *)
(** ** The matcher, unfolded: loops and the texts that the patterns match *)

(** The loop of a star, as a function of its own. *)
Section Loop.
Variables (greedy : bool) (r : regex) (k : cont).

Fixpoint loop (n : nat) (st : mstate) {struct n} : option mstate :=
  match n with
  | O => k st
  | S n' =>
      let again (_ : unit) :=
        m r st (fun st' => if pos st <? pos st' then loop n' st' else None) in
      if greedy then
        match again tt with Some e => Some e | None => k st end
      else
        match k st with Some e => Some e | None => again tt end
  end.
End Loop.

(** A greedy star over a character class: the longest run first, then
    shorter ones. *)
Fixpoint greedyClass (p : codeUnit -> bool) (k : cont) (i : nat) (s : jsstring)
  (c : list (nat * jsstring)) : option mstate :=
  match s with
  | x :: s' =>
      if p x
      then match greedyClass p k (S i) s' c with
           | Some e => Some e
           | None => k (MState i s c)
           end
      else k (MState i s c)
  | [] => k (MState i [] c)
  end.

(** [cutTail tm s] removes from [s] its longest tail accepted by [tm]. *)
Fixpoint cutTail (tm : jsstring -> bool) (s : jsstring) : jsstring :=
  match s with
  | [] => []
  | x :: s' => if tm s then [] else x :: cutTail tm s'
  end.

(** A tail that is an extension: a period, then one or more characters
    that are neither [/] nor a period. *)
Definition isExtension (s : jsstring) : bool :=
  match s with
  | x :: y :: t => chr_eqb period x && forallb extensionChar (y :: t)
  | _ => false
  end.

(** The first index of [s] that holds a digit right after a hyphen;
    [prevHyphen] tells whether a hyphen stands right before [s]. *)
Fixpoint scan (prevHyphen : bool) (i : nat) (s : jsstring)
  (c : list (nat * jsstring)) : option mstate :=
  match s with
  | [] => None
  | x :: t =>
      if prevHyphen && isDigit x then Some (MState i s c)
      else scan (chr_eqb hyphen x) (S i) t c
  end.

Fixpoint afterHyphen (k : cont) (i : nat) (s : jsstring)
  (c : list (nat * jsstring)) : option mstate :=
  match s with
  | [] => None
  | x :: t =>
      if chr_eqb hyphen x then k (MState (S i) t c)
      else afterHyphen k (S i) t c
  end.

Definition segment : regex :=
  Cat (Star true (Chr (not_chr hyphen))) (Chr (is_chr hyphen)).

Definition aheadDigit : cont := fun st => m (Ahead (Chr isDigit)) st Some.

(** The text that [reBaseName] matches. *)
Fixpoint baseNamePrefix (prevHyphen : bool) (s : jsstring) : option jsstring :=
  match s with
  | [] => None
  | x :: t =>
      if prevHyphen && isDigit x then Some []
      else option_map (cons x) (baseNamePrefix (chr_eqb hyphen x) t)
  end.

(** What group 2 captures in the text [s] that follows the colon: [\s*]
    first takes all the white space it can and gives back one character at
    a time until [(.+)$] accepts what is left. *)
Fixpoint entryValue (s : jsstring) : option jsstring :=
  match s with
  | [] => None
  | x :: t =>
      let here := if forallb isDot s then Some s else None in
      if isWhiteSpace x
      then match entryValue t with Some v => Some v | None => here end
      else here
  end.

(** The key and the value that a line of root.txt sets. *)
Definition entryOf (line : jsstring) : option (jsstring * jsstring) :=
  match takeWhile (not_chr colon) line, dropWhile (not_chr colon) line with
  | x :: key, _ :: s => option_map (pair (x :: key)) (entryValue s)
  | _, _ => None
  end.

(** What follows [\s*] in [reEntry]: [(.+)$]. *)
Definition valueEnd : cont :=
  fun st => m (Cat (Group 2 (Plus (Chr isDot))) Eos) st Some.

(* ------------------------------------------------------------------ *)
(** ** Objects: sequences of assignments, the invariant of own-key order *)

(** A sequence of assignments: the last one to a key decides. *)
Definition assignAll (l : list (jsstring * jsstring)) (o : object) : object :=
  fold_left (fun t e => set (fst e) (snd e) t) l o.

(** The keys of an object, as [[OwnPropertyKeys]] lists them: no key
    twice, no own [__proto__], and no key that would have been listed
    before one that stands earlier. *)
Fixpoint wfKeys (ks : list jsstring) : bool :=
  match ks with
  | [] => true
  | k :: ks' =>
      negb (str_eqb k proto)
      && forallb (fun k' => negb (str_eqb k' k) && negb (precedes k' k)) ks'
      && wfKeys ks'
  end.

Definition wf (o : object) : Prop := wfKeys (keys o) = true.

#[global] Arguments wfKeys : simpl never.

(** Whether the deletion loop keeps the key [k]: [newEntries[k]] is truthy. *)
Definition keep (newEntries : object) (k : jsstring) : bool :=
  truthy (get newEntries k).

Definition prune (newEntries existingEntries : object) : object :=
  fold_left (fun existing key =>
               if negb (keep newEntries key) then delete key existing else existing)
    (keys existingEntries) existingEntries.

(** No value is the empty string. *)
Definition nonEmptyValues (o : object) : bool :=
  forallb (fun e => match snd e with [] => false | _ :: _ => true end) o.

(** Every key of [previous] that is a property name of [Object.prototype]
    is a key of [fresh]. *)
Definition inheritedKeysIn (previous fresh : object) : bool :=
  forallb (fun k => negb (inherited k) || hasOwn k fresh) (keys previous).

(** The value of the last entry. *)
Definition lastValue (o : object) : jsstring :=
  match rev o with e :: _ => snd e | [] => [] end.

(** The entry [e] of the target after [Object.assign(target, source)]. *)
Definition upd (source : object) (e : jsstring * jsstring) : jsstring * jsstring :=
  (fst e, match getOwn (fst e) source with Some v => v | None => snd e end).

(* ------------------------------------------------------------------ *)
(** ** Strings: suffixes, extensions, hyphens before digits *)

(** Whether [s] ends with [suffix]; [dropSuffix] removes it when it does. *)
Definition endsWith (suffix s : jsstring) : bool :=
  (length suffix <=? length s)
  && str_eqb (skipn (length s - length suffix) s) suffix.

Definition dropSuffix (suffix s : jsstring) : jsstring :=
  if endsWith suffix s then firstn (length s - length suffix) s else s.

(** The text after the last period of [s], when [s] has a period. *)
Fixpoint extension (s : jsstring) : option jsstring :=
  match s with
  | [] => None
  | x :: t =>
      match extension t with
      | Some e => Some e
      | None => if chr_eqb period x then Some t else None
      end
  end.

(** [s] without its last period and what follows it, when something
    follows it and has no slash. *)
Definition dropExtension (s : jsstring) : jsstring :=
  match extension s with
  | Some (y :: e) =>
      if existsb (chr_eqb slash) (y :: e) then s
      else firstn (length s - S (length (y :: e))) s
  | _ => s
  end.

(** The name that the key is read from: the extension dropped, then a
    trailing [.thisismy]. *)
Definition stripName (filename : jsstring) : jsstring :=
  dropSuffix (str ".thisismy") (dropExtension filename).

(** Whether [s] starts with a digit. *)
Definition headDigit (s : jsstring) : bool :=
  match s with y :: _ => isDigit y | [] => false end.

(** Whether [s] has a hyphen with a digit right after it. *)
Fixpoint hyphenDigit (s : jsstring) : bool :=
  match s with
  | x :: t => (chr_eqb hyphen x && headDigit t) || hyphenDigit t
  | [] => false
  end.

(** The same, [p] telling whether a hyphen stands right before [s]. *)
Definition pairFrom (p : bool) (s : jsstring) : bool :=
  (p && headDigit s) || hyphenDigit s.

(* ------------------------------------------------------------------ *)
(** ** The lines of root.txt *)

(** A line that sets [key]: [key], a colon, white space, and a rest that
    is not empty and has no line terminator; [key] is not empty and has no
    colon. *)
Definition entryForm (line key : jsstring) : Prop :=
  exists ws rem,
    line = key ++ colon :: ws ++ rem /\
    key <> [] /\ forallb (not_chr colon) key = true /\
    forallb isWhiteSpace ws = true /\
    rem <> [] /\ forallb isDot rem = true.

(** The entries that the lines set, in order. *)
Definition lineEntries (lines : list jsstring) : list (jsstring * jsstring) :=
  flat_map (fun line => match parseLine line with Some e => [e] | None => [] end) lines.

(** A key that a line can carry: not empty, no colon, no newline. *)
Definition plainKey (k : jsstring) : bool :=
  match k with
  | [] => false
  | _ :: _ => forallb (fun c => negb (chr_eqb colon c) && negb (chr_eqb newline c)) k
  end.

(** A value that a line can carry: not empty, no white space in front, no
    line terminator. *)
Definition plainValue (v : jsstring) : bool :=
  match v with
  | [] => false
  | x :: _ => negb (isWhiteSpace x) && forallb isDot v
  end.

Definition plainEntries (m : object) : bool :=
  forallb (fun e => plainKey (fst e) && plainValue (snd e)) m.

Definition carriageReturn : codeUnit := 13%N.

(** A line of the form [key: value] as the specification words it: a key
    that is not empty and has no colon, a colon, optional white space, a
    rest that is not empty. *)
Definition entryFormLoose (line key : jsstring) : Prop :=
  exists ws rem,
    line = key ++ colon :: ws ++ rem /\
    key <> [] /\ forallb (not_chr colon) key = true /\
    forallb isWhiteSpace ws = true /\
    rem <> [].

(* ------------------------------------------------------------------ *)
(** ** The wording of the specification *)


(** The key as the specification words it for a file name without a
    digit: the lowercase name, extension and [.thisismy] stripped. *)
Definition keyWithoutDigit (filename : jsstring) : jsstring :=
  toLowerCase (stripName filename).

(** The order as the specification words it: the keys kept from the
    previous mapping, in their previous order, then the keys that only the
    fresh mapping has, in its order. *)
Definition claimedOrder (previous fresh : object) : list jsstring :=
  filter (fun k => hasOwn k fresh) (keys previous)
  ++ filter (fun k => negb (hasOwn k previous)) (keys fresh).

Definition lookup (o : object) (k : jsstring) : jsstring :=
  match getOwn k o with Some v => v | None => [] end.

(** The keys that the deletion loop of [updateEntries] keeps: the keys of
    the previous mapping for which [newEntries[key]] is truthy, in their
    previous order. *)
Definition retainedKeys (previous fresh : object) : list jsstring :=
  filter (keep fresh) (keys previous).

(** The keys that [Object.assign] then creates: the keys of the fresh
    mapping that are not retained keys, in the order of the fresh
    mapping. *)
Definition addedKeys (previous fresh : object) : list jsstring :=
  filter (fun k => negb (keep fresh k && hasOwn k previous)) (keys fresh).

(** Array indices and the other keys of a list, each in the order of the
    list. *)
Definition isIndexKey (k : jsstring) : bool :=
  match arrayIndex k with Some _ => true | None => false end.

Definition indexValue (k : jsstring) : N :=
  match arrayIndex k with Some n => n | None => 0 end.

Definition indexKeys (ks : list jsstring) : list jsstring := filter isIndexKey ks.

Definition otherKeys (ks : list jsstring) : list jsstring :=
  filter (fun k => negb (isIndexKey k)) ks.

(** Strictly ascending numeric order. *)
Fixpoint ascendingKeys (ks : list jsstring) : bool :=
  match ks with
  | [] => true
  | k :: ks' =>
      forallb (fun k' => (indexValue k <? indexValue k')%N) ks' && ascendingKeys ks'
  end.

(** [k] stands before [k'] in the list. *)
Definition listedBefore (ks : list jsstring) (k k' : jsstring) : Prop :=
  exists l1 l2 l3, ks = l1 ++ k :: l2 ++ k' :: l3.

(** The value of a decimal digit. *)
Definition digitOf (c : codeUnit) : N := N.of_nat (code c) - 48.

(* ------------------------------------------------------------------ *)
(** ** What [main] writes *)

(** The text that [main] writes to root.txt: [file] is what root.txt holds
    before, [briefingFiles] the files of the directory. *)
Definition updatedContent (file : option jsstring)
  (briefingFiles : list jsstring) : jsstring :=
  formatEntries (updateEntries (readRootTxt file) (generateKeys briefingFiles)).

(* ------------------------------------------------------------------ *)
(** ** The answers to the prompts *)

(** [String.prototype.trim]: white space and line terminators are removed
    at both ends. *)
Definition trim (s : jsstring) : jsstring :=
  rev (dropWhile isWhiteSpace (rev (dropWhile isWhiteSpace s))).

(** [Canonicalize] of a pattern with the [i] flag and without the [u]
    flag: the code unit of the uppercase character, when the uppercase is
    one code unit.  Given for the code units below 256; the code units
    above are left as they are.  No code unit above 127 has an ASCII letter
    as its canonical form, so the letters of [/^y(es)?$/i] match exactly
    the code units they match in JavaScript. *)
Definition canonicalize (c : codeUnit) : nat :=
  let n := code c in
  if (97 <=? n) && (n <=? 122) then n - 32
  else if (224 <=? n) && (n <=? 254) && negb (n =? 247) then n - 32
  else if n =? 255 then 376
  else if n =? 181 then 924
  else n.

(** A pattern character under the [i] flag. *)
Definition chr_ci (a : codeUnit) : codeUnit -> bool :=
  fun c => canonicalize c =? canonicalize a.

Module RegexOpt.

(** Patterns with [r?] on top of the patterns of [Regex]. *)
Inductive regexq : Type :=
| Base (r : regex)
| Seq (r1 r2 : regexq)
| Opt (r : regexq).                 (* r? *)

(** The matcher: [r?] tries one iteration that consumes input, then none. *)
Fixpoint mq (r : regexq) (st : mstate) (k : cont) {struct r} : option mstate :=
  match r with
  | Base r' => m r' st k
  | Seq r1 r2 => mq r1 st (fun st' => mq r2 st' k)
  | Opt r' =>
      match mq r' st (fun st' => if pos st <? pos st' then k st' else None) with
      | Some e => Some e
      | None => k st
      end
  end.

Fixpoint searchq (r : regexq) (i : nat) (s : jsstring) : option mresult :=
  match mq r (MState i s []) Some with
  | Some e => Some (MResult i (pos e) (rest e) (caps e))
  | None =>
      match s with
      | _ :: s' => searchq r (S i) s'
      | [] => None
      end
  end.

(** [r.test(s)] for a regex without the [g] and [y] flags. *)
Definition test (r : regexq) (s : jsstring) : bool :=
  match searchq r 0 s with Some _ => true | None => false end.

End RegexOpt.
Import RegexOpt.

(** [/^y(es)?$/i] *)
Definition reYes : regexq :=
  Seq (Base Bos)
    (Seq (Base (Chr (chr_ci (chr "y"))))
       (Seq (Opt (Base (Group 1 (Cat (Chr (chr_ci (chr "e")))
                                     (Chr (chr_ci (chr "s")))))))
          (Base Eos))).

(** [/^y(es)?$/i.test(choice.trim())] *)
Definition affirmative (choice : jsstring) : bool := test reYes (trim choice).

(* ------------------------------------------------------------------ *)
(** ** The calls into Node, and programs that make them *)

Module Node.

(** What a call that can throw gives: a value, or an error with its
    message. *)
Inductive result (T : Type) : Type :=
| Ok (t : T)
| Throw (message : jsstring).

Arguments Ok {T} t.
Arguments Throw {T} message.

(** The calls of deploy.js, each with the type of what it gives back. *)
Inductive call : Type -> Type :=
| ExistsSync (path : jsstring) : call bool
| ReaddirSync (path : jsstring) : call (result (list jsstring))
| StatIsFile (path : jsstring) : call (result bool)   (* statSync(path).isFile() *)
| ReadFileSync (path : jsstring) : call (result jsstring)
| WriteFileSync (path content : jsstring) : call (result unit)
| ConsoleLog (text : jsstring) : call unit
| ConsoleError (text : jsstring) : call unit
| CreateInterface : call unit
| Question (query : jsstring) : call (result (option jsstring))
    (* await question(query): the answer; or none when the input ends
       before a line arrives, in which case the promise never settles; or
       the error that rl.question throws, as it does once the interface is
       closed *)
| Close : call unit                                   (* rl.close() *)
| Exec (command : jsstring) : call (result unit).     (* await exec(command) *)

(** A program: it returns, or ends the process with [process.exit], or
    awaits a promise that never settles, or makes a call and goes on with
    what the call gives. *)
Inductive io (A : Type) : Type :=
| Ret (a : A)
| Exit (code : nat)
| Stop
| Call (T : Type) (c : call T) (k : T -> io A).

Arguments Ret {A} a.
Arguments Exit {A} code.
Arguments Stop {A}.
Arguments Call {A T} c k.

Fixpoint bind {A B : Type} (p : io A) (f : A -> io B) : io B :=
  match p with
  | Ret a => f a
  | Exit code => Exit code
  | Stop => Stop
  | Call c k => Call c (fun r => bind (k r) f)
  end.

(** Sequencing inside [try]: an error skips what follows. *)
Definition tryBind {A B : Type} (p : io (result A)) (f : A -> io (result B))
  : io (result B) :=
  bind p (fun r => match r with Ok a => f a | Throw message => Ret (Throw message) end).

(** A call that can throw, inside [try]. *)
Definition attempt {T : Type} (c : call (result T)) : io (result T) :=
  Call c (fun r => Ret r).

(** A call that cannot throw, then the rest. *)
Definition after {A : Type} (c : call unit) (p : io A) : io A :=
  Call c (fun _ => p).

(** One call as it is observed, with what it gave. *)
Inductive event : Type :=
| Exists (path : jsstring) (reply : bool)
| Readdir (path : jsstring) (reply : result (list jsstring))
| Stat (path : jsstring) (reply : result bool)
| Read (path : jsstring) (reply : result jsstring)
| Wrote (path content : jsstring) (reply : result unit)
| Logged (text : jsstring)
| Errored (text : jsstring)
| Opened
| Asked (query answer : jsstring)
| Unanswered (query : jsstring)
| AskFailed (query message : jsstring)
| Closed
| Ran (command : jsstring) (reply : result unit).

Definition observe {T : Type} (c : call T) : T -> event :=
  match c in call T0 return T0 -> event with
  | ExistsSync path => fun r => Exists path r
  | ReaddirSync path => fun r => Readdir path r
  | StatIsFile path => fun r => Stat path r
  | ReadFileSync path => fun r => Read path r
  | WriteFileSync path content => fun r => Wrote path content r
  | ConsoleLog text => fun _ => Logged text
  | ConsoleError text => fun _ => Errored text
  | CreateInterface => fun _ => Opened
  | Question query => fun r =>
      match r with
      | Ok (Some answer) => Asked query answer
      | Ok None => Unanswered query
      | Throw message => AskFailed query message
      end
  | Close => fun _ => Closed
  | Exec command => fun r => Ran command r
  end.

(** How a run ends: the program returns; or [process.exit] ends the
    process; or the program awaits a promise that never settles, nothing is
    left to do, and the process ends by itself. *)
Inductive outcome (A : Type) : Type :=
| Returned (a : A)
| Exited (code : nat)
| Stopped.

Arguments Returned {A} a.
Arguments Exited {A} code.
Arguments Stopped {A}.

(** The exit code of the process when [main] ends this way. *)
Definition exitCode (A : Type) (out : outcome A) : nat :=
  match out with
  | Returned _ => 0
  | Exited code => code
  | Stopped => 0
  end.

(** How a part that does not return ends the whole. *)
Definition cut (A B : Type) (out : outcome A) : option (outcome B) :=
  match out with
  | Returned _ => None
  | Exited code => Some (Exited code)
  | Stopped => Some Stopped
  end.

(** [traces p tr out]: the program [p] can make the calls of [tr], in this
    order and with these replies, and end with [out]. *)
Fixpoint traces {A : Type} (p : io A) (tr : list event) (out : outcome A) : Prop :=
  match p with
  | Ret a => tr = [] /\ out = Returned a
  | Exit code => tr = [] /\ out = Exited code
  | Stop => tr = [] /\ out = Stopped
  | Call c k => exists r tr', tr = observe c r :: tr' /\ traces (k r) tr' out
  end.

(** Whether a call threw. *)
Definition threw (ev : event) : bool :=
  match ev with
  | Readdir _ (Throw _) | Stat _ (Throw _) | Read _ (Throw _)
  | Wrote _ _ (Throw _) | Ran _ (Throw _) | AskFailed _ _ => true
  | _ => false
  end.

(** The commands that were run, in order. *)
Definition commands (tr : list event) : list jsstring :=
  flat_map (fun ev => match ev with Ran command _ => [command] | _ => [] end) tr.

End Node.
Import Node.

(* ------------------------------------------------------------------ *)
(** ** The effectful functions of deploy.js *)

Definition dquote : codeUnit := 34%N.

(** [`git add "${path}"`] *)
Definition gitAdd (path : jsstring) : jsstring :=
  str "git add " ++ dquote :: path ++ [dquote].

Definition gitVersion : jsstring := str "git --version".

(** [`git commit -m "${commitMessage}"`] *)
Definition gitCommit : jsstring :=
  str "git commit -m " ++ dquote :: str "Deploy updated briefings and root.txt" ++ [dquote].

Definition gitPush : jsstring := str "git push".

Definition editQuery : jsstring :=
  newline :: str "Do you want to manually edit root.txt before deploying? (yes/no): ".

Definition deployQuery : jsstring := str "Do you want to deploy? (yes/no): ".

(** [file.startsWith('.')] *)
Definition startsWithPeriod (file : jsstring) : bool :=
  match file with c :: _ => chr_eqb c period | [] => false end.

(** The names of the directory that do not start with a period, and, given
    what [isFile()] said for each of them, the ones that are kept. *)
Definition candidates (names : list jsstring) : list jsstring :=
  filter (fun file => negb (startsWithPeriod file)) names.

Definition selected (names : list jsstring) (replies : list bool) : list jsstring :=
  map fst (filter snd (combine (candidates names) replies)).

(** A run of commands and messages in which the first command that fails
    ends the run with its error. *)
Inductive step : Type :=
| Cmd (command : jsstring)
| Say (text : jsstring).

Fixpoint script (steps : list step) : io (result unit) :=
  match steps with
  | [] => Ret (Ok tt)
  | Cmd command :: rest => tryBind (attempt (Exec command)) (fun _ => script rest)
  | Say text :: rest => after (ConsoleLog text) (script rest)
  end.

(** A step that went through, as it is observed. *)
Definition done (s : step) : event :=
  match s with
  | Cmd command => Ran command (Ok tt)
  | Say text => Logged text
  end.

Definition asked (ev : event) : bool :=
  match ev with Asked _ _ | Unanswered _ | AskFailed _ _ => true | _ => false end.

Definition wrote (ev : event) : bool :=
  match ev with Wrote _ _ _ => true | _ => false end.

Definition ran (ev : event) : bool :=
  match ev with Ran _ _ => true | _ => false end.

(** The message of the error a call threw. *)
Definition thrown (ev : event) : option jsstring :=
  match ev with
  | Readdir _ (Throw message) | Stat _ (Throw message) | Read _ (Throw message)
  | Wrote _ _ (Throw message) | Ran _ (Throw message)
  | AskFailed _ message => Some message
  | _ => None
  end.

Definition errored (ev : event) : bool :=
  match ev with Errored _ => true | _ => false end.

(** What the [catch] block of [userInteraction] does after a question
    threw, before the error goes on to [main]. *)
Definition cleanup (ev : event) : list event :=
  match ev with AskFailed _ _ => [Closed] | _ => [] end.

Definition unanswered (ev : event) : bool :=
  match ev with Unanswered _ => true | _ => false end.

(** A call that went through and is not [console.error]. *)
Definition fine (ev : event) : bool :=
  negb (threw ev) && negb (errored ev) && negb (unanswered ev).

(** The commands among the steps. *)
Definition stepCommands (steps : list step) : list jsstring :=
  flat_map (fun s => match s with Cmd command => [command] | Say _ => [] end) steps.

(** What [main] prints after it wrote root.txt. *)
Definition shown (content : jsstring) : list event :=
  [Logged (newline :: str "Updated root.txt:"); Logged (str "------------------");
   Logged content].

Definition terminated : event := Logged (str "Process terminated by the user.").

Definition pleaseEdit : event :=
  Logged (str "Please edit root.txt as needed and rerun the script to deploy.").

(** The two messages of [console.error] in [main]. *)
Definition missingDir (BRIEFINGS_DIR : jsstring) : jsstring :=
  str "Error: The briefings directory " ++ dquote :: BRIEFINGS_DIR
  ++ dquote :: str " does not exist.".

Definition failure (message : jsstring) : jsstring :=
  str "An error occurred: " ++ message.

(** What [readRootTxt] found at the path and what it read there. *)
Definition readShape (ROOT_TXT : jsstring) (old : option jsstring)
  (tr : list event) : Prop :=
  (old = None /\ tr = [Exists ROOT_TXT false]) \/
  (exists content,
     old = Some content /\ tr = [Exists ROOT_TXT true; Read ROOT_TXT (Ok content)]).

(** An answer that [/^y(es)?$/i] accepts after [trim], in words. *)
Definition saysYes (answer : jsstring) : Prop :=
  toLowerCase (trim answer) = str "y" \/ toLowerCase (trim answer) = str "yes".

(** [readRootTxt], with its calls. *)
Definition readRootTxtIO (rootTxtPath : jsstring) : io (result object) :=
  Call (ExistsSync rootTxtPath) (fun present =>
    if present
    then tryBind (attempt (ReadFileSync rootTxtPath))
           (fun content => Ret (Ok (readRootTxt (Some content))))
    else Ret (Ok (readRootTxt None))).

Definition writeRootTxt (rootTxtPath : jsstring) (entries : object)
  : io (result unit) :=
  attempt (WriteFileSync rootTxtPath (formatEntries entries)).

(** [await question(query)] inside the [try] of [userInteraction]: what
    follows runs with the answer; when the input ends before a line
    arrives, [rl.question] never calls back, the promise stays pending and
    nothing follows; when [rl.question] throws, the [catch] block closes
    the interface and throws the error again. *)
Definition question (A : Type) (query : jsstring) (k : jsstring -> io (result A))
  : io (result A) :=
  Call (Question query) (fun reply =>
    match reply with
    | Ok (Some answer) => k answer
    | Ok None => Stop
    | Throw message => after Close (Ret (Throw message))
    end).

(** [userInteraction]: [createInterface], [console.log] and [rl.close] do
    not throw, so that the [catch] block is reached from a question
    only. *)
Definition userInteraction : io (result bool) :=
  after CreateInterface
    (question editQuery (fun editChoice =>
       if affirmative editChoice
       then after (ConsoleLog
                     (str "Please edit root.txt as needed and rerun the script to deploy."))
              (after Close (Ret (Ok false)))
       else question deployQuery (fun deployChoice =>
              if affirmative deployChoice
              then after Close (Ret (Ok true))
              else after Close (Ret (Ok false))))).

Section Paths.

(** [path.join], not modelled: the commands and the calls are stated in
    terms of it. *)
Variable pathJoin : jsstring -> jsstring -> jsstring.

(** One [statSync(...).isFile()] that went through. *)
Definition statOf (briefingsDir : jsstring) (reply : jsstring * bool) : event :=
  Stat (pathJoin briefingsDir (fst reply)) (Ok (snd reply)).

(** What [deployChanges] does when nothing fails. *)
Definition deploySteps (rootTxtPath briefingsDir : jsstring)
  (briefingFiles : list jsstring) : list step :=
  [Cmd gitVersion; Cmd (gitAdd rootTxtPath)]
  ++ map (fun file => Cmd (gitAdd (pathJoin briefingsDir file))) briefingFiles
  ++ [Cmd gitCommit; Say (newline :: str "Deploying changes..."); Cmd gitPush;
      Say (str "Deployment completed successfully.")].

(** The calls of [main] up to the end of the selection of the files, when
    nothing failed. *)
Definition listed (BRIEFINGS_DIR : jsstring) (names : list jsstring)
  (replies : list bool) : list event :=
  Exists BRIEFINGS_DIR true :: Readdir BRIEFINGS_DIR (Ok names)
  :: map (statOf BRIEFINGS_DIR) (combine (candidates names) replies).

(** The runs of [main], kind by kind: the directory is missing; listing it
    fails; [statSync] fails; reading root.txt fails; writing it fails; the
    input ends at the first question; the first question throws; the user
    wants to edit; the input ends at the second question; the second
    question throws; the user does not want to deploy; the deployment goes
    through; a command of the deployment fails. *)
Inductive mainRun (BRIEFINGS_DIR ROOT_TXT : jsstring)
  : list event -> outcome unit -> Prop :=
| RunMissing :
    mainRun BRIEFINGS_DIR ROOT_TXT
      [Exists BRIEFINGS_DIR false; Errored (missingDir BRIEFINGS_DIR)] (Exited 1)
| RunReaddirThrew message :
    mainRun BRIEFINGS_DIR ROOT_TXT
      [Exists BRIEFINGS_DIR true; Readdir BRIEFINGS_DIR (Throw message);
       Errored (failure message)] (Exited 1)
| RunStatThrew names before file later replies message :
    candidates names = before ++ file :: later ->
    length replies = length before ->
    mainRun BRIEFINGS_DIR ROOT_TXT
      (Exists BRIEFINGS_DIR true :: Readdir BRIEFINGS_DIR (Ok names)
       :: map (statOf BRIEFINGS_DIR) (combine before replies)
       ++ [Stat (pathJoin BRIEFINGS_DIR file) (Throw message);
           Errored (failure message)]) (Exited 1)
| RunReadThrew names replies message :
    length replies = length (candidates names) ->
    mainRun BRIEFINGS_DIR ROOT_TXT
      (listed BRIEFINGS_DIR names replies
       ++ [Exists ROOT_TXT true; Read ROOT_TXT (Throw message);
           Errored (failure message)]) (Exited 1)
| RunWriteThrew names replies old trR message :
    length replies = length (candidates names) ->
    readShape ROOT_TXT old trR ->
    mainRun BRIEFINGS_DIR ROOT_TXT
      (listed BRIEFINGS_DIR names replies ++ trR
       ++ [Wrote ROOT_TXT (updatedContent old (selected names replies)) (Throw message);
           Errored (failure message)]) (Exited 1)
| RunNoEditAnswer names replies old trR :
    length replies = length (candidates names) ->
    readShape ROOT_TXT old trR ->
    mainRun BRIEFINGS_DIR ROOT_TXT
      (listed BRIEFINGS_DIR names replies ++ trR
       ++ Wrote ROOT_TXT (updatedContent old (selected names replies)) (Ok tt)
       :: shown (updatedContent old (selected names replies))
       ++ [Opened; Unanswered editQuery])
      Stopped
| RunEditAskFailed names replies old trR message :
    length replies = length (candidates names) ->
    readShape ROOT_TXT old trR ->
    mainRun BRIEFINGS_DIR ROOT_TXT
      (listed BRIEFINGS_DIR names replies ++ trR
       ++ Wrote ROOT_TXT (updatedContent old (selected names replies)) (Ok tt)
       :: shown (updatedContent old (selected names replies))
       ++ [Opened; AskFailed editQuery message; Closed; Errored (failure message)])
      (Exited 1)
| RunEdit names replies old trR first :
    length replies = length (candidates names) ->
    readShape ROOT_TXT old trR ->
    saysYes first ->
    mainRun BRIEFINGS_DIR ROOT_TXT
      (listed BRIEFINGS_DIR names replies ++ trR
       ++ Wrote ROOT_TXT (updatedContent old (selected names replies)) (Ok tt)
       :: shown (updatedContent old (selected names replies))
       ++ [Opened; Asked editQuery first; pleaseEdit; Closed; terminated])
      (Returned tt)
| RunNoDeployAnswer names replies old trR first :
    length replies = length (candidates names) ->
    readShape ROOT_TXT old trR ->
    ~ saysYes first ->
    mainRun BRIEFINGS_DIR ROOT_TXT
      (listed BRIEFINGS_DIR names replies ++ trR
       ++ Wrote ROOT_TXT (updatedContent old (selected names replies)) (Ok tt)
       :: shown (updatedContent old (selected names replies))
       ++ [Opened; Asked editQuery first; Unanswered deployQuery])
      Stopped
| RunDeployAskFailed names replies old trR first message :
    length replies = length (candidates names) ->
    readShape ROOT_TXT old trR ->
    ~ saysYes first ->
    mainRun BRIEFINGS_DIR ROOT_TXT
      (listed BRIEFINGS_DIR names replies ++ trR
       ++ Wrote ROOT_TXT (updatedContent old (selected names replies)) (Ok tt)
       :: shown (updatedContent old (selected names replies))
       ++ [Opened; Asked editQuery first; AskFailed deployQuery message; Closed;
           Errored (failure message)])
      (Exited 1)
| RunDeclined names replies old trR first second :
    length replies = length (candidates names) ->
    readShape ROOT_TXT old trR ->
    ~ saysYes first ->
    ~ saysYes second ->
    mainRun BRIEFINGS_DIR ROOT_TXT
      (listed BRIEFINGS_DIR names replies ++ trR
       ++ Wrote ROOT_TXT (updatedContent old (selected names replies)) (Ok tt)
       :: shown (updatedContent old (selected names replies))
       ++ [Opened; Asked editQuery first; Asked deployQuery second; Closed; terminated])
      (Returned tt)
| RunDeployed names replies old trR first second :
    length replies = length (candidates names) ->
    readShape ROOT_TXT old trR ->
    ~ saysYes first ->
    saysYes second ->
    mainRun BRIEFINGS_DIR ROOT_TXT
      (listed BRIEFINGS_DIR names replies ++ trR
       ++ Wrote ROOT_TXT (updatedContent old (selected names replies)) (Ok tt)
       :: shown (updatedContent old (selected names replies))
       ++ [Opened; Asked editQuery first; Asked deployQuery second; Closed]
       ++ map done (deploySteps ROOT_TXT BRIEFINGS_DIR (selected names replies)))
      (Returned tt)
| RunDeployFailed names replies old trR first second before command later message :
    length replies = length (candidates names) ->
    readShape ROOT_TXT old trR ->
    ~ saysYes first ->
    saysYes second ->
    deploySteps ROOT_TXT BRIEFINGS_DIR (selected names replies)
      = before ++ Cmd command :: later ->
    mainRun BRIEFINGS_DIR ROOT_TXT
      (listed BRIEFINGS_DIR names replies ++ trR
       ++ Wrote ROOT_TXT (updatedContent old (selected names replies)) (Ok tt)
       :: shown (updatedContent old (selected names replies))
       ++ [Opened; Asked editQuery first; Asked deployQuery second; Closed]
       ++ map done before
       ++ [Ran command (Throw message);
           Errored (failure (str "Deployment failed: " ++ message))])
      (Exited 1).

(** The loop of [deployChanges] over the briefing files. *)
Fixpoint stageFiles (briefingsDir : jsstring) (briefingFiles : list jsstring)
  : io (result unit) :=
  match briefingFiles with
  | [] => Ret (Ok tt)
  | file :: files =>
      tryBind (attempt (Exec (gitAdd (pathJoin briefingsDir file))))
        (fun _ => stageFiles briefingsDir files)
  end.

Definition deployChanges (rootTxtPath briefingsDir : jsstring)
  (briefingFiles : list jsstring) : io (result unit) :=
  bind
    (tryBind (attempt (Exec gitVersion)) (fun _ =>
     tryBind (attempt (Exec (gitAdd rootTxtPath))) (fun _ =>
     tryBind (stageFiles briefingsDir briefingFiles) (fun _ =>
     tryBind (attempt (Exec gitCommit)) (fun _ =>
     after (ConsoleLog (newline :: str "Deploying changes..."))
       (tryBind (attempt (Exec gitPush)) (fun _ =>
        after (ConsoleLog (str "Deployment completed successfully."))
          (Ret (Ok tt)))))))))
    (fun r =>
       match r with
       | Ok _ => Ret (Ok tt)
       | Throw message => Ret (Throw (str "Deployment failed: " ++ message))
       end).

(** The callback of [filter] in [main], over the names of the directory. *)
Fixpoint filterFiles (briefingsDir : jsstring) (names : list jsstring)
  : io (result (list jsstring)) :=
  match names with
  | [] => Ret (Ok [])
  | file :: names' =>
      if startsWithPeriod file then filterFiles briefingsDir names'
      else
        tryBind (attempt (StatIsFile (pathJoin briefingsDir file))) (fun isFile =>
        tryBind (filterFiles briefingsDir names') (fun files =>
        Ret (Ok (if isFile then file :: files else files))))
  end.

(** The body of [try] in [main], after the directory was found. *)
Definition mainBody (BRIEFINGS_DIR ROOT_TXT : jsstring) : io (result unit) :=
  tryBind (attempt (ReaddirSync BRIEFINGS_DIR)) (fun names =>
  tryBind (filterFiles BRIEFINGS_DIR names) (fun briefingFiles =>
  let fileToKey := generateKeys briefingFiles in
  tryBind (readRootTxtIO ROOT_TXT) (fun existingEntries =>
  let updatedEntries := updateEntries existingEntries fileToKey in
  tryBind (writeRootTxt ROOT_TXT updatedEntries) (fun _ =>
  after (ConsoleLog (newline :: str "Updated root.txt:"))
    (after (ConsoleLog (str "------------------"))
       (after (ConsoleLog (formatEntries updatedEntries))
          (tryBind userInteraction (fun proceed =>
           if proceed
           then deployChanges ROOT_TXT BRIEFINGS_DIR briefingFiles
           else after (ConsoleLog (str "Process terminated by the user."))
                  (Ret (Ok tt)))))))))).

(** [main]; [BRIEFINGS_DIR] and [ROOT_TXT] are the two resolved paths. *)
Definition main (BRIEFINGS_DIR ROOT_TXT : jsstring) : io unit :=
  Call (ExistsSync BRIEFINGS_DIR) (fun present =>
    if negb present
    then after (ConsoleError
                  (str "Error: The briefings directory " ++ dquote :: BRIEFINGS_DIR
                   ++ dquote :: str " does not exist."))
           (Exit 1)
    else bind (mainBody BRIEFINGS_DIR ROOT_TXT) (fun r =>
           match r with
           | Ok _ => Ret tt
           | Throw message =>
               after (ConsoleError (str "An error occurred: " ++ message)) (Exit 1)
           end)).

End Paths.

(* ------------------------------------------------------------------ *)
(** ** A run, for the examples *)

(** [path.join] of a directory and a plain file name. *)
Definition joinSlash (dir file : jsstring) : jsstring := dir ++ (chr "/") :: file.

(** A directory with a dot file, a briefing and a subdirectory, no root.txt
    yet; the user does not want to edit and wants to deploy; every command
    goes through. *)
Definition exampleRun : list event :=
  [Exists (str "briefings") true;
   Readdir (str "briefings") (Ok [str ".DS_Store"; str "seo-2024.txt"; str "old"]);
   Stat (str "briefings/seo-2024.txt") (Ok true);
   Stat (str "briefings/old") (Ok false);
   Exists (str "root.txt") false;
   Wrote (str "root.txt") (str "seo: seo-2024.txt") (Ok tt);
   Logged (newline :: str "Updated root.txt:");
   Logged (str "------------------");
   Logged (str "seo: seo-2024.txt");
   Opened;
   Asked editQuery (str "no");
   Asked deployQuery (str " Yes ");
   Closed;
   Ran gitVersion (Ok tt);
   Ran (gitAdd (str "root.txt")) (Ok tt);
   Ran (gitAdd (str "briefings/seo-2024.txt")) (Ok tt);
   Ran gitCommit (Ok tt);
   Logged (newline :: str "Deploying changes...");
   Ran gitPush (Ok tt);
   Logged (str "Deployment completed successfully.")].

(* ------------------------------------------------------------------ *)
(** ** Characters and strings: basic facts *)

Lemma chr_eqb_eq (a b : codeUnit) : chr_eqb a b = true <-> a = b.
Proof. apply N.eqb_eq. Qed.

Lemma chr_eqb_refl (a : codeUnit) : chr_eqb a a = true.
Proof. apply N.eqb_refl. Qed.

Lemma chr_eqb_neq (a b : codeUnit) : chr_eqb a b = false <-> a <> b.
Proof. apply N.eqb_neq. Qed.

Lemma chr_eqb_sym (a b : codeUnit) : chr_eqb a b = chr_eqb b a.
Proof. apply N.eqb_sym. Qed.

Lemma str_eqb_eq (a b : jsstring) : str_eqb a b = true <-> a = b.
Proof.
  revert b; induction a as [|x a IH]; intros [|y b]; simpl; split;
    try congruence; try reflexivity.
  - intros H. apply andb_true_iff in H as [H1 H2].
    apply chr_eqb_eq in H1. apply IH in H2. congruence.
  - intros H. injection H as -> ->. rewrite chr_eqb_refl. simpl. now apply IH.
Qed.

Lemma str_eqb_refl (a : jsstring) : str_eqb a a = true.
Proof. now apply str_eqb_eq. Qed.

Lemma str_eqb_neq (a b : jsstring) : str_eqb a b = false <-> a <> b.
Proof.
  split.
  - intros H E. apply str_eqb_eq in E. congruence.
  - intros H. destruct (str_eqb a b) eqn:E; [|reflexivity].
    apply str_eqb_eq in E. contradiction.
Qed.

Lemma str_eqb_sym (a b : jsstring) : str_eqb a b = str_eqb b a.
Proof.
  destruct (str_eqb a b) eqn:E.
  - apply str_eqb_eq in E. subst. now rewrite str_eqb_refl.
  - symmetry. apply str_eqb_neq. apply str_eqb_neq in E. congruence.
Qed.

(* ------------------------------------------------------------------ *)
(** ** The matcher on the shapes of pattern that deploy.js uses *)

Module RegexFacts.

Lemma m_star (greedy : bool) (r : regex) (st : mstate) (k : cont) :
  m (Star greedy r) st k = loop greedy r k (length (rest st)) st.
Proof. reflexivity. Qed.

Lemma loop_greedyClass (p : codeUnit -> bool) (k : cont) (n : nat) :
  forall i s c, length s <= n ->
    loop true (Chr p) k n (MState i s c) = greedyClass p k i s c.
Proof.
  induction n as [|n IH]; intros i s c Hn.
  - destruct s; simpl in *; [reflexivity | lia].
  - destruct s as [|x s]; simpl.
    + reflexivity.
    + destruct (p x); [|reflexivity].
      replace (i <? S i) with true by (symmetry; apply Nat.ltb_lt; lia).
      rewrite IH by (simpl in Hn; lia). reflexivity.
Qed.

Lemma m_cat (r1 r2 : regex) (st : mstate) (k : cont) :
  m (Cat r1 r2) st k = m r1 st (fun st' => m r2 st' k).
Proof. reflexivity. Qed.

Lemma m_chr (p : codeUnit -> bool) i s c (k : cont) :
  m (Chr p) (MState i s c) k =
  match s with
  | x :: t => if p x then k (MState (S i) t c) else None
  | [] => None
  end.
Proof. reflexivity. Qed.

Lemma m_star_class (p : codeUnit -> bool) (k : cont) i s c :
  m (Star true (Chr p)) (MState i s c) k = greedyClass p k i s c.
Proof. rewrite m_star. simpl. now apply loop_greedyClass. Qed.

(** When what follows refuses every character of the class, only the
    longest run can be accepted. *)
Lemma greedyClass_commit (p : codeUnit -> bool) (k : cont) :
  (forall i x t c, p x = true -> k (MState i (x :: t) c) = None) ->
  forall s i c,
    greedyClass p k i s c =
    k (MState (i + length (takeWhile p s)) (dropWhile p s) c).
Proof.
  intros Hk. induction s as [|x s IH]; intros i c; simpl.
  - now rewrite Nat.add_0_r.
  - destruct (p x) eqn:Px.
    + rewrite IH. simpl length. rewrite Nat.add_succ_r. simpl.
      destruct (k _) eqn:E; [reflexivity|]. now apply Hk.
    + simpl. now rewrite Nat.add_0_r.
Qed.

(** A greedy star over a class, followed by something that wants the end
    of the input. *)
Lemma greedyClass_end (p : codeUnit -> bool) (k : cont) :
  (forall i x t c, k (MState i (x :: t) c) = None) ->
  forall s i c,
    greedyClass p k i s c =
    if forallb p s then k (MState (i + length s) [] c) else None.
Proof.
  intros Hk. induction s as [|x s IH]; intros i c; simpl.
  - now rewrite Nat.add_0_r.
  - destruct (p x); simpl; [|apply Hk].
    rewrite IH, Nat.add_succ_r. simpl.
    destruct (forallb p s); [destruct (k _); [reflexivity|]|]; apply Hk.
Qed.

Lemma greedyClass_eos (p : codeUnit -> bool) (k : cont) s i c :
  greedyClass p (fun st => m Eos st k) i s c =
  if forallb p s then k (MState (i + length s) [] c) else None.
Proof. now apply (greedyClass_end p (fun st => m Eos st k)). Qed.

Lemma firstn_length_app (A : Type) (a b : list A) : firstn (length a) (a ++ b) = a.
Proof. induction a; simpl; congruence. Qed.

Lemma skipn_length_app (A : Type) (a b : list A) : skipn (length a) (a ++ b) = b.
Proof. induction a; simpl; congruence. Qed.

(** [replace] with a pattern that can only match a tail of the input. *)
Section ReplaceTail.
Variables (r : regex) (tm : jsstring -> bool).
Hypothesis m_tail : forall i s,
  m r (MState i s []) Some =
  if tm s then Some (MState (i + length s) [] []) else None.

Lemma search_tail : forall s pre,
  match search r (length pre) s with
  | Some e => firstn (mstart e) (pre ++ s) ++ mafter e
  | None => pre ++ s
  end = pre ++ cutTail tm s.
Proof using m_tail.
  induction s as [|x s IH]; intros pre; simpl; rewrite m_tail.
  - destruct (tm []); simpl; [|reflexivity].
    now rewrite firstn_length_app, !app_nil_r.
  - destruct (tm (x :: s)); simpl.
    + now rewrite firstn_length_app, !app_nil_r.
    + specialize (IH (pre ++ [x])).
      rewrite length_app, Nat.add_1_r, <- !app_assoc in IH. exact IH.
Qed.

Lemma replace_tail (s : jsstring) : replace_empty r s = cutTail tm s.
Proof using m_tail. exact (search_tail s []). Qed.
End ReplaceTail.

(** A pattern that starts with [^] matches at index 0 or nowhere. *)
Lemma search_bos (r : regex) : forall s i, search (Cat Bos r) (S i) s = None.
Proof. induction s as [|x s IH]; intros i; simpl; [reflexivity | apply IH]. Qed.

Lemma exec_bos (r : regex) (s : jsstring) :
  exec (Cat Bos r) s =
  match m r (MState 0 s []) Some with
  | Some e => Some (MResult 0 (pos e) (rest e) (caps e))
  | None => None
  end.
Proof.
  unfold exec. destruct s as [|x s]; simpl.
  - now destruct (m r _ _).
  - destruct (m r _ _); [reflexivity | apply search_bos].
Qed.

(** *** [/\.[^/.]+$/] *)

Lemma m_reExtension i s :
  m reExtension (MState i s []) Some =
  if isExtension s then Some (MState (i + length s) [] []) else None.
Proof.
  destruct s as [|x [|y t]]; simpl; try reflexivity.
  - unfold is_chr. now destruct (chr_eqb period x).
  - unfold is_chr. destruct (chr_eqb period x); simpl; [|reflexivity].
    destruct (extensionChar y); simpl; [|reflexivity].
    change (((fix loop (n : nat) (st : mstate) {struct n} : option mstate := _) (length t)
      (MState (S (S i)) t [])))
      with (m (Star true (Chr extensionChar)) (MState (S (S i)) t [])
              (fun st' => m Eos st' Some)).
    rewrite m_star_class, greedyClass_eos. rewrite !Nat.add_succ_r. reflexivity.
Qed.

(** *** [/\.thisismy$/] and [/-$/] *)

Lemma m_lit_eos : forall l c i s cs,
  m (lit c l Eos) (MState i s cs) Some =
  if str_eqb s (c :: l) then Some (MState (i + length s) [] cs) else None.
Proof.
  induction l as [|d l IH]; intros c i s cs.
  - destruct s as [|x [|y t]]; simpl; try reflexivity; unfold is_chr;
      rewrite (chr_eqb_sym c x); destruct (chr_eqb x c); simpl; try reflexivity.
    now rewrite Nat.add_1_r.
  - destruct s as [|x s]; [reflexivity|].
    simpl lit. cbn [m rest pos caps]. unfold is_chr.
    rewrite (chr_eqb_sym c x). cbn [str_eqb]. destruct (chr_eqb x c); simpl; [|reflexivity].
    rewrite IH. now rewrite Nat.add_succ_r.
Qed.

(** *** [/^[^-]*-(?:[^-]*-)*?(?=\d)/] *)

Lemma greedyClass_hyphen (k : cont) : forall s i c,
  greedyClass (not_chr hyphen) (fun st => m (Chr (is_chr hyphen)) st k) i s c =
  afterHyphen k i s c.
Proof.
  induction s as [|x s IH]; intros i c; simpl; [reflexivity|].
  unfold not_chr, is_chr. destruct (chr_eqb hyphen x); simpl; [reflexivity|].
  rewrite IH. now destruct (afterHyphen k (S i) s c).
Qed.

Lemma m_segment (k : cont) i s c :
  m segment (MState i s c) k = afterHyphen k i s c.
Proof.
  unfold segment. rewrite m_cat, m_star_class. apply greedyClass_hyphen.
Qed.

Lemma afterHyphen_scan (k : cont) (c : list (nat * jsstring)) : forall s i,
  (forall i' s', length s' < length s -> i < i' ->
     k (MState i' s' c) = scan true i' s' c) ->
  afterHyphen k i s c = scan false i s c.
Proof.
  induction s as [|x s IH]; intros i Hk; simpl; [reflexivity|].
  destruct (chr_eqb hyphen x).
  - apply Hk; simpl; lia.
  - apply IH. intros i' s' Hl Hi. apply Hk; simpl; lia.
Qed.

Lemma aheadDigit_eq i s c :
  aheadDigit (MState i s c) =
  match s with
  | x :: _ => if isDigit x then Some (MState i s c) else None
  | [] => None
  end.
Proof.
  unfold aheadDigit. destruct s as [|x t]; cbn [m rest pos caps];
    [reflexivity | now destruct (isDigit x)].
Qed.

Lemma loop_lazy_segments : forall n i s c, length s <= n ->
  loop false segment aheadDigit n (MState i s c) = scan true i s c.
Proof.
  induction n as [|n IH]; intros i s c Hn.
  - destruct s; simpl in Hn; [reflexivity | lia].
  - cbn [loop]. rewrite aheadDigit_eq, m_segment.
    destruct s as [|x t]; [reflexivity|]. cbn [scan andb].
    destruct (isDigit x); [reflexivity|]. cbn [afterHyphen pos].
    simpl in Hn. destruct (chr_eqb hyphen x).
    + replace (i <? S i) with true by (symmetry; apply Nat.ltb_lt; lia).
      apply IH. lia.
    + apply afterHyphen_scan. intros i' s' Hl Hi. cbn [pos].
      replace (i <? i') with true by (symmetry; apply Nat.ltb_lt; lia).
      apply IH. lia.
Qed.

Lemma m_reBaseName (s : jsstring) :
  exec reBaseName s =
  match scan false 0 s [] with
  | Some e => Some (MResult 0 (pos e) (rest e) (caps e))
  | None => None
  end.
Proof.
  unfold reBaseName. rewrite exec_bos.
  replace (m _ (MState 0 s []) Some) with (scan false 0 s []); [reflexivity|].
  symmetry. rewrite m_cat, m_star_class.
  rewrite (greedyClass_hyphen
             (fun st => m (Cat (Star false segment) (Ahead (Chr isDigit))) st Some)).
  apply afterHyphen_scan. intros i' s' _ _.
  rewrite m_cat, m_star. now apply loop_lazy_segments.
Qed.

Lemma scan_prefix : forall s b i c,
  match scan b i s c with
  | Some e => Some (firstn (pos e - i) s)
  | None => None
  end = baseNamePrefix b s.
Proof.
  induction s as [|x t IH]; intros b i c; simpl; [reflexivity|].
  destruct (b && isDigit x).
  - simpl. now rewrite Nat.sub_diag.
  - rewrite <- (IH (chr_eqb hyphen x) (S i) c).
    destruct (scan _ _ _ _) as [e|] eqn:E; [|reflexivity]. simpl.
    assert (Hpos : forall s b i c e, scan b i s c = Some e -> i <= pos e).
    { clear. induction s as [|x t IH]; intros b i c e; simpl; [discriminate|].
      destruct (b && isDigit x).
      - intros [= <-]. simpl. lia.
      - intros H. apply IH in H. lia. }
    apply Hpos in E. destruct (pos e - i) eqn:D; [lia|].
    simpl. now replace (pos e - S i) with n by lia.
Qed.

Lemma match0_reBaseName (s : jsstring) :
  match0 reBaseName s = baseNamePrefix false s.
Proof.
  unfold match0. rewrite m_reBaseName, <- (scan_prefix s false 0 []).
  destruct (scan false 0 s []); simpl; [|reflexivity].
  now rewrite Nat.sub_0_r.
Qed.

(** *** [/^([^:]+):\s*(.+)$/] *)

Lemma firstn_takeWhile (p : codeUnit -> bool) (s : jsstring) :
  firstn (length (takeWhile p s)) s = takeWhile p s.
Proof. induction s as [|x s IH]; simpl; [|destruct (p x); simpl]; congruence. Qed.

Lemma takeWhile_dropWhile (p : codeUnit -> bool) (s : jsstring) :
  takeWhile p s ++ dropWhile p s = s.
Proof. induction s as [|x s IH]; simpl; [|destruct (p x); simpl]; congruence. Qed.

Lemma dropWhile_head (p : codeUnit -> bool) (s : jsstring) x t :
  dropWhile p s = x :: t -> p x = false.
Proof.
  induction s as [|y s IH]; simpl; [discriminate|].
  destruct (p y) eqn:E; [exact IH | congruence].
Qed.

Lemma takeWhile_all (p : codeUnit -> bool) (s : jsstring) :
  forallb p (takeWhile p s) = true.
Proof.
  induction s as [|x s IH]; simpl; [reflexivity|].
  destruct (p x) eqn:E; simpl; [now rewrite E|reflexivity].
Qed.

Lemma valueEnd_eq i s c' :
  valueEnd (MState i s c') =
  match s with
  | [] => None
  | _ :: _ =>
      if forallb isDot s
      then Some (MState (i + length s) [] ((2, s) :: c'))
      else None
  end.
Proof.
  unfold valueEnd, Plus. destruct s as [|x t]; [reflexivity|].
  rewrite m_cat. cbn [m rest pos caps forallb].
  destruct (isDot x); [|reflexivity]. cbn [andb].
  change ((fix loop (n : nat) (st : mstate) {struct n} : option mstate := _)
            (length t) (MState (S i) t c'))
    with (m (Star true (Chr isDot)) (MState (S i) t c')
            (fun st' => m Eos (MState (pos st') (rest st')
               ((2, firstn (pos st' - i) (x :: t)) :: caps st')) Some)).
  rewrite m_star_class, greedyClass_end by reflexivity.
  destruct (forallb isDot t); [|reflexivity].
  cbn [m rest pos caps length]. rewrite Nat.add_succ_r. cbn [plus].
  replace (S (i + length t) - i) with (S (length t)) by lia.
  cbn [firstn]. now rewrite firstn_all.
Qed.

Lemma greedyClass_value : forall s i c',
  greedyClass isWhiteSpace valueEnd i s c' =
  match entryValue s with
  | Some v => Some (MState (i + length s) [] ((2, v) :: c'))
  | None => None
  end.
Proof.
  induction s as [|x t IH]; intros i c'; [reflexivity|].
  cbn [greedyClass entryValue]. rewrite IH, valueEnd_eq.
  cbn [length]. rewrite Nat.add_succ_r. cbn [plus].
  destruct (isWhiteSpace x).
  - destruct (entryValue t); [reflexivity|].
    now destruct (forallb isDot (x :: t)).
  - now destruct (forallb isDot (x :: t)).
Qed.

Lemma m_reEntry (line : jsstring) :
  exec reEntry line =
  match entryOf line with
  | Some (k, v) => Some (MResult 0 (length line) [] [(2, v); (1, k)])
  | None => None
  end.
Proof.
  unfold reEntry. rewrite exec_bos. unfold entryOf, Plus.
  destruct line as [|x t]; [reflexivity|].
  cbn [m rest pos caps takeWhile dropWhile].
  destruct (not_chr colon x) eqn:Hx; [|reflexivity].
  change ((fix loop (n : nat) (st : mstate) {struct n} : option mstate := _)
            (length t) (MState 1 t []))
    with (m (Star true (Chr (not_chr colon))) (MState 1 t [])
            (fun st' =>
               m (Cat (Chr (is_chr colon))
                    (Cat (Star true (Chr isWhiteSpace))
                       (Cat (Group 2 (Plus (Chr isDot))) Eos)))
                 (MState (pos st') (rest st')
                    ((1, firstn (pos st' - 0) (x :: t)) :: caps st')) Some)).
  rewrite m_star_class, greedyClass_commit.
  2:{ intros i y u c Hy. rewrite m_cat. cbn [m rest pos caps].
      unfold not_chr in Hy. unfold is_chr.
      now destruct (chr_eqb colon y). }
  cbn [rest pos caps]. rewrite m_cat, m_chr.
  destruct (dropWhile (not_chr colon) t) as [|y u] eqn:Hd; [reflexivity|].
  apply dropWhile_head in Hd as Hy. unfold not_chr in Hy. unfold is_chr.
  destruct (chr_eqb colon y); [|discriminate].
  rewrite m_cat, m_star_class.
  change (fun st' : mstate => m (Cat (Group 2 (Plus (Chr isDot))) Eos) st' Some)
    with valueEnd.
  rewrite greedyClass_value.
  rewrite Nat.sub_0_r. cbn [plus firstn]. rewrite firstn_takeWhile.
  destruct (entryValue u) as [v|]; [|reflexivity]. cbn [option_map pos rest caps].
  do 2 f_equal. rewrite <- (takeWhile_dropWhile (not_chr colon) t) at 2.
  rewrite Hd. cbn [length]. rewrite length_app. simpl. lia.
Qed.

Lemma parseLine_entryOf (line : jsstring) : parseLine line = entryOf line.
Proof.
  unfold parseLine. rewrite m_reEntry.
  now destruct (entryOf line) as [[k v]|].
Qed.

End RegexFacts.

(* ------------------------------------------------------------------ *)
(** ** Objects: lookups after writes, and the invariant of own-key order *)

Module ObjFacts.

Ltac case_eqb a b :=
  let E := fresh "E" in
  destruct (str_eqb a b) eqn:E;
  [apply str_eqb_eq in E; try subst | apply str_eqb_neq in E].

Lemma hasOwn_cons k k' v o :
  hasOwn k ((k', v) :: o) = str_eqb k k' || hasOwn k o.
Proof. unfold hasOwn. simpl. now destruct (str_eqb k k'). Qed.

Lemma hasOwn_In k o : hasOwn k o = true <-> In k (keys o).
Proof.
  induction o as [|[k' v] o IH]; simpl.
  - unfold hasOwn. simpl. split; [discriminate | contradiction].
  - rewrite hasOwn_cons, orb_true_iff, IH, str_eqb_eq. intuition congruence.
Qed.

Lemma hasOwn_false k o : hasOwn k o = false <-> ~ In k (keys o).
Proof.
  rewrite <- hasOwn_In. destruct (hasOwn k o); intuition congruence.
Qed.

Lemma getOwn_None k o : getOwn k o = None <-> hasOwn k o = false.
Proof. unfold hasOwn. destruct (getOwn k o); intuition congruence. Qed.

Lemma getOwn_In k v o : getOwn k o = Some v -> In (k, v) o.
Proof.
  induction o as [|[k' v'] o IH]; simpl; [discriminate|].
  case_eqb k k'.
  - intros [= ->]. now left.
  - intros H. right. now apply IH.
Qed.

Lemma In_getOwn k v o : NoDup (keys o) -> In (k, v) o -> getOwn k o = Some v.
Proof.
  induction o as [|[k' v'] o IH]; simpl; [contradiction|].
  intros Hnd [H|H].
  - injection H as -> ->. now rewrite str_eqb_refl.
  - inversion Hnd as [|? ? Hk Hnd']; subst. case_eqb k k'.
    + exfalso. apply Hk. change k' with (fst (k', v)). now apply in_map.
    + now apply IH.
Qed.

Lemma getOwn_overwrite k v o k' :
  hasOwn k o = true ->
  getOwn k' (overwrite k v o) = if str_eqb k' k then Some v else getOwn k' o.
Proof.
  induction o as [|[k1 v1] o IH]; simpl.
  - unfold hasOwn. simpl. discriminate.
  - rewrite hasOwn_cons. case_eqb k k1; simpl.
    + intros _. now case_eqb k' k1.
    + intros H. rewrite IH by exact H. case_eqb k' k1; [|reflexivity].
      case_eqb k1 k; [contradiction | reflexivity].
Qed.

Lemma getOwn_create k v o k' :
  hasOwn k o = false ->
  getOwn k' (create k v o) = if str_eqb k' k then Some v else getOwn k' o.
Proof.
  induction o as [|[k1 v1] o IH]; simpl.
  - intros _. reflexivity.
  - rewrite hasOwn_cons. intros H. apply orb_false_iff in H as [H1 H2].
    destruct (precedes k k1); simpl; [reflexivity|].
    rewrite IH by exact H2. case_eqb k' k1; [|reflexivity].
    now rewrite str_eqb_sym, H1.
Qed.

Lemma getOwn_set k v o k' :
  getOwn k' (set k v o) =
  if str_eqb k proto then getOwn k' o
  else if str_eqb k' k then Some v else getOwn k' o.
Proof.
  unfold set. destruct (str_eqb k proto); [reflexivity|].
  destruct (hasOwn k o) eqn:H;
    [now apply getOwn_overwrite | now apply getOwn_create].
Qed.

Lemma getOwn_delete k o k' :
  NoDup (keys o) ->
  getOwn k' (delete k o) = if str_eqb k' k then None else getOwn k' o.
Proof.
  induction o as [|[k1 v1] o IH]; simpl; intros Hnd.
  - now destruct (str_eqb k' k).
  - inversion Hnd as [|? ? Hk Hnd']; subst. case_eqb k k1; simpl.
    + case_eqb k' k1; [|reflexivity]. apply getOwn_None, hasOwn_false, Hk.
    + rewrite IH by exact Hnd'. case_eqb k' k1; [|reflexivity].
      case_eqb k1 k; [congruence | reflexivity].
Qed.

Lemma assignAll_app l1 l2 o :
  assignAll (l1 ++ l2) o = assignAll l2 (assignAll l1 o).
Proof. apply fold_left_app. Qed.

Lemma getOwn_assignAll k : str_eqb k proto = false ->
  forall l o,
    getOwn k (assignAll l o) =
    match find (fun e => str_eqb k (fst e)) (rev l) with
    | Some e => Some (snd e)
    | None => getOwn k o
    end.
Proof.
  intros Hk. induction l as [|[k1 v1] l IH] using rev_ind; intros o.
  - reflexivity.
  - rewrite assignAll_app, rev_app_distr. simpl.
    rewrite getOwn_set. case_eqb k k1.
    + now rewrite Hk.
    + destruct (str_eqb k1 proto); apply IH.
Qed.

(** *** The invariant *)

Lemma wfKeys_unfold k ks :
  wfKeys (k :: ks) =
  negb (str_eqb k proto)
  && forallb (fun k' => negb (str_eqb k' k) && negb (precedes k' k)) ks
  && wfKeys ks.
Proof. reflexivity. Qed.


Lemma wfKeys_cons k ks :
  wfKeys (k :: ks) = true <->
  k <> proto /\
  (forall k', In k' ks -> k' <> k /\ precedes k' k = false) /\
  wfKeys ks = true.
Proof.
  rewrite wfKeys_unfold, !andb_true_iff, negb_true_iff, str_eqb_neq, forallb_forall.
  split.
  - intros [[H1 H2] H3]. split; [exact H1|]. split; [|exact H3].
    intros k' Hk'. apply H2 in Hk'. apply andb_true_iff in Hk' as [Ha Hb].
    split; [now apply negb_true_iff, str_eqb_neq in Ha
           | now apply negb_true_iff in Hb].
  - intros (H1 & H2 & H3). repeat split; try assumption.
    intros k' Hk'. apply H2 in Hk' as [Ha Hb].
    apply andb_true_iff. split; apply negb_true_iff; [now apply str_eqb_neq | exact Hb].
Qed.

Lemma wf_empty : wf empty.
Proof. reflexivity. Qed.

Lemma wfKeys_NoDup ks : wfKeys ks = true -> NoDup ks.
Proof.
  induction ks as [|k ks IH]; intros H; constructor;
    apply wfKeys_cons in H as (_ & H2 & H3).
  - intros Hin. now apply H2 in Hin as [Hin _].
  - now apply IH.
Qed.

Lemma wf_NoDup o : wf o -> NoDup (keys o).
Proof. apply wfKeys_NoDup. Qed.

Lemma wfKeys_proto ks : wfKeys ks = true -> ~ In proto ks.
Proof.
  induction ks as [|k ks IH]; intros H; [easy|].
  apply wfKeys_cons in H as (H1 & _ & H3). simpl. intros [E|E];
    [congruence | now apply IH].
Qed.

Lemma wf_proto o : wf o -> hasOwn proto o = false.
Proof. intros H. apply hasOwn_false. now apply wfKeys_proto. Qed.

Lemma wf_tail e o : wf (e :: o) -> wf o.
Proof. unfold wf. simpl. intros H. now apply wfKeys_cons in H. Qed.

Lemma precedes_asym k k' : precedes k k' = true -> precedes k' k = false.
Proof.
  unfold precedes. destruct (arrayIndex k), (arrayIndex k'); try easy.
  rewrite N.ltb_lt, N.ltb_ge. lia.
Qed.

Lemma precedes_between k k1 k' :
  precedes k k1 = true -> precedes k' k1 = false -> precedes k' k = false.
Proof.
  unfold precedes.
  destruct (arrayIndex k), (arrayIndex k1), (arrayIndex k'); try easy.
  rewrite N.ltb_lt, !N.ltb_ge. lia.
Qed.

Lemma keys_overwrite k v o : keys (overwrite k v o) = keys o.
Proof.
  induction o as [|[k1 v1] o IH]; simpl; [reflexivity|].
  case_eqb k k1; simpl; [reflexivity | now rewrite IH].
Qed.

Lemma keys_create_In k v o k' :
  In k' (keys (create k v o)) <-> k' = k \/ In k' (keys o).
Proof.
  induction o as [|[k1 v1] o IH]; simpl.
  - intuition congruence.
  - destruct (precedes k k1); simpl; [intuition congruence|].
    rewrite IH. intuition congruence.
Qed.

Lemma wf_create k v o :
  k <> proto -> hasOwn k o = false -> wf o -> wf (create k v o).
Proof.
  intros Hp. unfold wf. induction o as [|[k1 v1] o IH]; simpl; intros Hk Hwf.
  - apply wfKeys_cons. now repeat split.
  - rewrite hasOwn_cons in Hk. apply orb_false_iff in Hk as [Hk1 Hk2].
    apply str_eqb_neq in Hk1.
    apply wfKeys_cons in Hwf as Hwf'. destruct Hwf' as (H1 & H2 & H3).
    destruct (precedes k k1) eqn:Hpre; simpl.
    + apply wfKeys_cons. split; [exact Hp|]. split; [|exact Hwf].
      intros k' Hk'. split.
      * intros ->. destruct Hk' as [E|Hk']; [congruence|].
        apply hasOwn_false in Hk2. contradiction.
      * destruct Hk' as [<-|Hk']; [now apply precedes_asym|].
        apply H2 in Hk' as [_ Hk']. now apply precedes_between with k1.
    + apply wfKeys_cons. split; [exact H1|]. split; [|now apply IH].
      intros k' Hk'. apply keys_create_In in Hk' as [->|Hk'];
        [now split | now apply H2].
Qed.

Lemma wf_set k v o : wf o -> wf (set k v o).
Proof.
  intros Hwf. unfold set. case_eqb k proto; [exact Hwf|].
  destruct (hasOwn k o) eqn:Hk.
  - unfold wf. now rewrite keys_overwrite.
  - now apply wf_create.
Qed.

Lemma keys_delete_In k o k' : In k' (keys (delete k o)) -> In k' (keys o).
Proof.
  induction o as [|[k1 v1] o IH]; simpl; [easy|].
  case_eqb k k1; simpl; intuition.
Qed.

Lemma wf_delete k o : wf o -> wf (delete k o).
Proof.
  unfold wf. induction o as [|[k1 v1] o IH]; simpl; intros Hwf; [reflexivity|].
  apply wfKeys_cons in Hwf as Hwf'. destruct Hwf' as (H1 & H2 & H3).
  case_eqb k k1; [exact H3|]. simpl.
  apply wfKeys_cons. split; [exact H1|]. split; [|now apply IH].
  intros k' Hk'. apply keys_delete_In in Hk'. now apply H2.
Qed.

Lemma wf_assignAll l : forall o, wf o -> wf (assignAll l o).
Proof.
  induction l as [|e l IH]; intros o H; [exact H|].
  simpl. apply IH. now apply wf_set.
Qed.

(** A key that none of the present keys follows is created at the end. *)
Lemma create_last k v o :
  (forall k', In k' (keys o) -> precedes k k' = false) ->
  create k v o = o ++ [(k, v)].
Proof.
  induction o as [|[k1 v1] o IH]; simpl; intros H; [reflexivity|].
  rewrite (H k1) by now left. f_equal. apply IH. intros k' Hk'. apply H. now right.
Qed.

Lemma precedes_no_index k k' : arrayIndex k = None -> precedes k k' = false.
Proof. unfold precedes. now intros ->. Qed.

Lemma wfKeys_app_last ks k :
  wfKeys (ks ++ [k]) = true ->
  ~ In k ks /\ k <> proto /\ forall k', In k' ks -> precedes k k' = false.
Proof.
  induction ks as [|k1 ks IH]; simpl app; intros H.
  - apply wfKeys_cons in H as (H1 & _ & _). now repeat split.
  - apply wfKeys_cons in H as (H1 & H2 & H3). apply IH in H3 as (Ha & Hb & Hc).
    assert (Hk : In k (ks ++ [k])) by (apply in_or_app; right; now left).
    apply H2 in Hk as [Hk1 Hk2].
    repeat split; [| exact Hb |].
    + simpl. intros [E|E]; [congruence | contradiction].
    + intros k' [<-|Hk']; [exact Hk2 | now apply Hc].
Qed.

Lemma wfKeys_app_l ks1 ks2 : wfKeys (ks1 ++ ks2) = true -> wfKeys ks1 = true.
Proof.
  induction ks1 as [|k ks1 IH]; simpl app; intros H; [reflexivity|].
  apply wfKeys_cons in H as (H1 & H2 & H3).
  apply wfKeys_cons. split; [exact H1|]. split; [|now apply IH].
  intros k' Hk'. apply H2, in_or_app. now left.
Qed.

(** Assigning the entries of an object, in their order, rebuilds it. *)
Lemma assignAll_wf : forall l o, wf (o ++ l) -> assignAll l o = o ++ l.
Proof.
  induction l as [|[k v] l IH]; intros o H; [now rewrite app_nil_r|].
  simpl. replace (o ++ (k, v) :: l) with ((o ++ [(k, v)]) ++ l) in *
    by now rewrite <- app_assoc.
  assert (H' : wfKeys (keys o ++ [k]) = true).
  { unfold wf, keys in H. rewrite !map_app in H. now apply wfKeys_app_l in H. }
  apply wfKeys_app_last in H' as (Ha & Hb & Hc).
  unfold set. apply str_eqb_neq in Hb. rewrite Hb.
  apply hasOwn_false in Ha. rewrite Ha.
  rewrite create_last by exact Hc. now apply IH.
Qed.

Lemma assign_empty_wf o : wf o -> assign empty o = o.
Proof. intros H. now apply (assignAll_wf o []). Qed.

(** *** [Object.assign] and the deletion loop of [updateEntries] *)

Lemma assign_assignAll target source : assign target source = assignAll source target.
Proof. reflexivity. Qed.

Lemma getOwn_assign k : forall source target,
  NoDup (keys source) -> ~ In proto (keys source) ->
  getOwn k (assign target source) =
  match getOwn k source with
  | Some v => Some v
  | None => getOwn k target
  end.
Proof.
  induction source as [|[k1 v1] l IH]; intros o Hnd Hp; [reflexivity|].
  change (assign o ((k1, v1) :: l)) with (assign (set k1 v1 o) l).
  inversion Hnd as [|? ? Hk1 Hnd']; subst.
  rewrite IH; [| exact Hnd' | intros H; apply Hp; now right].
  rewrite getOwn_set. simpl.
  assert (E : str_eqb k1 proto = false).
  { apply str_eqb_neq. intros ->. apply Hp. now left. }
  rewrite E. case_eqb k k1; [|reflexivity].
  apply hasOwn_false, getOwn_None in Hk1. now rewrite Hk1.
Qed.

Lemma updateEntries_prune existing new :
  updateEntries existing new = assign (prune new existing) new.
Proof. reflexivity. Qed.

Lemma delete_app_r k o1 o2 :
  hasOwn k o1 = false -> delete k (o1 ++ o2) = o1 ++ delete k o2.
Proof.
  induction o1 as [|[k1 v1] o1 IH]; simpl; [reflexivity|].
  rewrite hasOwn_cons. intros H. apply orb_false_iff in H as [H1 H2].
  rewrite H1. f_equal. now apply IH.
Qed.

Lemma prune_filter_gen new : forall o2 o1,
  NoDup (keys (o1 ++ o2)) ->
  fold_left (fun existing key =>
               if negb (keep new key) then delete key existing else existing)
    (keys o2) (o1 ++ o2)
  = o1 ++ filter (fun e => keep new (fst e)) o2.
Proof.
  induction o2 as [|[k v] o2 IH]; intros o1 Hnd; [reflexivity|].
  simpl. assert (Hk : hasOwn k o1 = false).
  { apply hasOwn_false. unfold keys in Hnd. rewrite map_app in Hnd. simpl in Hnd.
    apply NoDup_remove_2 in Hnd. intros H. apply Hnd, in_or_app. now left. }
  destruct (keep new k) eqn:Hkeep; simpl.
  - replace (o1 ++ (k, v) :: o2) with ((o1 ++ [(k, v)]) ++ o2) in *
      by now rewrite <- app_assoc.
    rewrite IH by exact Hnd. now rewrite <- app_assoc.
  - rewrite delete_app_r by exact Hk. simpl. rewrite str_eqb_refl.
    apply IH. unfold keys in *. rewrite map_app in *. simpl in Hnd.
    now apply NoDup_remove_1 in Hnd.
Qed.

Lemma prune_filter new o :
  NoDup (keys o) -> prune new o = filter (fun e => keep new (fst e)) o.
Proof. intros H. exact (prune_filter_gen new o [] H). Qed.

Lemma getOwn_filter (P : jsstring -> bool) k o :
  getOwn k (filter (fun e => P (fst e)) o) = if P k then getOwn k o else None.
Proof.
  induction o as [|[k1 v1] o IH]; simpl; [now destruct (P k)|].
  destruct (P k1) eqn:H1; simpl; case_eqb k k1.
  - now rewrite H1.
  - exact IH.
  - now rewrite IH, H1.
  - exact IH.
Qed.

Lemma keys_filter (P : jsstring -> bool) o :
  keys (filter (fun e => P (fst e)) o) = filter P (keys o).
Proof.
  induction o as [|[k v] o IH]; simpl; [reflexivity|].
  destruct (P k); simpl; now rewrite IH.
Qed.

Lemma NoDup_filter_keys (P : jsstring -> bool) o :
  NoDup (keys o) -> NoDup (keys (filter (fun e => P (fst e)) o)).
Proof. rewrite keys_filter. apply NoDup_filter. Qed.

Lemma wf_filter (P : jsstring -> bool) o :
  wf o -> wf (filter (fun e => P (fst e)) o).
Proof.
  unfold wf. induction o as [|[k v] o IH]; intros H; [reflexivity|].
  simpl in H. apply wfKeys_cons in H as H'. destruct H' as (H1 & H2 & H3).
  simpl. destruct (P k); simpl; [|now apply IH].
  apply wfKeys_cons. split; [exact H1|]. split; [|now apply IH].
  intros k' Hk'. rewrite keys_filter in Hk'.
  apply filter_In in Hk' as [Hk' _]. now apply H2.
Qed.

(** The lookups of the result of [updateEntries]. *)
Lemma getOwn_updateEntries existing new k :
  wf existing -> wf new ->
  getOwn k (updateEntries existing new) =
  match getOwn k new with
  | Some v => Some v
  | None => if inherited k then getOwn k existing else None
  end.
Proof.
  intros He Hn. rewrite updateEntries_prune, getOwn_assign;
    [| now apply wf_NoDup | now apply wfKeys_proto].
  destruct (getOwn k new) eqn:E; [reflexivity|].
  rewrite prune_filter, getOwn_filter by now apply wf_NoDup.
  unfold keep, get. rewrite E. now destruct (inherited k).
Qed.

Lemma wf_updateEntries existing new :
  wf existing -> wf (updateEntries existing new).
Proof.
  intros He. rewrite updateEntries_prune, assign_assignAll.
  apply wf_assignAll. rewrite prune_filter by now apply wf_NoDup.
  now apply wf_filter.
Qed.

(** *** The order of the keys after [Object.assign] *)

Lemma upd_skip k v source t :
  hasOwn k t = false -> map (upd ((k, v) :: source)) t = map (upd source) t.
Proof.
  intros H. apply map_ext_in. intros [k1 v1] Hin. unfold upd. simpl.
  case_eqb k1 k; [|reflexivity].
  apply hasOwn_false in H. exfalso. apply H.
  change k with (fst (k, v1)). now apply in_map.
Qed.

Lemma upd_overwrite k v source : hasOwn k source = false -> forall t,
  NoDup (keys t) -> hasOwn k t = true ->
  map (upd source) (overwrite k v t) = map (upd ((k, v) :: source)) t.
Proof.
  intros Hs. induction t as [|[k1 v1] t IH]; simpl; intros Hnd Hk.
  - discriminate.
  - inversion Hnd as [|? ? Hk1 Hnd']; subst.
    rewrite hasOwn_cons in Hk. case_eqb k k1; simpl.
    + rewrite upd_skip by now apply hasOwn_false. f_equal.
      unfold upd. simpl. rewrite str_eqb_refl.
      apply getOwn_None in Hs. now rewrite Hs.
    + rewrite IH by assumption. f_equal. unfold upd. simpl.
      case_eqb k1 k; [congruence | reflexivity].
Qed.

Lemma hasOwn_overwrite k v t k' : hasOwn k' (overwrite k v t) = hasOwn k' t.
Proof.
  destruct (hasOwn k' t) eqn:E.
  - apply hasOwn_In. rewrite keys_overwrite. now apply hasOwn_In.
  - apply hasOwn_false. rewrite keys_overwrite. now apply hasOwn_false.
Qed.

Lemma hasOwn_app k o1 o2 : hasOwn k (o1 ++ o2) = hasOwn k o1 || hasOwn k o2.
Proof.
  induction o1 as [|[k1 v1] o1 IH]; simpl; [reflexivity|].
  rewrite !hasOwn_cons, IH. now rewrite orb_assoc.
Qed.

Lemma assign_order : forall source target,
  NoDup (keys source) -> ~ In proto (keys source) ->
  (forall k, In k (keys source) -> arrayIndex k = None) ->
  NoDup (keys target) ->
  assign target source =
  map (upd source) target
  ++ filter (fun e => negb (hasOwn (fst e) target)) source.
Proof.
  induction source as [|[k v] l IH]; intros t Hnd Hp Hidx Ht.
  - simpl. rewrite app_nil_r. symmetry. rewrite <- (map_id t) at 2.
    apply map_ext. now intros [k v].
  - change (assign t ((k, v) :: l)) with (assign (set k v t) l).
    inversion Hnd as [|? ? Hk Hnd']; subst.
    assert (Hkp : str_eqb k proto = false).
    { apply str_eqb_neq. intros ->. apply Hp. now left. }
    assert (Hkl : hasOwn k l = false) by now apply hasOwn_false.
    assert (Hp' : ~ In proto (keys l)) by (intros H; apply Hp; now right).
    assert (Hidx' : forall k', In k' (keys l) -> arrayIndex k' = None)
      by (intros k' H; apply Hidx; now right).
    unfold set. rewrite Hkp. simpl filter. destruct (hasOwn k t) eqn:Hkt; simpl.
    + rewrite IH; [| assumption.. | now rewrite keys_overwrite].
      rewrite upd_overwrite by assumption. f_equal.
      apply filter_ext. intros [k1 v1]. simpl. now rewrite hasOwn_overwrite.
    + rewrite create_last
        by (intros k' _; apply precedes_no_index, Hidx; now left).
      rewrite IH; [| assumption.. |].
      * rewrite map_app, upd_skip by exact Hkt. simpl. rewrite <- app_assoc.
        f_equal. simpl. f_equal.
        -- unfold upd. simpl. apply getOwn_None in Hkl. now rewrite Hkl.
        -- apply filter_ext_in. intros [k1 v1] Hin. simpl.
           rewrite hasOwn_app, hasOwn_cons. simpl.
           case_eqb k1 k; [|now rewrite !orb_false_r].
           exfalso. apply Hk. change k with (fst (k, v1)). now apply in_map.
      * unfold keys. rewrite map_app. simpl. apply NoDup_app; [exact Ht | | ].
        -- constructor; [easy | constructor].
        -- intros k' H1 [<-|[]]. apply hasOwn_false in Hkt. contradiction.
Qed.

End ObjFacts.

(* ------------------------------------------------------------------ *)
(** ** Strings: suffixes, extensions, lines *)

Module StringFacts.
Import RegexFacts.

Lemma endsWith_app a suffix : endsWith suffix (a ++ suffix) = true.
Proof.
  unfold endsWith. rewrite length_app.
  replace (length a + length suffix - length suffix) with (length a) by lia.
  rewrite skipn_length_app, str_eqb_refl, andb_true_r.
  apply Nat.leb_le. lia.
Qed.

Lemma endsWith_inv suffix s :
  endsWith suffix s = true ->
  s = firstn (length s - length suffix) s ++ suffix.
Proof.
  unfold endsWith. intros H. apply andb_true_iff in H as [_ H].
  apply str_eqb_eq in H. symmetry. rewrite <- H at 2. apply firstn_skipn.
Qed.

Lemma dropSuffix_app a suffix : dropSuffix suffix (a ++ suffix) = a.
Proof.
  unfold dropSuffix. rewrite endsWith_app, length_app.
  replace (length a + length suffix - length suffix) with (length a) by lia.
  apply firstn_length_app.
Qed.

Lemma dropSuffix_other suffix s :
  (forall a, s <> a ++ suffix) -> dropSuffix suffix s = s.
Proof.
  intros H. unfold dropSuffix. destruct (endsWith suffix s) eqn:E; [|reflexivity].
  apply endsWith_inv in E. now apply H in E.
Qed.

Lemma cutTail_app_suffix x suffix : forall a,
  cutTail (fun t => str_eqb t (x :: suffix)) (a ++ x :: suffix) = a.
Proof.
  induction a as [|y a IH]; simpl.
  - now rewrite chr_eqb_refl, str_eqb_refl.
  - rewrite IH. destruct (chr_eqb y x && _) eqn:E; [|reflexivity].
    apply andb_true_iff in E as [_ E]. apply str_eqb_eq in E.
    apply (f_equal (@length codeUnit)) in E. rewrite length_app in E. simpl in E. lia.
Qed.

Lemma cutTail_other (tm : jsstring -> bool) : forall s,
  (forall a b, s = a ++ b -> tm b = false) -> cutTail tm s = s.
Proof.
  induction s as [|y s IH]; intros H; simpl; [reflexivity|].
  rewrite (H [] (y :: s)) by reflexivity. f_equal. apply IH.
  intros a b ->. now apply (H (y :: a) b).
Qed.

Lemma cutTail_cons (tm : jsstring -> bool) x s :
  cutTail tm (x :: s) = if tm (x :: s) then [] else x :: cutTail tm s.
Proof. reflexivity. Qed.

(** Cutting the tail that equals [suffix] is [dropSuffix]. *)
Lemma cutTail_dropSuffix x suffix s :
  cutTail (fun t => str_eqb t (x :: suffix)) s = dropSuffix (x :: suffix) s.
Proof.
  destruct (endsWith (x :: suffix) s) eqn:E.
  - apply endsWith_inv in E. rewrite E at 1 2.
    now rewrite cutTail_app_suffix, dropSuffix_app.
  - unfold dropSuffix. rewrite E. apply cutTail_other. intros a b ->.
    apply str_eqb_neq. intros ->. now rewrite endsWith_app in E.
Qed.

Lemma extension_None s :
  extension s = None <-> forallb (not_chr period) s = true.
Proof.
  induction s as [|x s IH]; simpl; [easy|].
  unfold not_chr at 1. destruct (extension s).
  - split; [discriminate|]. intros H. apply andb_true_iff in H as [_ H].
    apply IH in H. discriminate.
  - destruct (chr_eqb period x); simpl; [easy|]. split; [intros _|reflexivity].
    now apply IH.
Qed.

Lemma extension_Some s e :
  extension s = Some e ->
  exists b, s = b ++ period :: e /\ forallb (not_chr period) e = true.
Proof.
  revert e. induction s as [|x s IH]; simpl; intros e; [discriminate|].
  destruct (extension s) as [e'|] eqn:E.
  - intros [= ->]. destruct (IH e eq_refl) as (b & -> & Hb).
    now exists (x :: b).
  - destruct (chr_eqb period x) eqn:Ex; [|discriminate]. intros [= ->].
    apply chr_eqb_eq in Ex. subst x. exists []. split; [reflexivity|].
    now apply extension_None.
Qed.

Lemma extension_app b e :
  forallb (not_chr period) e = true -> extension (b ++ period :: e) = Some e.
Proof.
  intros He. induction b as [|x b IH]; simpl.
  - apply extension_None in He. now rewrite He.
  - now rewrite IH.
Qed.

Lemma extensionChar_split e :
  forallb extensionChar e =
  forallb (not_chr period) e && negb (existsb (chr_eqb slash) e).
Proof.
  induction e as [|x e IH]; simpl; [reflexivity|]. rewrite IH.
  generalize (forallb (not_chr period) e) (existsb (chr_eqb slash) e).
  intros A B. unfold extensionChar, not_chr.
  rewrite (chr_eqb_sym x slash), (chr_eqb_sym x period).
  destruct (chr_eqb slash x), (chr_eqb period x), A, B; reflexivity.
Qed.

Lemma isExtension_period s :
  isExtension s = true ->
  exists e, s = period :: e /\ forallb (not_chr period) e = true.
Proof.
  destruct s as [|x [|y t]]; simpl; try discriminate.
  intros H. apply andb_true_iff in H as [H1 H2]. apply chr_eqb_eq in H1. subst x.
  exists (y :: t). split; [reflexivity|].
  change (forallb extensionChar (y :: t) = true) in H2.
  rewrite extensionChar_split in H2. now apply andb_true_iff in H2.
Qed.

Lemma not_period_app a b :
  forallb (not_chr period) (a ++ period :: b) = false.
Proof.
  rewrite forallb_app. cbn [forallb].
  replace (not_chr period period) with false
    by (unfold not_chr; now rewrite chr_eqb_refl).
  apply andb_false_r.
Qed.

(** Cutting the tail that is an extension is [dropExtension]. *)
Lemma cutTail_dropExtension s : cutTail isExtension s = dropExtension s.
Proof.
  unfold dropExtension. destruct (extension s) as [e|] eqn:E.
  - apply extension_Some in E as (b & -> & He).
    assert (Hb : forall b',
      cutTail isExtension (b' ++ period :: e) =
      b' ++ (if isExtension (period :: e) then [] else period :: e)).
    { induction b' as [|x b' IH].
      - cbn [app]. rewrite cutTail_cons.
        destruct (isExtension (period :: e)) eqn:Ei; [reflexivity|].
        f_equal. apply cutTail_other. intros a c ->.
        destruct (isExtension c) eqn:Ec; [|reflexivity].
        apply isExtension_period in Ec as (e' & -> & _).
        now rewrite not_period_app in He.
      - cbn [app]. rewrite cutTail_cons, IH.
        destruct (isExtension (x :: b' ++ period :: e)) eqn:Ei; [|reflexivity].
        apply isExtension_period in Ei as (e' & [= -> <-] & He').
        now rewrite not_period_app in He'. }
    rewrite Hb. destruct e as [|y e]; [reflexivity|].
    change (isExtension (period :: y :: e))
      with (chr_eqb period period && forallb extensionChar (y :: e)).
    rewrite chr_eqb_refl, extensionChar_split, He.
    destruct (existsb (chr_eqb slash) (y :: e)); cbn [andb negb].
    + reflexivity.
    + rewrite app_nil_r, length_app. cbn [length].
      replace (length b + S (S (length e)) - S (S (length e))) with (length b) by lia.
      now rewrite firstn_length_app.
  - apply cutTail_other. intros a c ->.
    destruct (isExtension c) eqn:Ec; [|reflexivity].
    apply isExtension_period in Ec as (e' & -> & _).
    apply extension_None in E. now rewrite not_period_app in E.
Qed.

End StringFacts.

(* ------------------------------------------------------------------ *)
(** ** The key of a file name, without patterns *)

Module KeyFacts.
Import RegexFacts StringFacts.

Lemma replace_reExtension s : replace_empty reExtension s = dropExtension s.
Proof.
  rewrite (replace_tail reExtension isExtension m_reExtension).
  apply cutTail_dropExtension.
Qed.

Lemma replace_reThisismy s :
  replace_empty reThisismy s = dropSuffix (str ".thisismy") s.
Proof.
  rewrite (replace_tail reThisismy (fun t => str_eqb t (str ".thisismy"))).
  - apply (cutTail_dropSuffix period (str "thisismy")).
  - intros i t. apply m_lit_eos.
Qed.

Lemma replace_reTrailingHyphen s :
  replace_empty reTrailingHyphen s = dropSuffix [hyphen] s.
Proof.
  rewrite (replace_tail reTrailingHyphen (fun t => str_eqb t [hyphen])).
  - apply (cutTail_dropSuffix hyphen []).
  - intros i t. apply (m_lit_eos [] hyphen).
Qed.

(** [stripName] is [filenameNoExtNoSuffix]. *)
Lemma stripName_source filename :
  replace_empty reThisismy (replace_empty reExtension filename)
  = stripName filename.
Proof. now rewrite replace_reThisismy, replace_reExtension. Qed.

(** [deriveKey] without patterns. *)
Lemma deriveKey_eq filename :
  deriveKey filename =
  toLowerCase
    (dropSuffix [hyphen]
       match baseNamePrefix false (stripName filename) with
       | Some m0 => m0
       | None => stripName filename
       end).
Proof.
  unfold deriveKey.
  now rewrite replace_reTrailingHyphen, match0_reBaseName,
    replace_reThisismy, replace_reExtension.
Qed.

Lemma hyphenDigit_cons x t :
  hyphenDigit (x :: t) = (chr_eqb hyphen x && headDigit t) || hyphenDigit t.
Proof. reflexivity. Qed.

Lemma baseNamePrefix_None : forall s p,
  pairFrom p s = false -> baseNamePrefix p s = None.
Proof.
  induction s as [|x t IH]; intros p H; [reflexivity|].
  unfold pairFrom in H. rewrite hyphenDigit_cons in H. cbn [headDigit] in H.
  apply orb_false_iff in H as [H1 H2]. cbn [baseNamePrefix]. rewrite H1.
  now rewrite IH.
Qed.




Lemma hyphenDigit_digit s : hyphenDigit s = true -> existsb isDigit s = true.
Proof.
  induction s as [|x t IH]; [discriminate|]. rewrite hyphenDigit_cons.
  intros H. cbn [existsb]. apply orb_true_iff. right.
  apply orb_true_iff in H as [H|H]; [|now apply IH].
  apply andb_true_iff in H as [_ H]. destruct t as [|y t]; [discriminate|].
  cbn [headDigit] in H. cbn [existsb]. now rewrite H.
Qed.

Lemma digit_firstn n : forall s,
  existsb isDigit s = false -> existsb isDigit (firstn n s) = false.
Proof.
  induction n as [|n IH]; intros [|x s]; simpl; try reflexivity.
  intros H. apply orb_false_iff in H as [H1 H2]. now rewrite H1, IH.
Qed.

Lemma digit_dropSuffix suffix s :
  existsb isDigit s = false -> existsb isDigit (dropSuffix suffix s) = false.
Proof.
  intros H. unfold dropSuffix. destruct (endsWith suffix s);
    [now apply digit_firstn | exact H].
Qed.

Lemma digit_dropExtension s :
  existsb isDigit s = false -> existsb isDigit (dropExtension s) = false.
Proof.
  intros H. unfold dropExtension. destruct (extension s) as [[|y e]|]; try exact H.
  destruct (existsb (chr_eqb slash) (y :: e)); [exact H | now apply digit_firstn].
Qed.

(** No hyphen has a digit after it: the trailing hyphen goes, the rest
    stays. *)
Lemma deriveKey_whole filename :
  hyphenDigit (stripName filename) = false ->
  deriveKey filename = toLowerCase (dropSuffix [hyphen] (stripName filename)).
Proof.
  intros H. rewrite deriveKey_eq, baseNamePrefix_None; [reflexivity|exact H].
Qed.

End KeyFacts.

(* ------------------------------------------------------------------ *)
(** ** The lines of root.txt *)

Module LineFacts.
Import RegexFacts ObjFacts.

Lemma split_line l : ~ In newline l -> split l = [l].
Proof.
  induction l as [|c l IH]; simpl; intros H; [reflexivity|].
  destruct (chr_eqb c newline) eqn:E.
  - apply chr_eqb_eq in E. exfalso. apply H. now left.
  - rewrite IH; [reflexivity | intros Hin; apply H; now right].
Qed.

Lemma split_app l s :
  ~ In newline l -> split (l ++ newline :: s) = l :: split s.
Proof.
  induction l as [|c l IH]; simpl; intros H.
  - reflexivity.
  - destruct (chr_eqb c newline) eqn:E.
    + apply chr_eqb_eq in E. exfalso. apply H. now left.
    + rewrite IH; [reflexivity | intros Hin; apply H; now right].
Qed.

Lemma split_join : forall ls,
  ls <> [] -> (forall l, In l ls -> ~ In newline l) ->
  split (join [newline] ls) = ls.
Proof.
  induction ls as [|l ls IH]; intros Hne H; [contradiction|].
  destruct ls as [|l' ls].
  - simpl. apply split_line, H. now left.
  - change (join [newline] (l :: l' :: ls))
      with (l ++ newline :: join [newline] (l' :: ls)).
    rewrite split_app by (apply H; now left).
    f_equal. apply IH; [discriminate | intros x Hx; apply H; now right].
Qed.

Lemma takeWhile_app (p : codeUnit -> bool) a y b :
  forallb p a = true -> p y = false ->
  takeWhile p (a ++ y :: b) = a /\ dropWhile p (a ++ y :: b) = y :: b.
Proof.
  intros Ha Hy. induction a as [|x a IH]; simpl.
  - now rewrite Hy.
  - simpl in Ha. apply andb_true_iff in Ha as [Hx Ha]. rewrite Hx.
    destruct (IH Ha) as [-> ->]. now split.
Qed.

Lemma entryValue_cons x t :
  entryValue (x :: t) =
  let here := if forallb isDot (x :: t) then Some (x :: t) else None in
  if isWhiteSpace x
  then match entryValue t with Some v => Some v | None => here end
  else here.
Proof. reflexivity. Qed.

(** The value is the rest of the line after the white space, when that
    rest starts with something that is not white space. *)
Lemma entryValue_rest x t :
  isWhiteSpace x = false -> forallb isDot (x :: t) = true ->
  forall ws, forallb isWhiteSpace ws = true ->
    entryValue (ws ++ x :: t) = Some (x :: t).
Proof.
  intros Hx Hd. induction ws as [|w ws IH]; intros Hws.
  - cbn [app]. rewrite entryValue_cons. cbv zeta. now rewrite Hx, Hd.
  - cbn [app]. rewrite entryValue_cons. cbv zeta.
    cbn [forallb] in Hws. apply andb_true_iff in Hws as [Hw Hws].
    now rewrite Hw, IH.
Qed.

Lemma entryValue_some rem :
  rem <> [] -> forallb isDot rem = true ->
  forall ws, forallb isWhiteSpace ws = true ->
    exists v, entryValue (ws ++ rem) = Some v.
Proof.
  intros Hne Hd. induction ws as [|w ws IH]; intros Hws.
  - cbn [app]. destruct rem as [|x t]; [contradiction|].
    rewrite entryValue_cons. cbv zeta. rewrite Hd.
    destruct (isWhiteSpace x); [destruct (entryValue t)|]; eauto.
  - cbn [app]. rewrite entryValue_cons. cbv zeta.
    cbn [forallb] in Hws. apply andb_true_iff in Hws as [Hw Hws].
    rewrite Hw. destruct (IH Hws) as [v ->]. eauto.
Qed.

Lemma entryValue_inv : forall s v,
  entryValue s = Some v ->
  exists ws, s = ws ++ v /\ forallb isWhiteSpace ws = true /\
             v <> [] /\ forallb isDot v = true.
Proof.
  induction s as [|x t IH]; intros v; [discriminate|].
  rewrite entryValue_cons. cbv zeta.
  assert (Hhere :
    (if forallb isDot (x :: t) then Some (x :: t) else None) = Some v ->
    exists ws, x :: t = ws ++ v /\ forallb isWhiteSpace ws = true /\
               v <> [] /\ forallb isDot v = true).
  { destruct (forallb isDot (x :: t)) eqn:Hd; [|discriminate].
    intros [= <-]. exists []. now repeat split. }
  destruct (isWhiteSpace x) eqn:Hx; [|exact Hhere].
  destruct (entryValue t) as [v'|]; [|exact Hhere].
  intros [= ->]. destruct (IH v eq_refl) as (ws & -> & Hws & Hv).
  exists (x :: ws). cbn [forallb]. rewrite Hx, Hws. now repeat split.
Qed.

Lemma entryOf_form line key :
  entryForm line key -> exists v, entryOf line = Some (key, v).
Proof.
  intros (ws & rem & -> & Hk & Hc & Hws & Hr & Hd).
  unfold entryOf.
  destruct (takeWhile_app (not_chr colon) key colon (ws ++ rem) Hc) as [-> ->].
  { unfold not_chr. now rewrite chr_eqb_refl. }
  destruct key as [|x key]; [contradiction|].
  destruct (entryValue_some Hr Hd ws Hws) as [v ->]. now exists v.
Qed.

Lemma entryOf_inv line key v :
  entryOf line = Some (key, v) ->
  entryForm line key /\
  exists ws, line = key ++ colon :: ws ++ v /\ forallb isWhiteSpace ws = true.
Proof.
  unfold entryOf. intros H.
  pose proof (takeWhile_dropWhile (not_chr colon) line) as Hl.
  pose proof (takeWhile_all (not_chr colon) line) as Ha.
  destruct (takeWhile (not_chr colon) line) as [|x k]; [discriminate|].
  destruct (dropWhile (not_chr colon) line) as [|c s] eqn:Hd; [discriminate|].
  apply dropWhile_head in Hd. unfold not_chr in Hd.
  apply negb_false_iff, chr_eqb_eq in Hd. subst c.
  destruct (entryValue s) as [v'|] eqn:Ev; [|discriminate].
  injection H as <- <-.
  apply entryValue_inv in Ev as (ws & -> & Hws & Hv & Hdot).
  split.
  - exists ws, v'. now repeat split.
  - exists ws. now split.
Qed.

Lemma parseLine_None line :
  (forall key, ~ entryForm line key) -> parseLine line = None.
Proof.
  intros H. rewrite parseLine_entryOf.
  destruct (entryOf line) as [[k v]|] eqn:E; [|reflexivity].
  apply entryOf_inv in E as [E _]. now apply H in E.
Qed.

Lemma fold_addLine ls : forall o,
  fold_left addLine ls o = assignAll (lineEntries ls) o.
Proof.
  induction ls as [|l ls IH]; intros o; [reflexivity|].
  simpl. unfold lineEntries in *. simpl. rewrite assignAll_app, IH.
  f_equal. unfold addLine. now destruct (parseLine l) as [[k v]|].
Qed.

Lemma wf_readRootTxt file : wf (readRootTxt file).
Proof.
  destruct file as [content|]; [|apply wf_empty].
  simpl. rewrite fold_addLine. apply wf_assignAll, wf_empty.
Qed.

Lemma generateKeys_assignAll files :
  generateKeys files = assignAll (map (fun f => (deriveKey f, f)) files) empty.
Proof.
  unfold generateKeys. generalize empty.
  induction files as [|f files IH]; intros o; [reflexivity | apply IH].
Qed.

Lemma wf_generateKeys files : wf (generateKeys files).
Proof. rewrite generateKeys_assignAll. apply wf_assignAll, wf_empty. Qed.

End LineFacts.

Import RegexFacts ObjFacts StringFacts KeyFacts LineFacts.

(* ------------------------------------------------------------------ *)
(** ** The model on concrete inputs *)

Example match_lazy_segments :
  match0 reBaseName (str "A-B--12") = Some (str "A-B--").
Proof. reflexivity. Qed.

Example match_needs_hyphen : match0 reBaseName (str "report2024") = None.
Proof. reflexivity. Qed.

Example replace_last_extension :
  replace_empty reExtension (str "a.b.c") = str "a.b" /\
  replace_empty reExtension (str "notes.") = str "notes." /\
  replace_empty reExtension (str "notes") = str "notes".
Proof. repeat split. Qed.

Example parseLine_examples :
  parseLine (str "a: b") = Some (str "a", str "b") /\
  parseLine (str "a:b: c") = Some (str "a", str "b: c") /\
  parseLine (str "f:   ") = Some (str "f", str " ") /\
  parseLine (str "e:") = None /\
  parseLine (str ": x") = None /\
  parseLine (str "no colon") = None.
Proof. repeat split. Qed.

Example arrayIndex_examples :
  map arrayIndex
    [str "0"; str "10"; str "01"; str "4294967294"; str "4294967295"; str "1a"; []]
  = [Some 0; Some 10; None; Some 4294967294; None; None; None]%N.
Proof. reflexivity. Qed.

Example own_key_order :
  keys (generateKeys [str "b.txt"; str "10.txt"; str "9.txt"; str "a.txt"])
  = [str "9"; str "10"; str "b"; str "a"].
Proof. reflexivity. Qed.

Example prototype_reads_and_writes :
  get empty (str "constructor") = VObject /\
  get empty (str "missing") = VUndefined /\
  set (str "constructor") (str "x") empty = [(str "constructor", str "x")] /\
  set (str "__proto__") (str "x") empty = empty.
Proof. repeat split. Qed.

(* ------------------------------------------------------------------ *)
(** ** Key derivation *)




(** C5, as stated, fails: [notes-.txt] has no digit, its name without the
    extension is [notes-], and the derived key is [notes]: the trailing
    hyphen is removed in every case. *)
Lemma deriveKey_no_digit_trailing_hyphen :
  existsb isDigit (str "notes-.txt") = false /\
  keyWithoutDigit (str "notes-.txt") = str "notes-" /\
  deriveKey (str "notes-.txt") = str "notes" /\
  deriveKey (str "notes-.txt") <> keyWithoutDigit (str "notes-.txt").
Proof. vm_compute. repeat split; discriminate. Qed.

(** C5, amended: for a file name without a digit the key is the lowercase
    of the name with its extension dropped (a last period followed by one
    or more characters, none of them a slash), then a trailing
    [.thisismy], then one trailing hyphen. *)
Theorem deriveKey_no_digit (filename : jsstring) :
  existsb isDigit filename = false ->
  deriveKey filename =
  toLowerCase
    (dropSuffix [hyphen]
       (dropSuffix (str ".thisismy") (dropExtension filename))).
Proof.
  intros H. apply deriveKey_whole.
  destruct (hyphenDigit (stripName filename)) eqn:E; [|reflexivity].
  apply hyphenDigit_digit in E. unfold stripName in E.
  now rewrite digit_dropSuffix in E by now apply digit_dropExtension.
Qed.

Lemma deriveKey_no_digit_witness :
  deriveKey (str "notes.thisismy.txt") = str "notes".
Proof.
  apply (deriveKey_no_digit (str "notes.thisismy.txt")). vm_compute. reflexivity.
Defined.

(* ------------------------------------------------------------------ *)
(** ** [generateKeys]: colliding keys *)


Example generateKeys_report :
  generateKeys [str "report-20240101.pdf"; str "report-20240201.pdf"]
  = [(str "report", str "report-20240201.pdf")].
Proof. vm_compute. reflexivity. Qed.

(** C4 at the input [__proto__-1.pdf], [__proto__-2.pdf]: both names
    derive the key [__proto__], and the result has no entry at all, not
    the later name: the write [fileToKey['__proto__'] = filename] reaches
    the setter of [Object.prototype] and is lost. *)
Theorem generateKeys_proto_lost :
  deriveKey (str "__proto__-1.pdf") = str "__proto__" /\
  deriveKey (str "__proto__-2.pdf") = str "__proto__" /\
  generateKeys [str "__proto__-1.pdf"; str "__proto__-2.pdf"] = empty /\
  get (generateKeys [str "__proto__-1.pdf"; str "__proto__-2.pdf"])
      (str "__proto__") = VObject.
Proof. vm_compute. repeat split. Qed.

(* ------------------------------------------------------------------ *)
(** ** [readRootTxt]: repeated keys *)

(** For every key but [__proto__], the last line that sets it decides. *)
Lemma readRootTxt_last_line (content k : jsstring) :
  k <> proto ->
  getOwn k (readRootTxt (Some content)) =
  option_map snd
    (find (fun e => str_eqb k (fst e)) (rev (lineEntries (split content)))).
Proof.
  intros Hk. apply str_eqb_neq in Hk. simpl.
  rewrite fold_addLine, getOwn_assignAll by exact Hk.
  now destruct (find _ _).
Qed.

(** C9 at the input of two lines [__proto__: first] and
    [__proto__: second]: both lines match and set the key [__proto__],
    and the result has no entry for it, not the value [second]. *)
Theorem readRootTxt_proto_lost :
  parseLine (str "__proto__: first") = Some (str "__proto__", str "first") /\
  parseLine (str "__proto__: second") = Some (str "__proto__", str "second") /\
  readRootTxt (Some (str "__proto__: first" ++ newline :: str "__proto__: second"))
  = empty.
Proof. vm_compute. repeat split. Qed.

(* ------------------------------------------------------------------ *)
(** ** [updateEntries] *)

(** When every key of the previous mapping that is a property name of
    [Object.prototype] is also a key of the fresh mapping, the result has
    the keys and the values of the fresh mapping. *)
Lemma updateEntries_fresh (existing new : object) :
  wf existing -> wf new ->
  (forall k, hasOwn k existing = true -> inherited k = true ->
             hasOwn k new = true) ->
  forall k, getOwn k (updateEntries existing new) = getOwn k new.
Proof.
  intros He Hn H k. rewrite getOwn_updateEntries by assumption.
  destruct (getOwn k new) eqn:E; [reflexivity|].
  destruct (inherited k) eqn:Hi; [|reflexivity].
  destruct (getOwn k existing) eqn:Ee; [|reflexivity].
  assert (Hk : hasOwn k existing = true) by (unfold hasOwn; now rewrite Ee).
  apply H in Hk; [|exact Hi]. apply getOwn_None in E. congruence.
Qed.

(** C2 at the input: root.txt holds the line
    [constructor: constructor-20240101.pdf], the directory holds only
    [notes.txt].  The key [constructor] is not in the fresh mapping and
    stays in the result: [newEntries['constructor']] reads
    [Object.prototype.constructor], which is truthy, so that the entry is
    not deleted. *)
Theorem updateEntries_keeps_constructor :
  let existing :=
    readRootTxt (Some (str "constructor: constructor-20240101.pdf")) in
  let new := generateKeys [str "notes.txt"] in
  hasOwn (str "constructor") existing = true /\
  hasOwn (str "constructor") new = false /\
  updateEntries existing new =
  [(str "constructor", str "constructor-20240101.pdf");
   (str "notes", str "notes.txt")].
Proof. vm_compute. repeat split. Qed.

Lemma nonEmptyValues_In (o : object) :
  nonEmptyValues o = true -> forall k v, In (k, v) o -> v <> [].
Proof.
  unfold nonEmptyValues. rewrite forallb_forall. intros H k v Hin.
  apply H in Hin. simpl in Hin. now destruct v.
Qed.

Lemma overwrite_same k v : forall o,
  getOwn k o = Some v -> overwrite k v o = o.
Proof.
  induction o as [|[k1 v1] o IH]; simpl; [reflexivity|].
  case_eqb k k1.
  - now intros [= ->].
  - intros H. now rewrite IH.
Qed.

Lemma assignAll_same : forall l o,
  (forall k v, In (k, v) l -> getOwn k o = Some v) -> assignAll l o = o.
Proof.
  induction l as [|[k v] l IH]; intros o H; [reflexivity|].
  simpl. assert (E : set k v o = o).
  { unfold set. destruct (str_eqb k proto); [reflexivity|].
    assert (Hk : getOwn k o = Some v) by (apply H; now left).
    unfold hasOwn. rewrite Hk. now apply overwrite_same. }
  rewrite E. apply IH. intros k' v' Hin. apply H. now right.
Qed.

(** With one object passed twice, the result is that object again when
    none of its values is the empty string. *)
Lemma updateEntriesAliased_same (o : object) :
  wf o -> nonEmptyValues o = true -> updateEntriesAliased o = o.
Proof.
  intros Hwf Hv'. pose proof (@nonEmptyValues_In o Hv') as Hv.
  pose proof (wf_NoDup Hwf) as Hnd. unfold updateEntriesAliased.
  assert (E : forall ks, (forall k, In k ks -> In k (keys o)) ->
            fold_left (fun current key =>
                         if negb (truthy (get current key))
                         then delete key current else current) ks o = o).
  { induction ks as [|k ks IH]; intros Hks; [reflexivity|]. simpl.
    assert (Hk : In k (keys o)) by (apply Hks; now left).
    apply hasOwn_In in Hk. unfold hasOwn in Hk. unfold get.
    destruct (getOwn k o) as [v|] eqn:Eg; [|discriminate].
    apply getOwn_In, Hv in Eg. destruct v as [|x v]; [contradiction|].
    simpl. apply IH. intros k' Hk'. apply Hks. now right. }
  rewrite E by auto. rewrite assign_assignAll. apply assignAll_same.
  intros k v Hin. now apply In_getOwn.
Qed.

(** C6: merging a mapping with a mapping of the same content gives an
    object with the same keys and the same values; when no value is the
    empty string, the result is the very same list of entries, order
    included. *)
Theorem updateEntries_same (m : object) :
  wf m ->
  wf (updateEntries m m) /\
  (forall k, getOwn k (updateEntries m m) = getOwn k m) /\
  (nonEmptyValues m = true -> updateEntries m m = m).
Proof.
  intros Hwf. split; [now apply wf_updateEntries|]. split.
  - intros k. rewrite getOwn_updateEntries by assumption.
    destruct (getOwn k m); [reflexivity | now destruct (inherited k)].
  - intros Hv'. pose proof (@nonEmptyValues_In m Hv') as Hv.
    rewrite updateEntries_prune, prune_filter by now apply wf_NoDup.
    assert (E : filter (fun e => keep m (fst e)) m = m).
    { apply forallb_filter_id. apply forallb_forall. intros [k v] Hin.
      unfold keep, get. simpl.
      rewrite (In_getOwn k v m) by (try apply wf_NoDup; assumption).
      simpl. destruct v; [now apply Hv in Hin | reflexivity]. }
    rewrite E, assign_assignAll. apply assignAll_same.
    intros k v Hin. apply In_getOwn; [now apply wf_NoDup | exact Hin].
Qed.

Lemma updateEntries_same_witness :
  updateEntries [(str "daily-briefing", str "daily-briefing-20240501.pdf");
                 (str "notes", str "notes.thisismy.txt")]
                [(str "daily-briefing", str "daily-briefing-20240501.pdf");
                 (str "notes", str "notes.thisismy.txt")]
  = [(str "daily-briefing", str "daily-briefing-20240501.pdf");
     (str "notes", str "notes.thisismy.txt")].
Proof.
  apply (@updateEntries_same
           [(str "daily-briefing", str "daily-briefing-20240501.pdf");
            (str "notes", str "notes.thisismy.txt")]).
  - vm_compute. reflexivity.
  - vm_compute. reflexivity.
Defined.

(* ------------------------------------------------------------------ *)
(** ** The order of serialization *)

Lemma map_filter_keys (B : Type) (g : jsstring -> B) (P : jsstring -> bool) :
  forall o : object,
    map (fun e => g (fst e)) (filter (fun e => P (fst e)) o)
    = map g (filter P (keys o)).
Proof.
  induction o as [|[k v] o IH]; simpl; [reflexivity|].
  destruct (P k); simpl; now rewrite IH.
Qed.

Lemma hasOwn_filter (P : jsstring -> bool) k o :
  hasOwn k (filter (fun e => P (fst e)) o) = P k && hasOwn k o.
Proof. unfold hasOwn. rewrite getOwn_filter. now destruct (P k). Qed.

Lemma updateEntries_entries (previous fresh : object) :
  wf previous -> wf fresh ->
  (forall k, In k (keys fresh) -> arrayIndex k = None) ->
  (forall k v, In (k, v) fresh -> v <> []) ->
  (forall k, In k (keys previous) -> inherited k = true ->
             hasOwn k fresh = true) ->
  updateEntries previous fresh
  = map (fun k => (k, lookup fresh k)) (claimedOrder previous fresh).
Proof.
  intros Hp Hf Hidx Hval Hinh.
  pose proof (wf_NoDup Hp) as Hndp. pose proof (wf_NoDup Hf) as Hndf.
  rewrite updateEntries_prune, prune_filter by exact Hndp.
  assert (Ekeep : filter (fun e => keep fresh (fst e)) previous
                  = filter (fun e => hasOwn (fst e) fresh) previous).
  { apply filter_ext_in. intros [k v] Hin. simpl.
    unfold keep, get, hasOwn. destruct (getOwn k fresh) as [w|] eqn:E.
    - apply getOwn_In in E. apply Hval in E. now destruct w.
    - destruct (inherited k) eqn:Hi; [|reflexivity].
      assert (Hk : In k (keys previous))
        by (change k with (fst (k, v)); now apply in_map).
      apply Hinh in Hk; [|exact Hi]. unfold hasOwn in Hk. now rewrite E in Hk. }
  rewrite Ekeep, assign_order;
    [| exact Hndf | now apply wfKeys_proto | exact Hidx
     | now apply (NoDup_filter_keys (fun k => hasOwn k fresh))].
  unfold claimedOrder. rewrite map_app. f_equal.
  - rewrite <- (map_filter_keys (fun k => (k, lookup fresh k))
                  (fun k => hasOwn k fresh)).
    apply map_ext_in. intros [k v] Hin.
    apply filter_In in Hin as [_ Hin]. simpl in Hin. unfold upd, lookup. simpl.
    unfold hasOwn in Hin. now destruct (getOwn k fresh).
  - rewrite <- (map_filter_keys (fun k => (k, lookup fresh k))
                  (fun k => negb (hasOwn k previous))).
    rewrite (filter_ext_in (fun e => negb (hasOwn (fst e)
               (filter (fun e0 => hasOwn (fst e0) fresh) previous)))
               (fun e => negb (hasOwn (fst e) previous))).
    + rewrite <- (map_id (filter _ fresh)) at 1. apply map_ext_in.
      intros [k v] Hin. apply filter_In in Hin as [Hin _]. unfold lookup. simpl.
      now rewrite (In_getOwn k v fresh Hndf Hin).
    + intros [k v] Hin. simpl.
      rewrite (hasOwn_filter (fun k => hasOwn k fresh)).
      assert (Hk : hasOwn k fresh = true).
      { apply hasOwn_In. change k with (fst (k, v)). now apply in_map. }
      now rewrite Hk.
Qed.

(** C7, as stated, fails: with [b.pdf] in the previous run and [b.pdf] and
    [1.pdf] now, the new key [1] is an array index and is serialized
    before the retained key [b]. *)
Lemma updateEntries_index_key_first :
  let previous := generateKeys [str "b.pdf"] in
  let fresh := generateKeys [str "b.pdf"; str "1.pdf"] in
  claimedOrder previous fresh = [str "b"; str "1"] /\
  keys (updateEntries previous fresh) = [str "1"; str "b"] /\
  formatEntries (updateEntries previous fresh)
  = str "1: 1.pdf" ++ newline :: str "b: b.pdf" /\
  keys (updateEntries previous fresh) <> claimedOrder previous fresh.
Proof. vm_compute. repeat split; discriminate. Qed.

(** *** The order of the keys after the merge *)

Lemma digitOf_lt c : isDigit c = true -> (digitOf c < 10)%N.
Proof.
  unfold isDigit, digitOf. intros H. apply andb_true_iff in H as [H1 H2].
  apply Nat.leb_le in H1, H2. lia.
Qed.

Lemma digitOf_inj c c' :
  isDigit c = true -> isDigit c' = true -> digitOf c = digitOf c' -> c = c'.
Proof.
  unfold isDigit, digitOf, code. intros H H' E.
  apply andb_true_iff in H as [H1 H2]. apply andb_true_iff in H' as [H1' H2'].
  apply Nat.leb_le in H1, H2, H1', H2'.
  apply N2Nat.inj. lia.
Qed.

Lemma digitsValue_cons acc c s :
  digitsValue acc (c :: s) =
  if isDigit c then digitsValue (10 * acc + digitOf c) s else None.
Proof. reflexivity. Qed.

Lemma digitsValue_total : forall s acc acc' n,
  digitsValue acc s = Some n -> exists n', digitsValue acc' s = Some n'.
Proof.
  induction s as [|c s IH]; intros acc acc' n H.
  - now exists acc'.
  - rewrite digitsValue_cons in *. destruct (isDigit c); [|discriminate].
    eapply IH; eauto.
Qed.

Lemma digitsValue_acc : forall s acc n,
  digitsValue acc s = Some n ->
  exists v, digitsValue 0 s = Some v /\
            (n = acc * 10 ^ N.of_nat (length s) + v)%N /\
            (v < 10 ^ N.of_nat (length s))%N.
Proof.
  induction s as [|c s IH]; intros acc n H.
  - simpl in H. injection H as <-. exists 0%N. simpl. split; [reflexivity|]. lia.
  - rewrite digitsValue_cons in *. destruct (isDigit c) eqn:Hc; [|discriminate].
    pose proof (@digitOf_lt c Hc) as Hd.
    destruct (@digitsValue_total s _ (10 * 0 + digitOf c)%N _ H) as (w & Hw).
    apply IH in H as (v & Hv & -> & Hlt).
    pose proof Hw as Hw'. apply IH in Hw' as (v' & Hv' & -> & _).
    rewrite Hv in Hv'. injection Hv' as <-.
    exists ((10 * 0 + digitOf c) * 10 ^ N.of_nat (length s) + v)%N.
    split; [exact Hw|].
    cbn [length]. rewrite Nat2N.inj_succ, N.pow_succ_r'. split; nia.
Qed.

(** A digit string that does not start with 0 is at least 10^(length - 1). *)
Lemma digitsValue_lower c s v :
  isDigit c = true -> chr_eqb c (chr "0") = false ->
  digitsValue 0 (c :: s) = Some v -> (10 ^ N.of_nat (length s) <= v)%N.
Proof.
  intros Hc H0 H. rewrite digitsValue_cons, Hc in H.
  apply digitsValue_acc in H as (w & _ & -> & _).
  assert (Hd : (1 <= digitOf c)%N).
  { unfold isDigit, digitOf, code in *. apply andb_true_iff in Hc as [H1 H2].
    apply Nat.leb_le in H1, H2.
    assert (N.to_nat c <> 48).
    { intros E. replace c with (chr "0") in H0.
      - now rewrite chr_eqb_refl in H0.
      - apply N2Nat.inj. now rewrite E. }
    lia. }
  nia.
Qed.

Lemma digitsValue_inj : forall s s' v,
  length s = length s' ->
  digitsValue 0 s = Some v -> digitsValue 0 s' = Some v -> s = s'.
Proof.
  induction s as [|c s IH]; intros [|c' s'] v Hl H H'; try discriminate.
  - reflexivity.
  - injection Hl as Hl. rewrite digitsValue_cons in H, H'.
    destruct (isDigit c) eqn:Hc; [|discriminate].
    destruct (isDigit c') eqn:Hc'; [|discriminate].
    apply digitsValue_acc in H as (w & Hw & -> & Hlt).
    apply digitsValue_acc in H' as (w' & Hw' & E & Hlt').
    rewrite <- Hl in E, Hlt'.
    pose proof (@digitOf_lt c Hc). pose proof (@digitOf_lt c' Hc').
    assert (digitOf c = digitOf c' /\ w = w') as [Ed Ew].
    { revert E Hlt Hlt'. generalize (10 ^ N.of_nat (length s))%N as P.
      generalize dependent (digitOf c'). generalize dependent (digitOf c).
      intros d _ d' _ P E Hlt Hlt'.
      destruct (N.lt_trichotomy d d') as [Hd|[Hd|Hd]]; [nia| |nia].
      subst d'. split; [reflexivity|lia]. }
    subst w'. f_equal.
    + now apply digitOf_inj.
    + now apply (IH s' w).
Qed.

(** Two array indices with the same value are the same string. *)
Lemma arrayIndex_inj k k' n :
  arrayIndex k = Some n -> arrayIndex k' = Some n -> k = k'.
Proof.
  assert (Hlen : forall k k' n, arrayIndex k = Some n -> arrayIndex k' = Some n ->
                                length k <= length k').
  { clear. intros k k' n H H'. unfold arrayIndex in H, H'.
    destruct k as [|c s]; [discriminate|]. destruct k' as [|c' s']; [discriminate|].
    destruct (chr_eqb c (chr "0") && _) eqn:Hz; [discriminate|].
    destruct (chr_eqb c' (chr "0") && _) eqn:Hz'; [discriminate|].
    destruct (digitsValue 0 (c :: s)) as [v|] eqn:Hv; [|discriminate].
    destruct (digitsValue 0 (c' :: s')) as [v'|] eqn:Hv'; [|discriminate].
    destruct (v <? 4294967295)%N; [|discriminate].
    destruct (v' <? 4294967295)%N; [|discriminate].
    injection H as ->. injection H' as ->.
    destruct (Nat.le_gt_cases (length (c :: s)) (length (c' :: s'))) as [|Hgt];
      [assumption|exfalso].
    cbn [length] in Hgt.
    destruct s as [|x s]; [simpl in Hgt; lia|].
    simpl in Hz. rewrite andb_true_r in Hz.
    assert (Hc : isDigit c = true).
    { rewrite digitsValue_cons in Hv. now destruct (isDigit c). }
    pose proof (@digitsValue_lower c (x :: s) n Hc Hz Hv) as Hlow.
    apply digitsValue_acc in Hv' as (w & _ & E & Hw). rewrite N.mul_0_l in E.
    simpl in E. subst w.
    assert (Hp : (10 ^ N.of_nat (length (c' :: s')) <= 10 ^ N.of_nat (length (x :: s)))%N).
    { apply N.pow_le_mono_r; [lia|]. cbn [length] in *. lia. }
    lia. }
  intros H H'.
  pose proof (Hlen _ _ _ H H') as L1. pose proof (Hlen _ _ _ H' H) as L2.
  assert (El : length k = length k') by lia.
  unfold arrayIndex in H, H'.
  destruct k as [|c s]; [discriminate|]. destruct k' as [|c' s']; [discriminate|].
  destruct (chr_eqb c (chr "0") && _); [discriminate|].
  destruct (chr_eqb c' (chr "0") && _); [discriminate|].
  destruct (digitsValue 0 (c :: s)) as [v|] eqn:Hv; [|discriminate].
  destruct (digitsValue 0 (c' :: s')) as [v'|] eqn:Hv'; [|discriminate].
  destruct (v <? 4294967295)%N; [|discriminate].
  destruct (v' <? 4294967295)%N; [|discriminate].
  injection H as ->. injection H' as ->.
  exact (@digitsValue_inj _ _ _ El Hv Hv').
Qed.

Lemma precedes_index k k' : precedes k k' = true -> isIndexKey k = true.
Proof. unfold precedes, isIndexKey. now destruct (arrayIndex k). Qed.

Lemma precedes_other k k' :
  isIndexKey k = true -> isIndexKey k' = false -> precedes k k' = true.
Proof.
  unfold precedes, isIndexKey.
  destruct (arrayIndex k); [|discriminate]. now destruct (arrayIndex k').
Qed.

(** In a list of own keys, the array indices come first. *)
Lemma wfKeys_split ks :
  wfKeys ks = true -> ks = indexKeys ks ++ otherKeys ks.
Proof.
  unfold indexKeys, otherKeys.
  induction ks as [|k ks IH]; [reflexivity|]. intros H.
  apply wfKeys_cons in H as (_ & Hk & Hw). specialize (IH Hw). simpl.
  destruct (isIndexKey k) eqn:Ek; simpl.
  - now rewrite <- IH.
  - assert (Hn : forall k', In k' ks -> isIndexKey k' = false).
    { intros k' Hin. destruct (isIndexKey k') eqn:Ek'; [|reflexivity].
      apply Hk in Hin as [_ Hin]. now rewrite precedes_other in Hin. }
    assert (E1 : filter isIndexKey ks = []).
    { clear - Hn. induction ks as [|x ks IH]; [reflexivity|]. simpl.
      rewrite (Hn x) by now left. apply IH. intros. apply Hn. now right. }
    assert (E2 : filter (fun k => negb (isIndexKey k)) ks = ks).
    { clear - Hn. induction ks as [|x ks IH]; [reflexivity|]. simpl.
      rewrite (Hn x) by now left. simpl. f_equal. apply IH. intros. apply Hn. now right. }
    now rewrite E1, E2.
Qed.

(** ... in ascending numeric order. *)
Lemma wfKeys_ascending ks :
  wfKeys ks = true -> ascendingKeys (indexKeys ks) = true.
Proof.
  unfold indexKeys.
  induction ks as [|k ks IH]; [reflexivity|]. intros H.
  apply wfKeys_cons in H as (_ & Hk & Hw). specialize (IH Hw). simpl.
  destruct (isIndexKey k) eqn:Ek; [|exact IH]. simpl. rewrite IH, andb_true_r.
  apply forallb_forall. intros k' Hin. apply filter_In in Hin as [Hin Ek'].
  apply Hk in Hin as [Hne Hp]. unfold precedes in Hp.
  unfold isIndexKey in Ek, Ek'. unfold indexValue.
  destruct (arrayIndex k) as [n|] eqn:En; [|discriminate].
  destruct (arrayIndex k') as [n'|] eqn:En'; [|discriminate].
  apply N.ltb_ge in Hp. apply N.ltb_lt.
  assert (n <> n').
  { intros <-. apply Hne. exact (@arrayIndex_inj _ _ _ En' En). }
  lia.
Qed.

Lemma wfKeys_app_cross ks1 ks2 :
  wfKeys (ks1 ++ ks2) = true ->
  forall k a, In k ks1 -> In a ks2 -> precedes a k = false.
Proof.
  induction ks1 as [|x ks1 IH]; intros H k a Hk Ha; [destruct Hk|].
  simpl in H. apply wfKeys_cons in H as (_ & Hx & Hw).
  destruct Hk as [<-|Hk].
  - apply Hx. apply in_or_app. now right.
  - now apply (IH Hw k a).
Qed.

(** Creating a key leaves the keys that are not array indices in place and
    puts a new one that is not an array index last. *)
Lemma otherKeys_create k v o :
  otherKeys (keys (create k v o)) =
  otherKeys (keys o) ++ (if isIndexKey k then [] else [k]).
Proof.
  unfold otherKeys. induction o as [|[k' v'] o IH]; simpl.
  - now destruct (isIndexKey k).
  - destruct (precedes k k') eqn:Hp; simpl.
    + rewrite (@precedes_index _ _ Hp). simpl. now rewrite app_nil_r.
    + destruct (isIndexKey k'); simpl; now rewrite IH.
Qed.

Lemma hasOwn_create k v o k' :
  hasOwn k o = false ->
  hasOwn k' (create k v o) = str_eqb k' k || hasOwn k' o.
Proof.
  intros H. unfold hasOwn. rewrite getOwn_create by exact H.
  now destruct (str_eqb k' k).
Qed.

(** The keys that are not array indices, after [Object.assign]. *)
Lemma otherKeys_assignAll : forall l o,
  NoDup (map fst l) -> ~ In proto (map fst l) ->
  otherKeys (keys (assignAll l o)) =
  otherKeys (keys o)
  ++ otherKeys (filter (fun k => negb (hasOwn k o)) (map fst l)).
Proof.
  induction l as [|[k v] l IH]; intros o Hnd Hp.
  - simpl. now rewrite app_nil_r.
  - cbn [map fst] in *. apply NoDup_cons_iff in Hnd as [Hk Hnd].
    assert (Hkp : str_eqb k proto = false).
    { apply str_eqb_neq. intros ->. apply Hp. now left. }
    assert (Hp' : ~ In proto (map fst l)) by (intros H; apply Hp; now right).
    change (assignAll ((k, v) :: l) o) with (assignAll l (set k v o)).
    rewrite IH by assumption. unfold set. rewrite Hkp. cbn [filter].
    destruct (hasOwn k o) eqn:Ho; cbn [negb].
    + rewrite keys_overwrite. f_equal. f_equal. apply filter_ext_in.
      intros a _. now rewrite hasOwn_overwrite.
    + rewrite otherKeys_create, <- app_assoc. f_equal.
      assert (E : filter (fun k0 => negb (hasOwn k0 (create k v o))) (map fst l)
                  = filter (fun k0 => negb (hasOwn k0 o)) (map fst l)).
      { apply filter_ext_in. intros a Ha. rewrite hasOwn_create by exact Ho.
        assert (Hak : str_eqb a k = false).
        { apply str_eqb_neq. intros ->. now apply Hk. }
        now rewrite Hak. }
      rewrite E. unfold otherKeys. cbn [filter]. now destruct (isIndexKey k).
Qed.

Lemma keys_assignAll_In : forall l o k,
  ~ In proto (map fst l) ->
  (In k (keys (assignAll l o)) <-> In k (keys o) \/ In k (map fst l)).
Proof.
  induction l as [|[k0 v] l IH]; intros o k Hp.
  - simpl. tauto.
  - cbn [map fst] in *.
    assert (Hkp : str_eqb k0 proto = false).
    { apply str_eqb_neq. intros ->. apply Hp. now left. }
    assert (Hp' : ~ In proto (map fst l)) by (intros H; apply Hp; now right).
    change (assignAll ((k0, v) :: l) o) with (assignAll l (set k0 v o)).
    rewrite IH by assumption. unfold set. rewrite Hkp.
    destruct (hasOwn k0 o) eqn:Ho.
    + rewrite keys_overwrite. apply hasOwn_In in Ho. simpl. split.
      * intros [H|H]; auto.
      * intros [H|[<-|H]]; auto.
    + rewrite keys_create_In. simpl. split.
      * intros [[->|H]|H]; auto.
      * intros [H|[<-|H]]; auto.
Qed.

(** When no created key has to be listed before a key that is there, the
    created keys are appended in order. *)
Lemma keys_assignAll_append : forall l o,
  wfKeys (map fst l) = true ->
  (forall a k, In a (filter (fun k => negb (hasOwn k o)) (map fst l)) ->
               In k (keys o) -> precedes a k = false) ->
  keys (assignAll l o) =
  keys o ++ filter (fun k => negb (hasOwn k o)) (map fst l).
Proof.
  induction l as [|[k v] l IH]; intros o Hw Hc.
  - simpl. now rewrite app_nil_r.
  - cbn [map fst] in *. apply wfKeys_cons in Hw as (Hkp & Hk & Hw).
    apply str_eqb_neq in Hkp.
    change (assignAll ((k, v) :: l) o) with (assignAll l (set k v o)).
    unfold set. rewrite Hkp. cbn [filter] in *.
    destruct (hasOwn k o) eqn:Ho; cbn [negb] in *.
    + rewrite IH; [| exact Hw |].
      * rewrite keys_overwrite. f_equal. apply filter_ext_in.
        intros a _. now rewrite hasOwn_overwrite.
      * intros a k' Ha Hk'. rewrite keys_overwrite in Hk'.
        apply Hc; [|exact Hk']. apply filter_In in Ha as [Ha Hb].
        apply filter_In. split; [exact Ha|]. now rewrite hasOwn_overwrite in Hb.
    + assert (Hlast : create k v o = o ++ [(k, v)]).
      { apply create_last. intros k' Hk'. apply Hc; [now left|exact Hk']. }
      rewrite Hlast.
      assert (E : filter (fun k0 => negb (hasOwn k0 (o ++ [(k, v)]))) (map fst l)
                  = filter (fun k0 => negb (hasOwn k0 o)) (map fst l)).
      { apply filter_ext_in. intros a Ha. rewrite hasOwn_app.
        assert (Hak : hasOwn a [(k, v)] = false).
        { apply hasOwn_false. simpl. intros [->|[]]. now apply Hk in Ha as [Ha _]. }
        now rewrite Hak, orb_false_r. }
      rewrite IH; [| exact Hw |].
      * rewrite E. unfold keys. rewrite map_app. simpl. now rewrite <- app_assoc.
      * intros a k' Ha Hk'. rewrite E in Ha. unfold keys in Hk'.
        rewrite map_app in Hk'. apply in_app_or in Hk' as [Hk'|[<-|[]]].
        -- apply Hc; [now right|exact Hk'].
        -- apply filter_In in Ha as [Ha _]. now apply Hk in Ha as [_ Ha].
Qed.

Lemma wfKeys_before ks k k' :
  wfKeys ks = true -> listedBefore ks k k' -> precedes k' k = false.
Proof.
  intros Hw (l1 & l2 & l3 & ->).
  replace (l1 ++ k :: l2 ++ k' :: l3) with ((l1 ++ [k]) ++ (l2 ++ k' :: l3)) in Hw
    by now rewrite <- app_assoc.
  apply (wfKeys_app_cross _ _ Hw).
  - apply in_or_app. right. now left.
  - apply in_or_app. right. now left.
Qed.

Lemma updateEntries_assignAll (previous fresh : object) :
  wf previous ->
  updateEntries previous fresh
  = assignAll fresh (filter (fun e => keep fresh (fst e)) previous) /\
  keys (filter (fun e => keep fresh (fst e)) previous) = retainedKeys previous fresh /\
  filter (fun k => negb (hasOwn k (filter (fun e => keep fresh (fst e)) previous)))
    (map fst fresh)
  = addedKeys previous fresh.
Proof.
  intros Hp. split; [|split].
  - rewrite updateEntries_prune, prune_filter by now apply wf_NoDup.
    apply assign_assignAll.
  - apply keys_filter.
  - unfold addedKeys. apply filter_ext_in. intros k _.
    now rewrite (hasOwn_filter (keep fresh)).
Qed.

(** A key is not listed before another one exactly when, being an array
    index, it is the larger of two array indices. *)
Lemma precedes_false a k :
  a <> k ->
  precedes a k = false <->
  (isIndexKey a = true ->
   isIndexKey k = true /\ (indexValue k < indexValue a)%N).
Proof.
  intros Hne. unfold precedes, isIndexKey, indexValue.
  destruct (arrayIndex a) as [n|] eqn:Ea; [|split; [discriminate|reflexivity]].
  destruct (arrayIndex k) as [n'|] eqn:Ek.
  - rewrite N.ltb_ge. split.
    + intros Hle _. split; [reflexivity|].
      destruct (N.eq_dec n n') as [->|Hn]; [|lia].
      exfalso. apply Hne. exact (@arrayIndex_inj a k n' Ea Ek).
    + intros H. destruct (H eq_refl) as [_ Hlt]. lia.
  - split; [discriminate|]. intros H. now destruct (H eq_refl).
Qed.

(** No key is both retained and created. *)
Lemma addedKeys_retainedKeys previous fresh a k :
  In a (addedKeys previous fresh) -> In k (retainedKeys previous fresh) -> a <> k.
Proof.
  intros Ha Hk ->. apply filter_In in Ha as [_ Ha]. apply filter_In in Hk as [Hin Hk].
  apply hasOwn_In in Hin. now rewrite Hk, Hin in Ha.
Qed.

(** C7, amended: the keys of the merged mapping are listed as follows:
    first its array indices, in ascending numeric order; then the other
    keys that the deletion loop kept, in their previous order; then the
    other keys that [Object.assign] created, in the order of the fresh
    mapping.  Every retained key stands before every created key, and the
    keys are the retained keys followed by the created keys, exactly when
    no created key has to be listed before a retained key, that is, when
    every created key that is an array index is larger than every retained
    key, all of them array indices.  When no value of the fresh mapping is
    empty and the property names of [Object.prototype] among the previous
    keys are keys of the fresh mapping, the retained keys are the previous
    keys that the fresh mapping has, and the created keys are the fresh
    keys that the previous mapping lacks.  The serialization lists the
    entries in the order of the keys. *)
Theorem updateEntries_order (previous fresh : object) :
  wf previous -> wf fresh ->
  keys (updateEntries previous fresh)
  = indexKeys (keys (updateEntries previous fresh))
    ++ otherKeys (retainedKeys previous fresh)
    ++ otherKeys (addedKeys previous fresh) /\
  ascendingKeys (indexKeys (keys (updateEntries previous fresh))) = true /\
  (forall k, In k (keys (updateEntries previous fresh)) <->
             In k (retainedKeys previous fresh) \/ In k (addedKeys previous fresh)) /\
  ((forall a k, In a (addedKeys previous fresh) ->
                In k (retainedKeys previous fresh) -> precedes a k = false) <->
   keys (updateEntries previous fresh)
   = retainedKeys previous fresh ++ addedKeys previous fresh) /\
  ((forall a k, In a (addedKeys previous fresh) ->
                In k (retainedKeys previous fresh) -> precedes a k = false) <->
   (forall a k, In a (addedKeys previous fresh) ->
                In k (retainedKeys previous fresh) ->
                listedBefore (keys (updateEntries previous fresh)) k a)) /\
  ((forall a k, In a (addedKeys previous fresh) ->
                In k (retainedKeys previous fresh) -> precedes a k = false) <->
   (forall a k, In a (addedKeys previous fresh) ->
                In k (retainedKeys previous fresh) ->
                isIndexKey a = true ->
                isIndexKey k = true /\ (indexValue k < indexValue a)%N)) /\
  (nonEmptyValues fresh = true -> inheritedKeysIn previous fresh = true ->
   retainedKeys previous fresh
   = filter (fun k => hasOwn k fresh) (keys previous) /\
   addedKeys previous fresh
   = filter (fun k => negb (hasOwn k previous)) (keys fresh) /\
   retainedKeys previous fresh ++ addedKeys previous fresh
   = claimedOrder previous fresh) /\
  formatEntries (updateEntries previous fresh)
  = join [newline]
      (map (fun k => k ++ str ": " ++ lookup (updateEntries previous fresh) k)
         (keys (updateEntries previous fresh))).
Proof.
  intros Hp Hf.
  pose proof (wf_updateEntries fresh Hp) as Hm.
  destruct (updateEntries_assignAll fresh Hp) as (Eu & Ek & Ea).
  pose proof (wf_NoDup Hf) as Hndf. pose proof (wfKeys_proto _ Hf) as Hpf.
  assert (Happend :
    (forall a k, In a (addedKeys previous fresh) ->
                 In k (retainedKeys previous fresh) -> precedes a k = false) ->
    keys (updateEntries previous fresh)
    = retainedKeys previous fresh ++ addedKeys previous fresh).
  { intros Hc. rewrite Eu, keys_assignAll_append, Ek, Ea; [reflexivity|exact Hf|].
    intros a k Ha Hk. rewrite Ea in Ha. rewrite Ek in Hk. now apply Hc. }
  split; [|split; [|split; [|split; [|split; [|split; [|split]]]]]].
  - rewrite (wfKeys_split _ Hm) at 1. f_equal.
    rewrite Eu, otherKeys_assignAll by assumption. now rewrite Ek, Ea.
  - now apply wfKeys_ascending.
  - intros k. rewrite Eu, keys_assignAll_In, Ek by assumption. split.
    + intros [H|H]; [now left|].
      destruct (keep fresh k && hasOwn k previous) eqn:E.
      * left. apply andb_true_iff in E as [E1 E2]. apply filter_In.
        split; [now apply hasOwn_In|exact E1].
      * right. apply filter_In. split; [exact H|now rewrite E].
    + intros [H|H]; [now left|]. right. now apply filter_In in H as [H _].
  - split; [exact Happend|].
    intros E a k Ha Hk. unfold wf in Hm. rewrite E in Hm.
    exact (wfKeys_app_cross _ _ Hm k a Hk Ha).
  - split.
    + intros Hc a k Ha Hk. rewrite (Happend Hc).
      apply in_split in Hk as (r1 & r2 & ->).
      apply in_split in Ha as (a1 & a2 & ->).
      exists r1, (r2 ++ a1), a2. now rewrite <- !app_assoc.
    + intros Hb a k Ha Hk. apply (wfKeys_before Hm). now apply Hb.
  - split; intros Hc a k Ha Hk;
      apply (precedes_false (addedKeys_retainedKeys _ _ Ha Hk)); now apply Hc.
  - intros Hval Hinh.
    enough (E : retainedKeys previous fresh
                = filter (fun k => hasOwn k fresh) (keys previous) /\
                addedKeys previous fresh
                = filter (fun k => negb (hasOwn k previous)) (keys fresh)).
    { destruct E as [E1 E2]. split; [exact E1|]. split; [exact E2|].
      unfold claimedOrder. now rewrite E1, E2. }
    unfold retainedKeys, addedKeys. split.
    + apply filter_ext_in. intros k Hk. unfold keep, get, hasOwn.
      destruct (getOwn k fresh) as [w|] eqn:E.
      * apply getOwn_In in E. apply (@nonEmptyValues_In fresh Hval) in E.
        now destruct w.
      * destruct (inherited k) eqn:Hi; [|reflexivity].
        unfold inheritedKeysIn in Hinh. rewrite forallb_forall in Hinh.
        apply Hinh in Hk. rewrite Hi in Hk. unfold hasOwn in Hk. now rewrite E in Hk.
    + apply filter_ext_in. intros k Hk. apply hasOwn_In in Hk.
      unfold keep, get. unfold hasOwn in Hk.
      destruct (getOwn k fresh) as [w|] eqn:E; [|discriminate].
      apply getOwn_In in E. apply (@nonEmptyValues_In fresh Hval) in E.
      now destruct w.
  - unfold formatEntries, Obj.entries. f_equal. unfold keys. rewrite map_map.
    apply map_ext_in. intros [k v] Hin. unfold formatEntry, lookup. simpl.
    now rewrite (In_getOwn k v _ (wf_NoDup Hm) Hin).
Qed.

Lemma updateEntries_order_witness :
  let previous := [(str "1", str "1.pdf"); (str "b", str "b.pdf");
                   (str "old", str "old-1.pdf")] in
  let fresh := [(str "1", str "1.pdf"); (str "2", str "2.pdf");
                (str "b", str "b-2.pdf"); (str "c", str "c.pdf")] in
  wf previous /\ wf fresh /\
  keys (updateEntries previous fresh) = [str "1"; str "2"; str "b"; str "c"] /\
  keys (updateEntries previous fresh)
  = indexKeys (keys (updateEntries previous fresh))
    ++ otherKeys (retainedKeys previous fresh)
    ++ otherKeys (addedKeys previous fresh) /\
  ascendingKeys (indexKeys (keys (updateEntries previous fresh))) = true.
Proof.
  intros previous fresh.
  assert (Hp : wf previous) by reflexivity.
  assert (Hf : wf fresh) by reflexivity.
  split; [exact Hp|]. split; [exact Hf|]. split; [reflexivity|].
  destruct (updateEntries_order Hp Hf) as (H1 & H2 & _).
  split; [exact H1 | exact H2].
Defined.

(* ------------------------------------------------------------------ *)
(** ** Writing root.txt and reading it back *)

Lemma plainKey_inv k :
  plainKey k = true ->
  k <> [] /\ forallb (not_chr colon) k = true /\ ~ In newline k.
Proof.
  destruct k as [|x k]; [discriminate|]. unfold plainKey.
  intros H. rewrite forallb_forall in H. split; [discriminate|]. split.
  - apply forallb_forall. intros c Hc. apply H in Hc.
    apply andb_true_iff in Hc as [Hc _]. exact Hc.
  - intros Hin. apply H in Hin.
    apply andb_true_iff in Hin as [_ Hin]. now rewrite chr_eqb_refl in Hin.
Qed.

Lemma plainValue_inv v :
  plainValue v = true ->
  (exists x t, v = x :: t /\ isWhiteSpace x = false) /\
  forallb isDot v = true /\ ~ In newline v.
Proof.
  destruct v as [|x t]; [discriminate|]. unfold plainValue.
  intros H. apply andb_true_iff in H as [Hx Hd]. apply negb_true_iff in Hx.
  split; [now exists x, t|]. split; [exact Hd|].
  intros Hin. rewrite forallb_forall in Hd. now apply Hd in Hin.
Qed.

Lemma formatEntry_cons k v : formatEntry (k, v) = k ++ colon :: (chr " ") :: v.
Proof. reflexivity. Qed.

Lemma parseLine_formatEntry k v :
  plainKey k = true -> plainValue v = true ->
  parseLine (formatEntry (k, v)) = Some (k, v).
Proof.
  intros Hk Hv. rewrite parseLine_entryOf, formatEntry_cons. unfold entryOf.
  apply plainKey_inv in Hk as (Hne & Hc & _).
  apply plainValue_inv in Hv as ((x & t & -> & Hx) & Hd & _).
  destruct (takeWhile_app (not_chr colon) k colon ((chr " ") :: x :: t) Hc)
    as [-> ->]; [reflexivity|].
  destruct k as [|y k]; [contradiction|].
  pose proof (@entryValue_rest x t Hx Hd [(chr " ")] eq_refl) as E.
  cbn [app] in E. now rewrite E.
Qed.

Lemma formatEntry_line k v :
  plainKey k = true -> plainValue v = true -> ~ In newline (formatEntry (k, v)).
Proof.
  intros Hk Hv. rewrite formatEntry_cons.
  apply plainKey_inv in Hk as (_ & _ & Hk).
  apply plainValue_inv in Hv as (_ & _ & Hv).
  intros Hin. apply in_app_or in Hin as [Hin|[Hin|[Hin|Hin]]];
    [contradiction | discriminate | discriminate | contradiction].
Qed.

Lemma fold_addLine_format : forall (es : object) o,
  plainEntries es = true ->
  fold_left addLine (map formatEntry es) o = assignAll es o.
Proof.
  induction es as [|[k v] es IH]; intros o H; [reflexivity|].
  unfold plainEntries in H. simpl in H.
  apply andb_true_iff in H as [Hkv H]. apply andb_true_iff in Hkv as [Hk Hv].
  simpl. unfold addLine at 2. rewrite parseLine_formatEntry by assumption.
  now apply IH.
Qed.

(** C3, as stated, fails: the file [-1.pdf] derives the empty key; the
    mapping has no colon in a key, it is written as the line [: -1.pdf],
    and that line does not match when it is read back. *)
Lemma roundtrip_empty_key :
  let m := generateKeys [str "-1.pdf"] in
  m = [([], str "-1.pdf")] /\
  existsb (fun e => existsb (chr_eqb colon) (fst e)) m = false /\
  formatEntries m = str ": -1.pdf" /\
  readRootTxt (Some (formatEntries m)) = empty /\
  readRootTxt (Some (formatEntries m)) <> m.
Proof. vm_compute. repeat split; discriminate. Qed.

(** The condition on the values names all four line terminators: a value
    with the line separator U+2028, as the file [a<U+2028>b.txt] gives
    it, is written on one line, and that line does not match when it is
    read back, since [.] refuses U+2028. *)
Lemma roundtrip_line_separator :
  let name := chr "a" :: 8232%N :: str "b.txt" in
  let m := generateKeys [name] in
  m = [(chr "a" :: 8232%N :: str "b", name)] /\
  plainKey (chr "a" :: 8232%N :: str "b") = true /\
  existsb (fun c => chr_eqb c newline || chr_eqb c carriageReturn) name = false /\
  plainValue name = false /\
  readRootTxt (Some (formatEntries m)) = empty.
Proof. vm_compute. repeat split. Qed.

(** C3, amended: writing a mapping and reading it back gives the mapping
    again, order included, when the mapping has no own [__proto__] key,
    every key is not empty and has no colon and no newline (LF), and every
    value is not empty, does not start with white space and has no line
    terminator (LF, CR, U+2028, U+2029). *)
Theorem roundtrip (m : object) :
  wf m -> plainEntries m = true ->
  readRootTxt (Some (formatEntries m)) = m.
Proof.
  intros Hwf Hm. unfold readRootTxt, formatEntries, Obj.entries.
  destruct m as [|e m]; [reflexivity|].
  rewrite split_join.
  - rewrite fold_addLine_format by exact Hm. now apply (assignAll_wf (e :: m) []).
  - discriminate.
  - intros l Hin. apply in_map_iff in Hin as ([k v] & <- & Hin).
    unfold plainEntries in Hm. rewrite forallb_forall in Hm.
    apply Hm in Hin. apply andb_true_iff in Hin as [Hk Hv].
    now apply formatEntry_line.
Qed.

Lemma roundtrip_witness :
  readRootTxt
    (Some (formatEntries
             [(str "10", str "10.pdf");
              (str "daily-briefing", str "daily-briefing-20240501.pdf");
              (str "notes", str "notes.thisismy.txt")]))
  = [(str "10", str "10.pdf");
     (str "daily-briefing", str "daily-briefing-20240501.pdf");
     (str "notes", str "notes.thisismy.txt")].
Proof. apply roundtrip; vm_compute; reflexivity. Defined.

(* ------------------------------------------------------------------ *)
(** ** Lines that match and lines that do not *)

(** C8, as stated, fails: a line that ends with a carriage return, as in a
    file with CRLF line ends, has a key, a colon, white space and a rest
    that is not empty, and it is ignored, because [.] does not match a
    line terminator and [$] only matches at the end. *)
Lemma readRootTxt_crlf_line_ignored :
  entryFormLoose (str "k: v" ++ [carriageReturn]) (str "k") /\
  parseLine (str "k: v" ++ [carriageReturn]) = None /\
  readRootTxt (Some (str "k: v" ++ [carriageReturn])) = empty.
Proof.
  split; [|vm_compute; now split].
  exists [(chr " ")], (str "v" ++ [carriageReturn]).
  repeat split; try reflexivity; discriminate.
Qed.

(** C8, amended: reading never fails and gives an object; a line made of
    a key that is not empty and has no colon, a colon, optional white
    space and a rest that is not empty and has no line terminator sets its
    key (for a key other than [__proto__], the object has the entry once
    the line is read) to what follows the colon and the white space; every
    other line is ignored. *)
Theorem readRootTxt_lines (content : jsstring)
  (before : list jsstring) (line : jsstring) (after : list jsstring) :
  split content = before ++ line :: after ->
  wf (readRootTxt (Some content)) /\
  (forall key, entryForm line key ->
     exists ws v,
       line = key ++ colon :: ws ++ v /\ forallb isWhiteSpace ws = true /\
       parseLine line = Some (key, v) /\
       (key <> proto ->
        getOwn key (fold_left addLine (before ++ [line]) empty) = Some v)) /\
  ((forall key, ~ entryForm line key) ->
     parseLine line = None /\
     readRootTxt (Some content) = fold_left addLine (before ++ after) empty).
Proof.
  intros Hs. split; [apply wf_readRootTxt|]. split.
  - intros key Hf. destruct (entryOf_form Hf) as [v Hv].
    destruct (entryOf_inv _ Hv) as (_ & ws & Hl & Hws).
    exists ws, v. rewrite parseLine_entryOf.
    repeat split; try assumption.
    intros Hk. rewrite fold_left_app. simpl. unfold addLine at 1.
    rewrite parseLine_entryOf, Hv, getOwn_set, str_eqb_refl.
    apply str_eqb_neq in Hk. now rewrite Hk.
  - intros Hn. apply parseLine_None in Hn. split; [exact Hn|].
    unfold readRootTxt. rewrite Hs, !fold_left_app. simpl.
    unfold addLine at 2. now rewrite Hn.
Qed.

Lemma readRootTxt_lines_witness :
  getOwn (str "b")
    (fold_left addLine ([str "a: 1"; str "no entry"] ++ [str "b:  2"]) empty)
  = Some (str "2").
Proof.
  destruct (@readRootTxt_lines
              (str "a: 1" ++ newline :: str "no entry" ++ newline :: str "b:  2")
              [str "a: 1"; str "no entry"] (str "b:  2") [] eq_refl)
    as (_ & H & _).
  destruct (H (str "b")) as (ws & v & Hl & _ & Hp & Hg).
  - exists [(chr " "); (chr " ")], (str "2"). repeat split; try reflexivity; discriminate.
  - rewrite Hg by discriminate. f_equal.
    vm_compute in Hp. now injection Hp as <-.
Defined.

(* ------------------------------------------------------------------ *)
(** ** The end of the serialized text *)

Lemma endsWith_chr c s : endsWith [c] s = true <-> exists a, s = a ++ [c].
Proof.
  split.
  - intros H. apply endsWith_inv in H. eauto.
  - intros [a ->]. apply endsWith_app.
Qed.

Lemma join_last sep x : forall l, exists p, join sep (l ++ [x]) = p ++ x.
Proof.
  induction l as [|y l [p IH]].
  - now exists [].
  - exists (y ++ sep ++ p). cbn [app].
    change (join sep (y :: l ++ [x]))
      with (match l ++ [x] with [] => y | _ :: _ => y ++ sep ++ join sep (l ++ [x]) end).
    destruct (l ++ [x]) eqn:E; [now destruct l|].
    now rewrite IH, !app_assoc.
Qed.

(** C10, as stated, fails: the file name [a] followed by a newline is its
    own key and value, and the serialized text ends with that newline. *)
Lemma formatEntries_value_newline :
  let m := generateKeys [str "a" ++ [newline]] in
  m = [(str "a" ++ [newline], str "a" ++ [newline])] /\
  endsWith [newline] (formatEntries m) = true.
Proof. vm_compute. now split. Qed.

(** C10, amended: serializing the empty mapping yields the empty string,
    and the serialized text does not end with a newline when the value of
    the last entry does not end with one. *)
Theorem formatEntries_end (entries : object) :
  formatEntries empty = [] /\
  (endsWith [newline] (lastValue entries) = false ->
   endsWith [newline] (formatEntries entries) = false).
Proof.
  split; [reflexivity|]. intros H.
  induction entries as [|[k v] es _] using rev_ind; [reflexivity|].
  unfold lastValue in H. rewrite rev_app_distr in H. simpl in H.
  unfold formatEntries, Obj.entries. rewrite map_app. cbn [map].
  destruct (join_last [newline] (formatEntry (k, v)) (map formatEntry es))
    as [p ->].
  destruct (endsWith [newline] (p ++ formatEntry (k, v))) eqn:E; [|reflexivity].
  apply endsWith_chr in E as [a E]. rewrite formatEntry_cons in E.
  induction v as [|z v' _] using rev_ind.
  - replace (p ++ k ++ [colon; (chr " ")])
      with ((p ++ k ++ [colon]) ++ [(chr " ")]) in E
      by now rewrite <- !app_assoc.
    apply app_inj_tail in E as [_ E]. discriminate E.
  - replace (p ++ k ++ colon :: (chr " ") :: v' ++ [z])
      with ((p ++ k ++ colon :: (chr " ") :: v') ++ [z]) in E
      by now rewrite <- !app_assoc.
    apply app_inj_tail in E as [_ ->]. now rewrite endsWith_app in H.
Qed.

Lemma formatEntries_end_witness :
  endsWith [newline]
    (formatEntries [(str "notes", str "notes.txt"); (str "report", str "report-1.pdf")])
  = false.
Proof.
  apply (formatEntries_end
           [(str "notes", str "notes.txt"); (str "report", str "report-1.pdf")]).
  vm_compute. reflexivity.
Defined.

(* ------------------------------------------------------------------ *)
(** ** Further properties of the key of a file name *)

Lemma dropSuffix_firstn suffix s : exists n, dropSuffix suffix s = firstn n s.
Proof.
  unfold dropSuffix. destruct (endsWith suffix s); eauto.
  exists (length s). now rewrite firstn_all.
Qed.

Lemma dropExtension_firstn s : exists n, dropExtension s = firstn n s.
Proof.
  unfold dropExtension.
  destruct (extension s) as [[|y e]|];
    try (exists (length s); now rewrite firstn_all).
  destruct (existsb (chr_eqb slash) (y :: e)); eauto.
  exists (length s). now rewrite firstn_all.
Qed.

Lemma baseNamePrefix_firstn : forall s p a,
  baseNamePrefix p s = Some a -> a = firstn (length a) s /\ pairFrom p a = false.
Proof.
  induction s as [|x t IH]; intros p a; [discriminate|].
  cbn [baseNamePrefix]. destruct (p && isDigit x) eqn:E.
  - intros [= <-]. split; [reflexivity|]. unfold pairFrom. simpl.
    now rewrite andb_false_r.
  - destruct (baseNamePrefix (chr_eqb hyphen x) t) as [a'|] eqn:Ea; [|discriminate].
    intros [= <-]. destruct (IH _ _ Ea) as [H1 H2]. split.
    + simpl. now rewrite <- H1.
    + unfold pairFrom in *. rewrite hyphenDigit_cons. cbn [headDigit].
      rewrite E. exact H2.
Qed.

Lemma baseNamePrefix_None_inv : forall s p,
  baseNamePrefix p s = None -> pairFrom p s = false.
Proof.
  induction s as [|x t IH]; intros p H.
  - unfold pairFrom. simpl. now rewrite andb_false_r.
  - cbn [baseNamePrefix] in H. destruct (p && isDigit x) eqn:E; [discriminate|].
    destruct (baseNamePrefix (chr_eqb hyphen x) t) eqn:Ea; [discriminate|].
    apply IH in Ea. unfold pairFrom in *. rewrite hyphenDigit_cons.
    cbn [headDigit]. now rewrite E.
Qed.

(** What [deriveKey] lowercases is a prefix of the file name without a
    hyphen that has a digit right after it. *)
Lemma baseName_firstn filename :
  exists n,
    dropSuffix [hyphen]
      match baseNamePrefix false (stripName filename) with
      | Some m0 => m0
      | None => stripName filename
      end = firstn n filename.
Proof.
  assert (Hs : exists n, stripName filename = firstn n filename).
  { unfold stripName.
    destruct (dropExtension_firstn filename) as [n1 ->].
    destruct (dropSuffix_firstn (str ".thisismy") (firstn n1 filename)) as [n2 ->].
    exists (Nat.min n2 n1). apply firstn_firstn. }
  destruct Hs as [n Hs].
  assert (Hb : exists n',
    match baseNamePrefix false (stripName filename) with
    | Some m0 => m0
    | None => stripName filename
    end = firstn n' filename).
  { destruct (baseNamePrefix false (stripName filename)) as [a|] eqn:E; [|eauto].
    apply baseNamePrefix_firstn in E as [E _]. rewrite E, Hs.
    exists (Nat.min (length a) n). apply firstn_firstn. }
  destruct Hb as [n' ->].
  destruct (dropSuffix_firstn [hyphen] (firstn n' filename)) as [n2 ->].
  exists (Nat.min n2 n'). apply firstn_firstn.
Qed.

Lemma hyphenDigit_firstn : forall n s,
  hyphenDigit s = false -> hyphenDigit (firstn n s) = false.
Proof.
  induction n as [|n IH]; intros [|x t] H; try reflexivity.
  rewrite hyphenDigit_cons in H. apply orb_false_iff in H as [H1 H2].
  cbn [firstn]. rewrite hyphenDigit_cons, IH by exact H2.
  rewrite orb_false_r. destruct (chr_eqb hyphen x); [|reflexivity].
  simpl in *. destruct n; [reflexivity|]. now destruct t.
Qed.

(** X1: the key of a file name is the lowercase of a prefix of the file
    name, and in this prefix no hyphen has a digit right after it. *)
Theorem deriveKey_shape (filename : jsstring) :
  exists prefix rest,
    filename = prefix ++ rest /\
    deriveKey filename = toLowerCase prefix /\
    hyphenDigit prefix = false.
Proof.
  rewrite deriveKey_eq. destruct (baseName_firstn filename) as [n E].
  exists (firstn n filename), (skipn n filename).
  split; [symmetry; apply firstn_skipn|]. split; [now rewrite E|].
  rewrite <- E.
  destruct (baseNamePrefix false (stripName filename)) as [a|] eqn:Ea.
  - apply baseNamePrefix_firstn in Ea as [_ Ea]. unfold pairFrom in Ea.
    simpl in Ea. destruct (dropSuffix_firstn [hyphen] a) as [n' ->].
    now apply hyphenDigit_firstn.
  - apply baseNamePrefix_None_inv in Ea. unfold pairFrom in Ea. simpl in Ea.
    destruct (dropSuffix_firstn [hyphen] (stripName filename)) as [n' ->].
    now apply hyphenDigit_firstn.
Qed.

(* ------------------------------------------------------------------ *)
(** ** Further properties of [generateKeys] *)



(* ------------------------------------------------------------------ *)
(** ** Further properties of [readRootTxt] *)

Lemma split_cons_inv s : exists l ls, split s = l :: ls.
Proof.
  induction s as [|c s (l & ls & IH)]; simpl; [eauto|].
  destruct (chr_eqb c newline); [eauto|]. rewrite IH. eauto.
Qed.

Lemma split_no_newline : forall s l, In l (split s) -> ~ In newline l.
Proof.
  induction s as [|c s IH]; simpl; intros l H.
  - destruct H as [<-|[]]. easy.
  - destruct (chr_eqb c newline) eqn:E.
    + destruct H as [<-|H]; [easy | now apply IH].
    + destruct (split s) as [|l0 ls] eqn:Es.
      * destruct H as [<-|[]]. intros [->|[]]. now rewrite chr_eqb_refl in E.
      * destruct H as [<-|H].
        -- intros [->|H]; [now rewrite chr_eqb_refl in E|].
           apply (IH l0); [now left | exact H].
        -- apply IH. now right.
Qed.

Lemma split_append a b : split (a ++ newline :: b) = split a ++ split b.
Proof.
  induction a as [|c a IH]; simpl.
  - reflexivity.
  - destruct (chr_eqb c newline); [now rewrite IH|].
    rewrite IH. now destruct (split_cons_inv a) as (l & ls & ->).
Qed.

Lemma lineEntries_In ls k v :
  In (k, v) (lineEntries ls) -> exists line, In line ls /\ parseLine line = Some (k, v).
Proof.
  unfold lineEntries. rewrite in_flat_map. intros (line & Hl & H).
  exists line. split; [exact Hl|].
  destruct (parseLine line) as [e|]; [|contradiction].
  destruct H as [->|[]]. reflexivity.
Qed.

Lemma getOwn_fold_addLine_other k : forall ls o,
  (forall l v, In l ls -> parseLine l <> Some (k, v)) ->
  getOwn k (fold_left addLine ls o) = getOwn k o.
Proof.
  induction ls as [|l ls IH]; intros o H; [reflexivity|].
  simpl. rewrite IH by (intros l' v Hl'; apply H; now right).
  unfold addLine. destruct (parseLine l) as [[k' v']|] eqn:E; [|reflexivity].
  rewrite getOwn_set. destruct (str_eqb k' proto); [reflexivity|].
  case_eqb k k'; [|reflexivity].
  exfalso. apply (H l v'); [now left | exact E].
Qed.

Lemma entryOf_value line k v :
  entryOf line = Some (k, v) -> v <> [] /\ forallb isDot v = true.
Proof.
  unfold entryOf.
  destruct (takeWhile (not_chr colon) line) as [|x key]; [discriminate|].
  destruct (dropWhile (not_chr colon) line) as [|c s0]; [discriminate|].
  destruct (entryValue s0) as [v'|] eqn:Ev; [|discriminate].
  intros [= _ <-]. apply entryValue_inv in Ev as (ws & _ & _ & Hv & Hd).
  now split.
Qed.

(** X3: every entry read from root.txt has a key that is not empty, is not
    [__proto__] and has no colon and no newline, and a value that is not
    empty and has no line terminator. *)
Theorem readRootTxt_entries (file : option jsstring) (k v : jsstring) :
  getOwn k (readRootTxt file) = Some v ->
  k <> [] /\ k <> proto /\ forallb (not_chr colon) k = true /\
  ~ In newline k /\ v <> [] /\ forallb isDot v = true.
Proof.
  intros H. assert (Hp : k <> proto).
  { intros ->. pose proof (wf_proto (wf_readRootTxt file)) as Hp.
    apply getOwn_None in Hp. congruence. }
  destruct file as [content|]; [|discriminate].
  rewrite readRootTxt_last_line in H by exact Hp.
  destruct (find _ _) as [[k' v']|] eqn:E; [|discriminate].
  simpl in H. injection H as ->. apply find_some in E as [E1 E2].
  simpl in E2. apply str_eqb_eq in E2. subst k'.
  apply in_rev, lineEntries_In in E1 as (line & Hl & Hparse).
  apply split_no_newline in Hl. rewrite parseLine_entryOf in Hparse.
  destruct (entryOf_value _ Hparse) as [Hv Hd].
  apply entryOf_inv in Hparse as ((ws & rem & _ & Hk & Hc & _) & ws' & Hline & _).
  repeat split; try assumption.
  intros Hin. apply Hl. rewrite Hline. apply in_or_app. now left.
Qed.

Lemma readRootTxt_entries_witness :
  str "a" <> [] /\ str "a" <> proto /\
  forallb (not_chr colon) (str "a") = true /\
  ~ In newline (str "a") /\ str "b" <> [] /\ forallb isDot (str "b") = true.
Proof.
  exact (@readRootTxt_entries (Some (str "a: b")) (str "a") (str "b") eq_refl).
Defined.

(** X4: the last line that sets a key other than [__proto__] decides its
    value, whatever the lines before it are. *)
Theorem readRootTxt_last (content : jsstring)
  (before : list jsstring) (line : jsstring) (after : list jsstring)
  (k v : jsstring) :
  split content = before ++ line :: after ->
  parseLine line = Some (k, v) ->
  k <> proto ->
  (forall l v', In l after -> parseLine l <> Some (k, v')) ->
  getOwn k (readRootTxt (Some content)) = Some v.
Proof.
  intros Hs Hl Hk Hafter. unfold readRootTxt.
  rewrite Hs, fold_left_app. simpl.
  rewrite getOwn_fold_addLine_other by exact Hafter.
  unfold addLine. rewrite Hl, getOwn_set, str_eqb_refl.
  apply str_eqb_neq in Hk. now rewrite Hk.
Qed.

Lemma readRootTxt_last_witness :
  getOwn (str "a")
    (readRootTxt (Some (str "a: 1" ++ newline :: str "a: 2" ++ newline :: str "b: 3")))
  = Some (str "2").
Proof.
  apply (@readRootTxt_last _ [str "a: 1"] (str "a: 2") [str "b: 3"]).
  - reflexivity.
  - reflexivity.
  - discriminate.
  - intros l v' [<-|[]]. vm_compute. discriminate.
Defined.

(** X5: reading a text that continues after a newline is reading the text
    before it and then the lines after it; a newline at the end of the file
    changes nothing. *)
Theorem readRootTxt_append (a b : jsstring) :
  readRootTxt (Some (a ++ newline :: b))
  = fold_left addLine (split b) (readRootTxt (Some a)) /\
  readRootTxt (Some (a ++ [newline])) = readRootTxt (Some a).
Proof.
  unfold readRootTxt. rewrite !split_append, !fold_left_app. now split.
Qed.

(* ------------------------------------------------------------------ *)
(** ** Further properties of [updateEntries] *)

(** X6: after the update, a key of the fresh mapping has the value of the
    fresh mapping; a key that the fresh mapping does not have is absent,
    unless it is a property name of [Object.prototype], in which case it
    is as it was before. *)
Theorem updateEntries_lookup (existing new : object) :
  wf existing -> wf new ->
  (forall k v, getOwn k new = Some v ->
     getOwn k (updateEntries existing new) = Some v) /\
  (forall k, getOwn k new = None -> inherited k = false ->
     getOwn k (updateEntries existing new) = None) /\
  (forall k, getOwn k new = None -> inherited k = true ->
     getOwn k (updateEntries existing new) = getOwn k existing).
Proof.
  intros He Hn. repeat split; intros k; intros;
    rewrite getOwn_updateEntries by assumption.
  - now rewrite H.
  - now rewrite H, H0.
  - now rewrite H, H0.
Qed.

Lemma updateEntries_lookup_witness :
  getOwn (str "old")
    (updateEntries [(str "old", str "old-1.pdf"); (str "report", str "report-1.pdf")]
                   [(str "report", str "report-2.pdf")])
  = None.
Proof.
  apply (@updateEntries_lookup
           [(str "old", str "old-1.pdf"); (str "report", str "report-1.pdf")]
           [(str "report", str "report-2.pdf")]); reflexivity.
Defined.

(** Updating once more with the same fresh mapping changes nothing, when
    no value of the fresh mapping is empty. *)
Lemma updateEntries_stable (existing new : object) :
  wf existing -> wf new -> nonEmptyValues new = true ->
  updateEntries (updateEntries existing new) new = updateEntries existing new.
Proof.
  intros He Hn Hv'. pose proof (@nonEmptyValues_In new Hv') as Hv.
  pose proof (wf_updateEntries new He) as Hu.
  set (u := updateEntries existing new) in *.
  rewrite updateEntries_prune, prune_filter by now apply wf_NoDup.
  assert (E : filter (fun e => keep new (fst e)) u = u).
  { apply forallb_filter_id. apply forallb_forall. intros [k v] Hin.
    simpl. apply In_getOwn in Hin; [|now apply wf_NoDup].
    unfold u in Hin. rewrite getOwn_updateEntries in Hin by assumption.
    unfold keep, get. destruct (getOwn k new) as [w|] eqn:Ew.
    - apply getOwn_In, Hv in Ew. now destruct w.
    - now destruct (inherited k). }
  rewrite E, assign_assignAll. apply assignAll_same.
  intros k v Hin. unfold u. rewrite getOwn_updateEntries by assumption.
  now rewrite (In_getOwn k v new (wf_NoDup Hn) Hin).
Qed.

(** X7: merging the same fresh mapping a second time changes nothing, order
    included, when no value of the fresh mapping is empty; and with no
    previous entries the result is the fresh mapping. *)
Theorem updateEntries_again (existing new : object) :
  wf existing -> wf new -> nonEmptyValues new = true ->
  updateEntries (updateEntries existing new) new = updateEntries existing new /\
  updateEntries empty new = new.
Proof.
  intros He Hn Hv. split; [now apply updateEntries_stable|].
  now apply assign_empty_wf.
Qed.

Lemma updateEntries_again_witness :
  updateEntries
    (updateEntries [(str "old", str "old-1.pdf")] [(str "report", str "report-2.pdf")])
    [(str "report", str "report-2.pdf")]
  = updateEntries [(str "old", str "old-1.pdf")] [(str "report", str "report-2.pdf")].
Proof.
  apply (@updateEntries_again [(str "old", str "old-1.pdf")]
           [(str "report", str "report-2.pdf")]); reflexivity.
Defined.

(* ------------------------------------------------------------------ *)
(** ** Further properties of [formatEntries] and of the text that is written *)

Lemma formatEntry_no_newline k v :
  ~ In newline k -> ~ In newline v -> ~ In newline (formatEntry (k, v)).
Proof.
  intros Hk Hv. rewrite formatEntry_cons. intros Hin.
  apply in_app_or in Hin as [Hin|[Hin|[Hin|Hin]]];
    [contradiction | discriminate | discriminate | contradiction].
Qed.

(** X8: the text has one line per entry, in the order of the entries, when
    no key and no value has a newline. *)
Theorem formatEntries_lines (entries : object) :
  entries <> [] ->
  (forall k v, In (k, v) entries -> ~ In newline k /\ ~ In newline v) ->
  split (formatEntries entries) = map formatEntry entries.
Proof.
  intros Hne H. unfold formatEntries, Obj.entries. apply split_join.
  - now destruct entries.
  - intros l Hin. apply in_map_iff in Hin as ([k v] & <- & Hin).
    destruct (H k v Hin). now apply formatEntry_no_newline.
Qed.

Lemma formatEntries_lines_witness :
  split (formatEntries [(str "notes", str "notes.txt"); (str "report", str "report-1.pdf")])
  = [str "notes: notes.txt"; str "report: report-1.pdf"].
Proof.
  apply (@formatEntries_lines
           [(str "notes", str "notes.txt"); (str "report", str "report-1.pdf")]).
  - discriminate.
  - intros k v [H|[H|[]]]; injection H as <- <-; split; vm_compute;
      intuition discriminate.
Defined.

(** What is written is read back as it was, under [plainEntries]. *)
Lemma read_back (entries : object) :
  wf entries -> plainEntries entries = true ->
  readRootTxt (Some (formatEntries entries)) = entries.
Proof.
  intros Hwf Hm. unfold readRootTxt, formatEntries, Obj.entries.
  destruct entries as [|e es]; [reflexivity|].
  rewrite split_join.
  - rewrite fold_addLine_format by exact Hm. now apply (assignAll_wf (e :: es) []).
  - discriminate.
  - intros l Hin. apply in_map_iff in Hin as ([k v] & <- & Hin).
    unfold plainEntries in Hm. rewrite forallb_forall in Hm.
    apply Hm in Hin. apply andb_true_iff in Hin as [Hk Hv].
    now apply formatEntry_line.
Qed.

(** X9: a second run on the same directory writes the same text again,
    when the entries written by the first run have keys and values that a
    line can carry. *)
Theorem updatedContent_again (file : option jsstring) (briefingFiles : list jsstring) :
  plainEntries (updateEntries (readRootTxt file) (generateKeys briefingFiles)) = true ->
  updatedContent (Some (updatedContent file briefingFiles)) briefingFiles
  = updatedContent file briefingFiles.
Proof.
  intros Hplain. unfold updatedContent.
  pose proof (wf_readRootTxt file) as He.
  pose proof (wf_generateKeys briefingFiles) as Hn.
  set (new := generateKeys briefingFiles) in *.
  set (existing := readRootTxt file) in *.
  rewrite read_back; [| now apply wf_updateEntries | exact Hplain].
  rewrite updateEntries_stable; [reflexivity | assumption..|].
  unfold nonEmptyValues. apply forallb_forall. intros [k v] Hin. simpl.
  assert (Hu : In (k, v) (updateEntries existing new)).
  { apply getOwn_In. rewrite getOwn_updateEntries by assumption.
    now rewrite (In_getOwn k v new (wf_NoDup Hn) Hin). }
  unfold plainEntries in Hplain. rewrite forallb_forall in Hplain.
  apply Hplain in Hu. simpl in Hu. apply andb_true_iff in Hu as [_ Hu].
  now destruct v.
Qed.

Lemma updatedContent_again_witness :
  updatedContent
    (Some (updatedContent (Some (str "old: old-1.pdf"))
             [str "report-20240201.pdf"; str "notes.thisismy.txt"]))
    [str "report-20240201.pdf"; str "notes.thisismy.txt"]
  = updatedContent (Some (str "old: old-1.pdf"))
      [str "report-20240201.pdf"; str "notes.thisismy.txt"].
Proof. apply updatedContent_again. vm_compute. reflexivity. Defined.

(* ------------------------------------------------------------------ *)
(** ** The answers that count as yes *)

Lemma searchq_bos (r : regexq) : forall s i,
  searchq (Seq (Base Bos) r) (S i) s = None.
Proof. induction s as [|x s IH]; intros i; simpl; [reflexivity | apply IH]. Qed.

Lemma test_bos (r : regexq) (s : jsstring) :
  test (Seq (Base Bos) r) s =
  match mq r (MState 0 s []) Some with Some _ => true | None => false end.
Proof.
  unfold test. destruct s as [|x s]; simpl.
  - now destruct (mq r _ _).
  - destruct (mq r _ _); [reflexivity | now rewrite searchq_bos].
Qed.

(** [/^y(es)?$/i] on a string, character by character. *)
Lemma test_reYes (s : jsstring) :
  test reYes s =
  match s with
  | [a] => chr_ci (chr "y") a
  | [a; b; c] => chr_ci (chr "y") a && chr_ci (chr "e") b && chr_ci (chr "s") c
  | _ => false
  end.
Proof.
  unfold reYes. rewrite test_bos.
  destruct s as [|a [|b [|c [|d t]]]]; cbn [mq m rest pos caps];
    repeat match goal with
           | |- context [chr_ci ?x ?y] => destruct (chr_ci x y)
           end; reflexivity.
Qed.

Lemma canonicalize_letter (c : codeUnit) (m : nat) :
  97 <= m <= 122 ->
  (canonicalize c =? m - 32) = (code c =? m) || (code c =? m - 32).
Proof.
  intros Hm. unfold canonicalize. generalize (code c). intros n.
  destruct (Nat.leb_spec 97 n), (Nat.leb_spec n 122); cbn [andb].
  - destruct (Nat.eqb_spec (n - 32) (m - 32)), (Nat.eqb_spec n m),
      (Nat.eqb_spec n (m - 32)); try reflexivity; lia.
  - destruct (Nat.leb_spec 224 n), (Nat.leb_spec n 254), (Nat.eqb_spec n 247),
      (Nat.eqb_spec n 255), (Nat.eqb_spec n 181); cbn [andb negb];
      match goal with
      | |- (?x =? _) = _ => destruct (Nat.eqb_spec x (m - 32))
      end;
      destruct (Nat.eqb_spec n m), (Nat.eqb_spec n (m - 32));
      try reflexivity; lia.
  - destruct (Nat.leb_spec 224 n); [lia|]. cbn [andb].
    destruct (Nat.eqb_spec n 255); [lia|]. destruct (Nat.eqb_spec n 181); [lia|].
    destruct (Nat.eqb_spec n m); [lia|]. now rewrite orb_false_l.
  - lia.
Qed.

Lemma toLowerChar_letter (c a : codeUnit) :
  97 <= code a <= 122 ->
  chr_eqb (toLowerChar c) a = (code c =? code a) || (code c =? code a - 32).
Proof.
  intros Ha. unfold toLowerChar, isUpper, chr_eqb, code in *.
  set (n := N.to_nat c) in *. set (m := N.to_nat a) in *.
  assert (Hc : c = N.of_nat n) by (symmetry; apply N2Nat.id).
  assert (Hm : a = N.of_nat m) by (symmetry; apply N2Nat.id).
  assert (Hu : (65 <=? n) && (n <=? 90)
               || (192 <=? n) && (n <=? 222) && negb (n =? 215) = true <->
               65 <= n <= 90 \/ (192 <= n <= 222 /\ n <> 215)).
  { rewrite orb_true_iff, !andb_true_iff, negb_true_iff, !Nat.leb_le, Nat.eqb_neq.
    tauto. }
  destruct ((65 <=? n) && (n <=? 90)
            || (192 <=? n) && (n <=? 222) && negb (n =? 215)) eqn:Eu.
  - assert (Hn : 65 <= n <= 90 \/ (192 <= n <= 222 /\ n <> 215)) by now apply Hu.
    destruct (N.eqb_spec (N.of_nat (n + 32)) a),
      (Nat.eqb_spec n m), (Nat.eqb_spec n (m - 32)); try reflexivity; lia.
  - assert (Hn : ~ (65 <= n <= 90 \/ (192 <= n <= 222 /\ n <> 215))).
    { intros H. apply Hu in H. discriminate. }
    destruct (N.eqb_spec c a),
      (Nat.eqb_spec n m), (Nat.eqb_spec n (m - 32)); try reflexivity; lia.
Qed.

Lemma chr_ci_lower (a c : codeUnit) :
  In a [(chr "y"); (chr "e"); (chr "s")] ->
  chr_ci a c = chr_eqb (toLowerChar c) a.
Proof.
  intros Ha.
  assert (Ea : canonicalize a = code a - 32 /\ 97 <= code a <= 122).
  { destruct Ha as [<-|[<-|[<-|[]]]]; vm_compute; repeat split; lia. }
  destruct Ea as [Ec Ha']. unfold chr_ci. rewrite Ec.
  rewrite canonicalize_letter by exact Ha'.
  now rewrite toLowerChar_letter by exact Ha'.
Qed.

Lemma affirmative_saysYes (choice : jsstring) :
  affirmative choice = true <-> saysYes choice.
Proof.
  unfold affirmative, saysYes. rewrite test_reYes.
  change (str "y") with [chr "y"].
  change (str "yes") with [chr "y"; chr "e"; chr "s"].
  destruct (trim choice) as [|a [|b [|c [|d t]]]]; cbn [toLowerCase map];
    try (split; [discriminate | intros [H|H]; discriminate]).
  - rewrite (@chr_ci_lower (chr "y") a) by (simpl; auto).
    rewrite chr_eqb_eq. split.
    + intros H. rewrite H. now left.
    + intros [H|H]; [now injection H | discriminate].
  - rewrite (@chr_ci_lower (chr "y") a), (@chr_ci_lower (chr "e") b),
      (@chr_ci_lower (chr "s") c) by (simpl; auto).
    rewrite !andb_true_iff, !chr_eqb_eq. split.
    + intros [[Ha Hb] Hc]. rewrite Ha, Hb, Hc. now right.
    + intros [H|H]; [discriminate | now injection H].
Qed.

Lemma affirmative_false (choice : jsstring) :
  affirmative choice = false <-> ~ saysYes choice.
Proof.
  rewrite <- affirmative_saysYes. destruct (affirmative choice).
  - split; [discriminate | intros H; now elim H].
  - split; [intros _ H; discriminate | reflexivity].
Qed.

(** X10: an answer counts as yes exactly when, white space at both ends
    removed and letters lowercased, it is [y] or [yes]. *)
Theorem affirmative_spec (choice : jsstring) :
  affirmative choice = true <->
  toLowerCase (trim choice) = str "y" \/ toLowerCase (trim choice) = str "yes".
Proof. apply affirmative_saysYes. Qed.

Example affirmative_examples :
  map affirmative [str "y"; str " YES "; str "Yes"; str "yeah"; str "no"; []; str "ye"]
  = [true; true; true; false; false; false; false].
Proof. reflexivity. Qed.

(* ------------------------------------------------------------------ *)
(** ** Runs: sequencing *)

Lemma traces_bind (A B : Type) (p : io A) (f : A -> io B) :
  forall tr out,
  traces (bind p f) tr out <->
  (exists o, traces p tr o /\ cut B o = Some out) \/
  (exists a tr1 tr2,
     traces p tr1 (Returned a) /\ traces (f a) tr2 out /\ tr = tr1 ++ tr2).
Proof.
  induction p as [a|code| |T c k IH]; intros tr out; simpl.
  - split.
    + intros H. right. exists a, [], tr. auto.
    + intros [(o & [_ ->] & H)|(a' & tr1 & tr2 & [-> H] & Hf & ->)];
        [discriminate | now injection H as <-].
  - split.
    + intros [-> ->]. left. exists (Exited code). auto.
    + intros [(o & [-> ->] & H)|(a' & tr1 & tr2 & [_ H] & _)];
        [now injection H as <- | discriminate].
  - split.
    + intros [-> ->]. left. exists Stopped. auto.
    + intros [(o & [-> ->] & H)|(a' & tr1 & tr2 & [_ H] & _)];
        [now injection H as <- | discriminate].
  - split.
    + intros (r & tr' & -> & H). apply IH in H.
      destruct H as [(o & H & Ho)|(a & tr1 & tr2 & H1 & H2 & ->)].
      * left. exists o. split; [exists r, tr'|]; auto.
      * right. exists a, (observe c r :: tr1), tr2.
        split; [exists r, tr1; auto | auto].
    + intros [(o & (r & tr' & -> & H) & Ho)
             |(a & tr1 & tr2 & (r & tr' & -> & H) & H2 & ->)].
      * exists r, tr'. split; [reflexivity|]. apply IH. left. exists o. auto.
      * exists r, (tr' ++ tr2). split; [reflexivity|]. apply IH. right.
        exists a, tr', tr2. auto.
Qed.

Lemma traces_tryBind (A B : Type) (p : io (result A)) (f : A -> io (result B)) :
  forall tr out,
  traces (tryBind p f) tr out <->
  (exists o, traces p tr o /\ cut (result B) o = Some out) \/
  (exists message,
     traces p tr (Returned (Throw message)) /\ out = Returned (Throw message)) \/
  (exists a tr1 tr2,
     traces p tr1 (Returned (Ok a)) /\ traces (f a) tr2 out /\ tr = tr1 ++ tr2).
Proof.
  intros tr out. unfold tryBind. rewrite traces_bind. split.
  - intros [H|(r & tr1 & tr2 & H1 & H2 & ->)]; [now left|].
    destruct r as [a|message].
    + right. right. exists a, tr1, tr2. auto.
    + simpl in H2. destruct H2 as [-> ->]. right. left. exists message.
      rewrite app_nil_r. auto.
  - intros [H|[(message & H & ->)|(a & tr1 & tr2 & H1 & H2 & ->)]]; [now left| |].
    + right. exists (Throw message), tr, []. rewrite app_nil_r. simpl. auto.
    + right. exists (Ok a), tr1, tr2. auto.
Qed.

Lemma traces_attempt (T : Type) (c : call (result T)) tr (out : outcome (result T)) :
  traces (attempt c) tr out <-> exists r, tr = [observe c r] /\ out = Returned r.
Proof.
  simpl. split.
  - intros (r & tr' & -> & -> & ->). eauto.
  - intros (r & -> & ->). exists r, []. auto.
Qed.

Lemma traces_after (A : Type) (c : call unit) (p : io A) tr out :
  traces (after c p) tr out <-> exists tr', tr = observe c tt :: tr' /\ traces p tr' out.
Proof.
  simpl. split.
  - intros ([] & tr' & -> & H). eauto.
  - intros (tr' & -> & H). exists tt, tr'. auto.
Qed.

(* ------------------------------------------------------------------ *)
(** ** Runs of commands *)

Lemma traces_script (steps : list step) :
  forall tr out,
  traces (script steps) tr out <->
  (tr = map done steps /\ out = Returned (Ok tt)) \/
  (exists before command later message,
     steps = before ++ Cmd command :: later /\
     tr = map done before ++ [Ran command (Throw message)] /\
     out = Returned (Throw message)).
Proof.
  induction steps as [|s steps IH]; intros tr out.
  - simpl. split.
    + intros [-> ->]. now left.
    + intros [[-> ->]|(before & command & later & message & H & _)]; [auto|].
      now destruct before.
  - destruct s as [command|text].
    + cbn [script]. rewrite traces_tryBind. split.
      * intros [(o & H & Ho)|[(message & H & ->)|(a & tr1 & tr2 & H1 & H2 & ->)]].
        -- apply traces_attempt in H. destruct H as (r & _ & ->). discriminate Ho.
        -- apply traces_attempt in H. destruct H as (r & -> & H).
           injection H as <-. right. exists [], command, steps, message. simpl. auto.
        -- apply traces_attempt in H1. destruct H1 as (r & -> & H).
           injection H as <-. apply IH in H2.
           destruct H2 as [[-> ->]|(before & c & later & message & -> & -> & ->)].
           ++ left. destruct a. simpl. auto.
           ++ right. exists (Cmd command :: before), c, later, message.
              destruct a. simpl. auto.
      * intros [[-> ->]|(before & c & later & message & H & -> & ->)].
        -- right. right. exists tt, [Ran command (Ok tt)], (map done steps).
           split; [apply traces_attempt; exists (Ok tt); auto|].
           split; [apply IH; now left | reflexivity].
        -- destruct before as [|s0 before]; simpl in H; inversion H; subst.
           ++ right. left. exists message.
              split; [apply traces_attempt; exists (Throw message); auto | reflexivity].
           ++ right. right.
              exists tt, [Ran command (Ok tt)],
                (map done before ++ [Ran c (Throw message)]).
              split; [apply traces_attempt; exists (Ok tt); auto|].
              split; [|reflexivity]. apply IH. right.
              exists before, c, later, message. auto.
    + cbn [script]. rewrite traces_after. split.
      * intros (tr' & -> & H). apply IH in H.
        destruct H as [[-> ->]|(before & c & later & message & -> & -> & ->)].
        -- now left.
        -- right. exists (Say text :: before), c, later, message. auto.
      * intros [[-> ->]|(before & c & later & message & H & -> & ->)].
        -- exists (map done steps). split; [reflexivity|]. apply IH. now left.
        -- destruct before as [|s0 before]; simpl in H; inversion H; subst.
           exists (map done before ++ [Ran c (Throw message)]).
           split; [reflexivity|]. apply IH. right.
           exists before, c, later, message. auto.
Qed.

Section PathsFacts.

Variable pathJoin : jsstring -> jsstring -> jsstring.

(** The loop over the files, followed by further steps, runs as the steps
    of the files followed by these. *)
Lemma traces_stageFiles (dir : jsstring) (rest : list step) :
  forall files tr out,
  traces (tryBind (stageFiles pathJoin dir files) (fun _ => script rest)) tr out <->
  traces (script (map (fun file => Cmd (gitAdd (pathJoin dir file))) files ++ rest))
    tr out.
Proof.
  induction files as [|file files IH]; intros tr out.
  - reflexivity.
  - simpl. split; intros (r & tr' & -> & H); exists r, tr'; (split; [reflexivity|]);
      destruct r as [u|message]; simpl in *; auto; now apply IH.
Qed.

Lemma traces_deployBody (root dir : jsstring) (files : list jsstring) tr out :
  traces
    (tryBind (attempt (Exec gitVersion)) (fun _ =>
     tryBind (attempt (Exec (gitAdd root))) (fun _ =>
     tryBind (stageFiles pathJoin dir files) (fun _ =>
     tryBind (attempt (Exec gitCommit)) (fun _ =>
     after (ConsoleLog (newline :: str "Deploying changes..."))
       (tryBind (attempt (Exec gitPush)) (fun _ =>
        after (ConsoleLog (str "Deployment completed successfully."))
          (Ret (Ok tt))))))))) tr out <->
  traces (script (deploySteps pathJoin root dir files)) tr out.
Proof.
  unfold deploySteps. cbn [app script].
  rewrite !traces_tryBind.
  assert (Hs : forall tr2,
    traces (tryBind (stageFiles pathJoin dir files) (fun _ =>
            tryBind (attempt (Exec gitCommit)) (fun _ =>
            after (ConsoleLog (newline :: str "Deploying changes..."))
              (tryBind (attempt (Exec gitPush)) (fun _ =>
               after (ConsoleLog (str "Deployment completed successfully."))
                 (Ret (Ok tt))))))) tr2 out <->
    traces (script (map (fun file => Cmd (gitAdd (pathJoin dir file))) files ++
              [Cmd gitCommit; Say (newline :: str "Deploying changes...");
               Cmd gitPush; Say (str "Deployment completed successfully.")]))
      tr2 out).
  { intros tr2. apply (traces_stageFiles dir
      [Cmd gitCommit; Say (newline :: str "Deploying changes...");
       Cmd gitPush; Say (str "Deployment completed successfully.")]). }
  split.
  - intros [H|[H|(a & tr1 & tr2 & H1 & H2 & ->)]]; [now left | now right; left|].
    right. right. exists a, tr1, tr2. split; [assumption|]. split; [|reflexivity].
    apply traces_tryBind in H2. apply traces_tryBind.
    destruct H2 as [H|[H|(a' & tr1' & tr2' & H1' & H2' & ->)]];
      [now left | now right; left|].
    right. right. exists a', tr1', tr2'. split; [assumption|].
    split; [|reflexivity]. now apply Hs.
  - intros [H|[H|(a & tr1 & tr2 & H1 & H2 & ->)]]; [now left | now right; left|].
    right. right. exists a, tr1, tr2. split; [assumption|]. split; [|reflexivity].
    apply traces_tryBind in H2. apply traces_tryBind.
    destruct H2 as [H|[H|(a' & tr1' & tr2' & H1' & H2' & ->)]];
      [now left | now right; left|].
    right. right. exists a', tr1', tr2'. split; [assumption|].
    split; [|reflexivity]. now apply Hs.
Qed.

Lemma traces_deployChanges (root dir : jsstring) (files : list jsstring) tr out :
  traces (deployChanges pathJoin root dir files) tr out <->
  (tr = map done (deploySteps pathJoin root dir files) /\ out = Returned (Ok tt)) \/
  (exists before command later message,
     deploySteps pathJoin root dir files = before ++ Cmd command :: later /\
     tr = map done before ++ [Ran command (Throw message)] /\
     out = Returned (Throw (str "Deployment failed: " ++ message))).
Proof.
  unfold deployChanges. rewrite traces_bind. split.
  - intros [(o & H & Ho)|(r & tr1 & tr2 & H1 & H2 & ->)].
    + apply traces_deployBody, traces_script in H.
      destruct H as [[_ ->]|(? & ? & ? & ? & _ & _ & ->)]; discriminate Ho.
    + apply traces_deployBody, traces_script in H1.
      destruct H1 as [[-> H]|(before & c & later & message & Hs & -> & H)];
        injection H as Hr; subst r; simpl in H2; destruct H2 as [-> ->];
        rewrite app_nil_r.
      * now left.
      * right. exists before, c, later, message. auto.
  - intros [[-> ->]|(before & c & later & message & Hs & -> & ->)]; right.
    + exists (Ok tt), (map done (deploySteps pathJoin root dir files)), [].
      rewrite app_nil_r. split; [|simpl; auto].
      apply traces_deployBody, traces_script. now left.
    + exists (Throw message), (map done before ++ [Ran c (Throw message)]), [].
      rewrite app_nil_r. split; [|simpl; auto].
      apply traces_deployBody, traces_script. right.
      exists before, c, later, message. auto.
Qed.

(** X11: [deployChanges] runs git --version, git add of root.txt, git add of
    each briefing file in order, git commit (then says it deploys) and git
    push (then says it is done); the first command that fails ends the run,
    and the error carries its message after [Deployment failed: ]. *)
Theorem deployChanges_runs (root dir : jsstring) (files : list jsstring) tr out :
  traces (deployChanges pathJoin root dir files) tr out <->
  (tr = map done (deploySteps pathJoin root dir files) /\ out = Returned (Ok tt)) \/
  (exists before command later message,
     deploySteps pathJoin root dir files = before ++ Cmd command :: later /\
     tr = map done before ++ [Ran command (Throw message)] /\
     out = Returned (Throw (str "Deployment failed: " ++ message))).
Proof. apply traces_deployChanges. Qed.

(* ------------------------------------------------------------------ *)
(** ** The files [main] selects *)

Lemma selected_cons_period (file : jsstring) names replies :
  startsWithPeriod file = true ->
  selected (file :: names) replies = selected names replies.
Proof. intros H. unfold selected, candidates. simpl. now rewrite H. Qed.

Lemma candidates_cons (file : jsstring) names :
  candidates (file :: names) =
  if startsWithPeriod file then candidates names else file :: candidates names.
Proof. unfold candidates. simpl. now destruct (startsWithPeriod file). Qed.

Lemma selected_cons (file : jsstring) names (reply : bool) replies :
  startsWithPeriod file = false ->
  selected (file :: names) (reply :: replies) =
  if reply then file :: selected names replies else selected names replies.
Proof.
  intros H. unfold selected. rewrite candidates_cons, H. simpl.
  now destruct reply.
Qed.

Lemma traces_filterFiles (dir : jsstring) :
  forall names tr out,
  traces (filterFiles pathJoin dir names) tr out <->
  (exists replies,
     length replies = length (candidates names) /\
     tr = map (statOf pathJoin dir) (combine (candidates names) replies) /\
     out = Returned (Ok (selected names replies))) \/
  (exists before file later replies message,
     candidates names = before ++ file :: later /\
     length replies = length before /\
     tr = map (statOf pathJoin dir) (combine before replies)
          ++ [Stat (pathJoin dir file) (Throw message)] /\
     out = Returned (Throw message)).
Proof.
  induction names as [|file names IH]; intros tr out.
  - simpl. split.
    + intros [-> ->]. left. exists []. auto.
    + intros [(replies & Hl & -> & ->)|(before & f & later & r & m' & H & _)].
      * auto.
      * now destruct before.
  - cbn [filterFiles]. rewrite candidates_cons.
    destruct (startsWithPeriod file) eqn:Hp.
    + rewrite IH. split.
      * intros [(replies & Hl & -> & ->)|H]; [left|now right].
        exists replies. now rewrite selected_cons_period.
      * intros [(replies & Hl & -> & ->)|H]; [left|now right].
        exists replies. now rewrite selected_cons_period.
    + rewrite traces_tryBind. split.
      * intros [(o & H & Ho)|[(message & H & ->)|(b & tr1 & tr2 & H1 & H2 & ->)]].
        -- apply traces_attempt in H. destruct H as (r & _ & ->). discriminate Ho.
        -- apply traces_attempt in H. destruct H as (r & -> & H).
           injection H as Hr. subst r. right.
           exists [], file, (candidates names), [], message. simpl. auto.
        -- apply traces_attempt in H1. destruct H1 as (r & -> & H).
           injection H as Hr. subst r. apply traces_tryBind in H2.
           destruct H2 as [(o & H & Ho)|[(message & H & ->)
                          |(files & tr3 & tr4 & H1 & H4 & ->)]].
           ++ apply IH in H.
              destruct H as [(? & _ & _ & ->)|(? & ? & ? & ? & ? & _ & _ & _ & ->)];
                discriminate Ho.
           ++ apply IH in H.
              destruct H as [(? & _ & _ & H)|(before & f & later & replies & m' & Hc & Hl & -> & H)];
                [discriminate|]. injection H as <-. right.
              exists (file :: before), f, later, (b :: replies), message.
              rewrite Hc. simpl. auto.
           ++ apply IH in H1.
              destruct H1 as [(replies & Hl & -> & H)|(? & ? & ? & ? & ? & _ & _ & _ & H)];
                [|discriminate]. injection H as ->.
              simpl in H4. destruct H4 as [-> ->]. left.
              exists (b :: replies). rewrite selected_cons by assumption.
              rewrite app_nil_r. simpl. auto.
      * intros [(replies & Hl & -> & ->)|(before & f & later & replies & message & Hc & Hl & -> & ->)].
        -- destruct replies as [|b replies]; [discriminate|].
           injection Hl as Hl. right. right.
           exists b, [Stat (pathJoin dir file) (Ok b)],
             (map (statOf pathJoin dir) (combine (candidates names) replies)).
           split; [apply traces_attempt; exists (Ok b); auto|].
           split; [|reflexivity]. apply traces_tryBind. right. right.
           exists (selected names replies),
             (map (statOf pathJoin dir) (combine (candidates names) replies)), [].
           split; [apply IH; left; exists replies; auto|].
           rewrite selected_cons by assumption. rewrite app_nil_r. simpl. auto.
        -- destruct before as [|f0 before]; simpl in Hc; inversion Hc; subst.
           ++ destruct replies; [|discriminate]. right. left. exists message.
              split; [apply traces_attempt; exists (Throw message); auto|reflexivity].
           ++ destruct replies as [|b replies]; [discriminate|].
              injection Hl as Hl. right. right.
              exists b, [Stat (pathJoin dir f0) (Ok b)],
                (map (statOf pathJoin dir) (combine before replies)
                 ++ [Stat (pathJoin dir f) (Throw message)]).
              split; [apply traces_attempt; exists (Ok b); auto|].
              split; [|reflexivity]. apply traces_tryBind. right. left.
              exists message. split; [|reflexivity]. apply IH. right.
              exists before, f, later, replies, message. auto.
Qed.

(** X12: [main] asks [statSync] once for each name of the directory that
    does not start with a period, in the order of the listing, and keeps,
    in this order, the names for which it said file; the first
    [statSync] that throws ends the selection with its error. *)
Theorem filterFiles_runs (dir : jsstring) (names : list jsstring) tr out :
  traces (filterFiles pathJoin dir names) tr out <->
  (exists replies,
     length replies = length (candidates names) /\
     tr = map (statOf pathJoin dir) (combine (candidates names) replies) /\
     out = Returned (Ok (selected names replies))) \/
  (exists before file later replies message,
     candidates names = before ++ file :: later /\
     length replies = length before /\
     tr = map (statOf pathJoin dir) (combine before replies)
          ++ [Stat (pathJoin dir file) (Throw message)] /\
     out = Returned (Throw message)).
Proof. apply traces_filterFiles. Qed.

End PathsFacts.

(* ------------------------------------------------------------------ *)
(** ** Runs of [readRootTxt] and [userInteraction] *)

Lemma traces_readRootTxtIO (ROOT_TXT : jsstring) tr out :
  traces (readRootTxtIO ROOT_TXT) tr out <->
  (exists old, readShape ROOT_TXT old tr /\ out = Returned (Ok (readRootTxt old))) \/
  (exists message,
     tr = [Exists ROOT_TXT true; Read ROOT_TXT (Throw message)] /\
     out = Returned (Throw message)).
Proof.
  unfold readShape. simpl. split.
  - intros ([|] & tr' & -> & H).
    + destruct H as ([content|message] & tr'' & -> & H); simpl in H;
        destruct H as [-> ->].
      * left. exists (Some content). split; [right; exists content|]; auto.
      * right. exists message. auto.
    + destruct H as [-> ->]. left. exists None. auto.
  - intros [(old & [[-> ->]|(content & -> & ->)] & ->)|(message & -> & ->)].
    + exists false, []. simpl. auto.
    + exists true, [Read ROOT_TXT (Ok content)]. split; [reflexivity|].
      exists (Ok content), []. simpl. auto.
    + exists true, [Read ROOT_TXT (Throw message)]. split; [reflexivity|].
      exists (Throw message), []. simpl. auto.
Qed.

Lemma traces_question (A : Type) (query : jsstring)
  (k : jsstring -> io (result A)) tr out :
  traces (question query k) tr out <->
  (tr = [Unanswered query] /\ out = Stopped) \/
  (exists message,
     tr = [AskFailed query message; Closed] /\ out = Returned (Throw message)) \/
  (exists answer tr', tr = Asked query answer :: tr' /\ traces (k answer) tr' out).
Proof.
  unfold question. cbn [traces]. split.
  - intros ([[answer|]|message] & tr' & -> & H).
    + right. right. exists answer, tr'. auto.
    + simpl in H. destruct H as [-> ->]. now left.
    + apply traces_after in H. destruct H as (t & -> & [-> ->]).
      right. left. exists message. auto.
  - intros [[-> ->]|[(message & -> & ->)|(answer & tr' & -> & H)]].
    + exists (Ok None), []. simpl. auto.
    + exists (Throw message), [Closed]. split; [reflexivity|].
      apply traces_after. exists []. simpl. auto.
    + exists (Ok (Some answer)), tr'. auto.
Qed.

Lemma traces_userInteraction tr out :
  traces userInteraction tr out <->
  (tr = [Opened; Unanswered editQuery] /\ out = Stopped) \/
  (exists message,
     tr = [Opened; AskFailed editQuery message; Closed] /\
     out = Returned (Throw message)) \/
  exists first,
    (saysYes first /\
     tr = [Opened; Asked editQuery first;
           Logged (str "Please edit root.txt as needed and rerun the script to deploy.");
           Closed] /\
     out = Returned (Ok false)) \/
    (~ saysYes first /\
     ((tr = [Opened; Asked editQuery first; Unanswered deployQuery] /\
       out = Stopped) \/
      (exists message,
         tr = [Opened; Asked editQuery first; AskFailed deployQuery message; Closed] /\
         out = Returned (Throw message)) \/
      exists second,
        tr = [Opened; Asked editQuery first; Asked deployQuery second; Closed] /\
        (saysYes second /\ out = Returned (Ok true) \/
         ~ saysYes second /\ out = Returned (Ok false)))).
Proof.
  unfold userInteraction. rewrite traces_after. split.
  - intros (tr' & -> & H). apply traces_question in H.
    destruct H as [[-> ->]|[(message & -> & ->)|(first & tr'' & -> & H)]];
      [now left | right; left; exists message; auto|].
    right. right. exists first. destruct (affirmative first) eqn:Hf.
    + apply traces_after in H. destruct H as (t1 & -> & H).
      apply traces_after in H. destruct H as (t2 & -> & [-> ->]).
      left. apply affirmative_saysYes in Hf. auto.
    + apply traces_question in H. right.
      apply affirmative_false in Hf. split; [assumption|].
      destruct H as [[-> ->]|[(message & -> & ->)|(second & t1 & -> & H)]];
        [now left | right; left; exists message; auto|].
      right. right. exists second.
      destruct (affirmative second) eqn:Hs;
        apply traces_after in H; destruct H as (t2 & -> & [-> ->]).
      * apply affirmative_saysYes in Hs. auto.
      * apply affirmative_false in Hs. auto.
  - intros [[-> ->]|[(message & -> & ->)|(first & [(Hf & -> & ->)|(Hf & H)])]].
    + eexists. split; [reflexivity|]. apply traces_question. now left.
    + eexists. split; [reflexivity|]. apply traces_question. right. left.
      exists message. auto.
    + eexists. split; [reflexivity|]. apply traces_question. right. right.
      exists first. eexists. split; [reflexivity|].
      apply affirmative_saysYes in Hf. rewrite Hf.
      apply traces_after. eexists. split; [reflexivity|].
      apply traces_after. exists []. simpl. auto.
    + apply affirmative_false in Hf.
      destruct H as [[-> ->]|[(message & -> & ->)|(second & -> & H)]];
        (eexists; split; [reflexivity|]; apply traces_question; right; right;
         exists first; eexists; (split; [reflexivity|]); rewrite Hf;
         apply traces_question).
      * now left.
      * right. left. exists message. auto.
      * right. right. exists second. eexists. split; [reflexivity|].
        destruct H as [[Hs ->]|[Hs ->]].
        -- apply affirmative_saysYes in Hs. rewrite Hs.
           apply traces_after. exists []. simpl. auto.
        -- apply affirmative_false in Hs. rewrite Hs.
           apply traces_after. exists []. simpl. auto.
Qed.

(** X13: [userInteraction] opens the interface and asks whether to edit; on
    a yes it prints the hint, closes the interface and gives false;
    otherwise it asks whether to deploy, closes the interface and gives
    true exactly when this answer is a yes.  When the input ends before
    the answer to a question, nothing follows the question: the interface
    is not closed and nothing is given back.  When a question throws, the
    interface is closed and the error is thrown again. *)
Theorem userInteraction_runs tr out :
  traces userInteraction tr out <->
  (tr = [Opened; Unanswered editQuery] /\ out = Stopped) \/
  (exists message,
     tr = [Opened; AskFailed editQuery message; Closed] /\
     out = Returned (Throw message)) \/
  exists first,
    (saysYes first /\
     tr = [Opened; Asked editQuery first;
           Logged (str "Please edit root.txt as needed and rerun the script to deploy.");
           Closed] /\
     out = Returned (Ok false)) \/
    (~ saysYes first /\
     ((tr = [Opened; Asked editQuery first; Unanswered deployQuery] /\
       out = Stopped) \/
      (exists message,
         tr = [Opened; Asked editQuery first; AskFailed deployQuery message; Closed] /\
         out = Returned (Throw message)) \/
      exists second,
        tr = [Opened; Asked editQuery first; Asked deployQuery second; Closed] /\
        (saysYes second /\ out = Returned (Ok true) \/
         ~ saysYes second /\ out = Returned (Ok false)))).
Proof. apply traces_userInteraction. Qed.

(* ------------------------------------------------------------------ *)
(** ** The runs of [main] *)

Section MainFacts.

Variable pathJoin : jsstring -> jsstring -> jsstring.
Variables BRIEFINGS_DIR ROOT_TXT : jsstring.

Tactic Notation "try_inv" hyp(H) "as" ident(x) ident(t1) ident(t2) ident(HA) ident(Htr) :=
  apply traces_tryBind in H;
  destruct H as [(?o & H & ?Hcut)
                |[(?message & H & ?Hout)|(x & t1 & t2 & HA & H & Htr)]].

Lemma mainBody_inv tr out :
  traces (mainBody pathJoin BRIEFINGS_DIR ROOT_TXT) tr out ->
  (out = Returned (Ok tt) /\
   mainRun pathJoin BRIEFINGS_DIR ROOT_TXT (Exists BRIEFINGS_DIR true :: tr) (Returned tt))
  \/
  (exists message,
     out = Returned (Throw message) /\
     mainRun pathJoin BRIEFINGS_DIR ROOT_TXT
       (Exists BRIEFINGS_DIR true :: tr ++ [Errored (failure message)]) (Exited 1))
  \/
  (out = Stopped /\
   mainRun pathJoin BRIEFINGS_DIR ROOT_TXT (Exists BRIEFINGS_DIR true :: tr) Stopped).
Proof.
  intros H. unfold mainBody in H. try_inv H as names trL tA HL HtrL.
  { apply traces_attempt in H. destruct H as (r & _ & ->). discriminate Hcut. }
  { apply traces_attempt in H. destruct H as (r & -> & H). injection H as Hr.
    subst r out. right. left. exists message. split; [reflexivity|]. constructor. }
  apply traces_attempt in HL. destruct HL as (r & -> & HL). injection HL as Hr.
  subst r tr. try_inv H as files trF tB HF HtrF.
  { apply traces_filterFiles in H.
    destruct H as [(? & _ & _ & ->)|(? & ? & ? & ? & ? & _ & _ & _ & ->)];
      discriminate Hcut. }
  { apply traces_filterFiles in H.
    destruct H as [(? & _ & _ & H)
                  |(before & f & later & replies & m' & Hc & Hl & -> & H)];
      [discriminate|]. injection H as <-. subst out. right. left. exists message.
    split; [reflexivity|]. repeat (progress (simpl; rewrite <- ?app_assoc)).
    now apply RunStatThrew with (later := later). }
  apply traces_filterFiles in HF.
  destruct HF as [(replies & Hl & -> & HF)|(? & ? & ? & ? & ? & _ & _ & _ & HF)];
    [|discriminate]. injection HF as ->. subst tA.
  try_inv H as existing trR tC HR HtrR.
  { apply traces_readRootTxtIO in H.
    destruct H as [(? & _ & ->)|(? & _ & ->)]; discriminate Hcut. }
  { apply traces_readRootTxtIO in H.
    destruct H as [(? & _ & H)|(m' & -> & H)]; [discriminate|].
    injection H as <-. subst out. right. left. exists message.
    split; [reflexivity|].
    repeat (progress (simpl; rewrite <- ?app_assoc)).
    now apply RunReadThrew. }
  apply traces_readRootTxtIO in HR.
  destruct HR as [(old & Hold & HR)|(? & _ & HR)]; [|discriminate].
  injection HR as ->. subst tB.
  try_inv H as u trW tD HW HtrW.
  { apply traces_attempt in H. destruct H as (r & _ & ->). discriminate Hcut. }
  { apply traces_attempt in H. destruct H as (r & -> & H). injection H as Hr.
    subst r out. right. left. exists message. split; [reflexivity|].
    repeat (progress (simpl; rewrite <- ?app_assoc)).
    now apply RunWriteThrew. }
  apply traces_attempt in HW. destruct HW as (r & -> & HW). injection HW as Hr.
  subst r tC. destruct u.
  apply traces_after in H. destruct H as (t1 & -> & H).
  apply traces_after in H. destruct H as (t2 & -> & H).
  apply traces_after in H. destruct H as (t3 & -> & H).
  try_inv H as proceed trU tE HU HtrU.
  { apply traces_userInteraction in H.
    destruct H as [[-> ->]
                  |[(m' & _ & ->)
                   |(first & [(_ & _ & ->)
                             |(Hf & [[-> ->]
                                    |[(m' & _ & ->)
                                     |(second & _ & [[_ ->]|[_ ->]])]])])]];
      try discriminate Hcut; injection Hcut as <-; right; right;
      (split; [reflexivity|]); simpl.
    - now apply RunNoEditAnswer.
    - now apply RunNoDeployAnswer. }
  { apply traces_userInteraction in H.
    destruct H as [[_ H]
                  |[(m' & -> & H)
                   |(first & [(_ & _ & H)
                             |(Hf & [[_ H]
                                    |[(m' & -> & H)
                                     |(second & _ & [[_ H]|[_ H]])]])])]];
      try discriminate; injection H as <-; subst out; right; left;
      exists message; (split; [reflexivity|]);
      repeat (progress (simpl; rewrite <- ?app_assoc)).
    - now apply RunEditAskFailed.
    - now apply RunDeployAskFailed. }
  apply traces_userInteraction in HU.
  destruct HU as [[_ HU]
                 |[(m' & _ & HU)
                  |(first & [(Hf & -> & HU)
                            |(Hf & [[_ HU]
                                   |[(m' & _ & HU)
                                    |(second & -> & [[Hs HU]|[Hs HU]])]])])]];
    try discriminate; injection HU as Hp; subst proceed t3.
  - apply traces_after in H. destruct H as (t4 & -> & [-> ->]).
    left. split; [reflexivity|]. simpl.
    now apply RunEdit.
  - apply traces_deployChanges in H.
    destruct H as [[-> ->]|(before & c & later & message & Hd & -> & ->)].
    + left. split; [reflexivity|]. simpl. now apply RunDeployed.
    + right. left. exists (str "Deployment failed: " ++ message).
      split; [reflexivity|].
      repeat (progress (simpl; rewrite <- ?app_assoc)).
      exact (@RunDeployFailed pathJoin BRIEFINGS_DIR ROOT_TXT names replies old trR
               first second before c later message Hl Hold Hf Hs Hd).
  - apply traces_after in H. destruct H as (t4 & -> & [-> ->]).
    left. split; [reflexivity|]. simpl.
    now apply RunDeclined.
Qed.

(** Every run of [main] is of one of the thirteen kinds. *)
Lemma main_inv tr out :
  traces (main pathJoin BRIEFINGS_DIR ROOT_TXT) tr out ->
  mainRun pathJoin BRIEFINGS_DIR ROOT_TXT tr out.
Proof.
  intros H. cbn [main traces] in H. destruct H as (present & tr0 & -> & H).
  destruct present; cbn [negb] in H.
  2:{ apply traces_after in H. destruct H as (tr1 & -> & [-> ->]). constructor. }
  apply traces_bind in H.
  destruct H as [(o & H & Ho)|(r & trB & trE & H & HE & ->)];
    apply mainBody_inv in H;
    destruct H as [[Hr H]|[(message & Hr & H)|[Hr H]]].
  - subst o. discriminate Ho.
  - subst o. discriminate Ho.
  - subst o. cbv [cut] in Ho. replace out with (@Stopped unit) by congruence.
    exact H.
  - injection Hr as Hr. subst r. simpl in HE. destruct HE as [-> ->].
    now rewrite app_nil_r.
  - injection Hr as Hr. subst r. apply traces_after in HE.
    destruct HE as (t1 & -> & [-> ->]). exact H.
  - discriminate Hr.
Qed.

(** Scanning the parts of a run. *)
Lemma existsb_statOf (P : event -> bool) (dir : jsstring) l :
  (forall path reply, P (Stat path reply) = false) ->
  existsb P (map (statOf pathJoin dir) l) = false.
Proof.
  intros HP. induction l as [|x l IH]; simpl; [reflexivity|].
  unfold statOf at 1. now rewrite HP.
Qed.

Lemma existsb_done (P : event -> bool) steps :
  (forall command reply, P (Ran command reply) = false) ->
  (forall text, P (Logged text) = false) ->
  existsb P (map done steps) = false.
Proof.
  intros HR HL. induction steps as [|[c|t] l IH]; simpl; [reflexivity| |].
  - now rewrite HR. - now rewrite HL.
Qed.

Lemma existsb_readShape (P : event -> bool) old trR :
  (forall path reply, P (Exists path reply) = false) ->
  (forall path reply, P (Read path reply) = false) ->
  readShape ROOT_TXT old trR -> existsb P trR = false.
Proof.
  intros HE HR [[_ ->]|(content & _ & ->)]; simpl; now rewrite ?HE, ?HR.
Qed.

Lemma forallb_statOf (P : event -> bool) (dir : jsstring) l :
  (forall path reply, P (Stat path (Ok reply)) = true) ->
  forallb P (map (statOf pathJoin dir) l) = true.
Proof.
  intros HP. induction l as [|x l IH]; simpl; [reflexivity|].
  unfold statOf at 1. now rewrite HP.
Qed.

Lemma forallb_done (P : event -> bool) steps :
  (forall command, P (Ran command (Ok tt)) = true) ->
  (forall text, P (Logged text) = true) ->
  forallb P (map done steps) = true.
Proof.
  intros HR HL. induction steps as [|[c|t] l IH]; simpl; [reflexivity| |].
  - now rewrite HR. - now rewrite HL.
Qed.

Lemma forallb_readShape (P : event -> bool) old trR :
  (forall path reply, P (Exists path reply) = true) ->
  (forall path content, P (Read path (Ok content)) = true) ->
  readShape ROOT_TXT old trR -> forallb P trR = true.
Proof.
  intros HE HR [[_ ->]|(content & _ & ->)]; simpl; now rewrite ?HE, ?HR.
Qed.

Lemma commands_app (tr1 tr2 : list event) :
  commands (tr1 ++ tr2) = commands tr1 ++ commands tr2.
Proof. apply flat_map_app. Qed.

Lemma commands_none (tr : list event) :
  existsb ran tr = false -> commands tr = [].
Proof.
  induction tr as [|ev tr IH]; [reflexivity|]. simpl.
  destruct ev; simpl; try exact IH; discriminate.
Qed.

Lemma commands_done (steps : list step) :
  commands (map done steps) = stepCommands steps.
Proof.
  induction steps as [|[c|t] l IH]; simpl; [reflexivity| |]; now rewrite ?IH.
Qed.

Lemma stepCommands_app (a b : list step) :
  stepCommands (a ++ b) = stepCommands a ++ stepCommands b.
Proof. apply flat_map_app. Qed.

Lemma stepCommands_deploySteps (files : list jsstring) :
  stepCommands (deploySteps pathJoin ROOT_TXT BRIEFINGS_DIR files) =
  [gitVersion; gitAdd ROOT_TXT]
  ++ map (fun file => gitAdd (pathJoin BRIEFINGS_DIR file)) files
  ++ [gitCommit; gitPush].
Proof.
  unfold deploySteps. rewrite !stepCommands_app. f_equal. f_equal.
  induction files as [|f l IH]; simpl; [reflexivity|]. now rewrite IH.
Qed.

Ltac same_run :=
  unfold listed, shown, terminated, pleaseEdit;
  repeat (progress (simpl; rewrite <- ?app_assoc)); reflexivity.

Ltac all_fine Hold :=
  unfold listed, shown, terminated, pleaseEdit;
  repeat (progress (simpl; rewrite ?forallb_app));
  rewrite ?forallb_statOf, ?forallb_done by (intros; reflexivity);
  rewrite ?(forallb_readShape fine (fun _ _ => eq_refl) (fun _ _ => eq_refl) Hold);
  reflexivity.

(** X14: with every call into Node returning or throwing, a question
    possibly staying without an answer, a run of [main] ends in one of
    three ways.  It returns, and then no call threw, every question was
    answered and [console.error] was not called.  Or the process exits with code 1, and then the run ends with
    the call that failed (the check of the directory, or the first call
    that threw), the closing of the interface when that call was a
    question, and [console.error] with the message, which for a failed
    command starts with [Deployment failed: ].  Or the input ends before a
    question is answered, and then this question is the last call, no call
    threw before it, and the process ends by itself with code 0. *)
Theorem main_exit tr out :
  traces (main pathJoin BRIEFINGS_DIR ROOT_TXT) tr out ->
  (out = Returned tt /\ forallb fine tr = true) \/
  (out = Exited 1 /\
   exists pre ev text,
     tr = pre ++ ev :: cleanup ev ++ [Errored text] /\ forallb fine pre = true /\
     ((pre = [] /\ ev = Exists BRIEFINGS_DIR false /\
       text = missingDir BRIEFINGS_DIR) \/
      (exists message,
         thrown ev = Some message /\
         text = failure (if ran ev then str "Deployment failed: " ++ message
                         else message)))) \/
  (out = Stopped /\ exitCode out = 0 /\
   exists pre query,
     tr = pre ++ [Unanswered query] /\ forallb fine pre = true).
Proof.
  intros H. apply main_inv in H.
  destruct H as [ |message|names before file later replies message Hc Hl
                |names replies message Hl|names replies old trR message Hl Hold
                |names replies old trR Hl Hold
                |names replies old trR message Hl Hold
                |names replies old trR first Hl Hold Hf
                |names replies old trR first Hl Hold Hf
                |names replies old trR first message Hl Hold Hf
                |names replies old trR first second Hl Hold Hf Hs
                |names replies old trR first second Hl Hold Hf Hs
                |names replies old trR first second before command later message
                   Hl Hold Hf Hs Hd].
  - right. left. split; [reflexivity|].
    exists [], (Exists BRIEFINGS_DIR false), (missingDir BRIEFINGS_DIR).
    repeat split. left. auto.
  - right. left. split; [reflexivity|].
    exists [Exists BRIEFINGS_DIR true], (Readdir BRIEFINGS_DIR (Throw message)),
      (failure message).
    repeat split. right. exists message. auto.
  - right. left. split; [reflexivity|].
    exists (Exists BRIEFINGS_DIR true :: Readdir BRIEFINGS_DIR (Ok names)
            :: map (statOf pathJoin BRIEFINGS_DIR) (combine before replies)),
      (Stat (pathJoin BRIEFINGS_DIR file) (Throw message)), (failure message).
    split; [same_run|]. split.
    + simpl. now rewrite forallb_statOf by (intros; reflexivity).
    + right. exists message. auto.
  - right. left. split; [reflexivity|].
    exists (listed pathJoin BRIEFINGS_DIR names replies ++ [Exists ROOT_TXT true]),
      (Read ROOT_TXT (Throw message)), (failure message).
    split; [same_run|]. split.
    + unfold listed. rewrite forallb_app. simpl.
      now rewrite forallb_statOf by (intros; reflexivity).
    + right. exists message. auto.
  - right. left. split; [reflexivity|].
    exists (listed pathJoin BRIEFINGS_DIR names replies ++ trR),
      (Wrote ROOT_TXT (updatedContent old (selected names replies)) (Throw message)),
      (failure message).
    split; [same_run|]. split; [all_fine Hold|].
    right. exists message. auto.
  - right. right. split; [reflexivity|]. split; [reflexivity|].
    exists (listed pathJoin BRIEFINGS_DIR names replies ++ trR
            ++ Wrote ROOT_TXT (updatedContent old (selected names replies)) (Ok tt)
            :: shown (updatedContent old (selected names replies)) ++ [Opened]),
      editQuery.
    split; [same_run|all_fine Hold].
  - right. left. split; [reflexivity|].
    exists (listed pathJoin BRIEFINGS_DIR names replies ++ trR
            ++ Wrote ROOT_TXT (updatedContent old (selected names replies)) (Ok tt)
            :: shown (updatedContent old (selected names replies)) ++ [Opened]),
      (AskFailed editQuery message), (failure message).
    split; [same_run|]. split; [all_fine Hold|].
    right. exists message. auto.
  - left. split; [reflexivity|]. all_fine Hold.
  - right. right. split; [reflexivity|]. split; [reflexivity|].
    exists (listed pathJoin BRIEFINGS_DIR names replies ++ trR
            ++ Wrote ROOT_TXT (updatedContent old (selected names replies)) (Ok tt)
            :: shown (updatedContent old (selected names replies))
            ++ [Opened; Asked editQuery first]),
      deployQuery.
    split; [same_run|all_fine Hold].
  - right. left. split; [reflexivity|].
    exists (listed pathJoin BRIEFINGS_DIR names replies ++ trR
            ++ Wrote ROOT_TXT (updatedContent old (selected names replies)) (Ok tt)
            :: shown (updatedContent old (selected names replies))
            ++ [Opened; Asked editQuery first]),
      (AskFailed deployQuery message), (failure message).
    split; [same_run|]. split; [all_fine Hold|].
    right. exists message. auto.
  - left. split; [reflexivity|]. all_fine Hold.
  - left. split; [reflexivity|]. all_fine Hold.
  - right. left. split; [reflexivity|].
    exists (listed pathJoin BRIEFINGS_DIR names replies ++ trR
            ++ Wrote ROOT_TXT (updatedContent old (selected names replies)) (Ok tt)
            :: shown (updatedContent old (selected names replies))
            ++ [Opened; Asked editQuery first; Asked deployQuery second; Closed]
            ++ map done before),
      (Ran command (Throw message)),
      (failure (str "Deployment failed: " ++ message)).
    split; [same_run|]. split; [all_fine Hold|].
    right. exists message. auto.
Qed.

Ltac scan_hyp H :=
  unfold listed, shown, terminated, pleaseEdit in H;
  repeat (progress (simpl in H; rewrite ?existsb_app in H));
  rewrite ?existsb_statOf, ?existsb_done in H by (intros; reflexivity);
  simpl in H.

Ltac scan_goal :=
  unfold listed, shown, terminated, pleaseEdit;
  repeat (progress (simpl; rewrite ?existsb_app));
  rewrite ?existsb_statOf, ?existsb_done by (intros; reflexivity);
  simpl.

Ltac main_cases H :=
  apply main_inv in H;
  destruct H as [ |message|names before file later replies message Hc Hl
                |names replies message Hl|names replies old trR message Hl Hold
                |names replies old trR Hl Hold
                |names replies old trR message Hl Hold
                |names replies old trR first Hl Hold Hf
                |names replies old trR first Hl Hold Hf
                |names replies old trR first message Hl Hold Hf
                |names replies old trR first second Hl Hold Hf Hs
                |names replies old trR first second Hl Hold Hf Hs
                |names replies old trR first second before command later message
                   Hl Hold Hf Hs Hd].

(** X15: [main] writes at most once, to root.txt, after it listed the
    directory, selected the files and looked for root.txt; what it writes
    is [formatEntries] of [updateEntries] of the entries it read and the
    keys of the selected files. *)
Theorem main_writes tr out :
  traces (main pathJoin BRIEFINGS_DIR ROOT_TXT) tr out ->
  existsb wrote tr = true ->
  exists names replies old trR reply post,
    length replies = length (candidates names) /\
    readShape ROOT_TXT old trR /\
    tr = listed pathJoin BRIEFINGS_DIR names replies ++ trR
         ++ Wrote ROOT_TXT
              (formatEntries
                 (updateEntries (readRootTxt old)
                    (generateKeys (selected names replies)))) reply
         :: post /\
    existsb wrote post = false.
Proof.
  intros H Hw. main_cases H; try (scan_hyp Hw; discriminate);
    (eexists names, replies, old, trR, _, _;
     split; [exact Hl|]; split; [exact Hold|]; split; [reflexivity|];
     scan_goal; reflexivity).
Qed.

(** X16: before [main] asks a question or runs a command, it has written
    root.txt, the write went through, and it has printed the heading, the
    line of hyphens and the content it wrote; nothing is asked or run
    before. *)
Theorem main_asks_after_write tr out :
  traces (main pathJoin BRIEFINGS_DIR ROOT_TXT) tr out ->
  existsb (fun ev => asked ev || ran ev) tr = true ->
  exists pre content post,
    tr = pre ++ Wrote ROOT_TXT content (Ok tt) :: shown content ++ Opened :: post /\
    existsb (fun ev => asked ev || ran ev) pre = false.
Proof.
  intros H Hw. main_cases H; try (scan_hyp Hw; discriminate);
    try (scan_hyp Hw;
         rewrite (@existsb_readShape (fun ev => asked ev || ran ev) old trR) in Hw
           by (intros; reflexivity || assumption);
         discriminate);
    (exists (listed pathJoin BRIEFINGS_DIR names replies ++ trR),
       (updatedContent old (selected names replies));
     eexists; split; [rewrite <- app_assoc; reflexivity|];
     scan_goal;
     apply (@existsb_readShape (fun ev => asked ev || ran ev) old trR);
     intros; reflexivity || assumption).
Qed.

(** X17: [main] runs a command only after both questions were answered,
    the first with something that is not a yes and the second with a
    yes. *)
Theorem main_commands_after_yes tr out :
  traces (main pathJoin BRIEFINGS_DIR ROOT_TXT) tr out ->
  existsb ran tr = true ->
  exists pre first second post,
    tr = pre ++ [Asked editQuery first; Asked deployQuery second; Closed] ++ post /\
    ~ saysYes first /\ saysYes second /\
    existsb ran pre = false.
Proof.
  intros H Hw. main_cases H; try (scan_hyp Hw; discriminate);
    try (scan_hyp Hw;
         rewrite (@existsb_readShape ran old trR) in Hw
           by (intros; reflexivity || assumption);
         discriminate).
  - exists (listed pathJoin BRIEFINGS_DIR names replies ++ trR
            ++ Wrote ROOT_TXT (updatedContent old (selected names replies)) (Ok tt)
            :: shown (updatedContent old (selected names replies)) ++ [Opened]),
      first, second,
      (map done (deploySteps pathJoin ROOT_TXT BRIEFINGS_DIR (selected names replies))).
    split; [same_run|]. repeat split; try assumption. scan_goal.
    rewrite (@existsb_readShape ran old trR) by (intros; reflexivity || assumption).
    reflexivity.
  - exists (listed pathJoin BRIEFINGS_DIR names replies ++ trR
            ++ Wrote ROOT_TXT (updatedContent old (selected names replies)) (Ok tt)
            :: shown (updatedContent old (selected names replies)) ++ [Opened]),
      first, second,
      (map done before
       ++ [Ran command (Throw message);
           Errored (failure (str "Deployment failed: " ++ message))]).
    split; [same_run|]. repeat split; try assumption. scan_goal.
    rewrite (@existsb_readShape ran old trR) by (intros; reflexivity || assumption).
    reflexivity.
Qed.

Lemma commands_cons (ev : event) (tr : list event) :
  commands (ev :: tr) =
  match ev with Ran command _ => [command] | _ => [] end ++ commands tr.
Proof. reflexivity. Qed.

Lemma commands_statOf (dir : jsstring) l :
  commands (map (statOf pathJoin dir) l) = [].
Proof. apply commands_none, existsb_statOf. reflexivity. Qed.

Lemma commands_readShape old trR :
  readShape ROOT_TXT old trR -> commands trR = [].
Proof.
  intros H. apply commands_none. revert H. apply existsb_readShape; reflexivity.
Qed.

Lemma commands_listed names replies :
  commands (listed pathJoin BRIEFINGS_DIR names replies) = [].
Proof. unfold listed. rewrite !commands_cons. simpl. apply commands_statOf. Qed.

Lemma commands_shown content : commands (shown content) = [].
Proof. reflexivity. Qed.

(** X18: in every run of [main], either no command is run, or the
    commands run are, in this order, git --version, git add of root.txt,
    git add of each selected file (a name of the listing that does not
    start with a period and for which [isFile()] said yes), git commit and
    git push, or an initial part of these; and when a command was run and
    [main] returns, all of them were run. *)
Theorem main_commands tr out :
  traces (main pathJoin BRIEFINGS_DIR ROOT_TXT) tr out ->
  commands tr = [] \/
  exists names replies post rest,
    length replies = length (candidates names) /\
    tr = listed pathJoin BRIEFINGS_DIR names replies ++ post /\
    [gitVersion; gitAdd ROOT_TXT]
    ++ map (fun file => gitAdd (pathJoin BRIEFINGS_DIR file)) (selected names replies)
    ++ [gitCommit; gitPush] = commands tr ++ rest /\
    (out = Returned tt -> rest = []).
Proof.
  intros H. main_cases H;
    try (left; apply commands_none; scan_goal; reflexivity);
    try (left; apply commands_none; scan_goal;
         rewrite (@existsb_readShape ran old trR)
           by (intros; reflexivity || assumption);
         reflexivity);
    right.
  - eexists names, replies, _, []. split; [assumption|]. split; [reflexivity|].
    split; [|reflexivity].
    rewrite !commands_app, commands_listed, (commands_readShape Hold),
      commands_cons, !commands_app, commands_shown, commands_done,
      stepCommands_deploySteps.
    simpl. now rewrite app_nil_r.
  - eexists names, replies, _, (stepCommands later). split; [assumption|].
    split; [reflexivity|]. split; [|discriminate].
    rewrite <- stepCommands_deploySteps, Hd, stepCommands_app.
    rewrite !commands_app, commands_listed, (commands_readShape Hold),
      commands_cons, !commands_app, commands_shown, commands_done.
    simpl. now rewrite <- app_assoc.
Qed.

Lemma selected_In (names : list jsstring) (replies : list bool) (file : jsstring) :
  In file (selected names replies) ->
  In file names /\ startsWithPeriod file = false /\
  In (file, true) (combine (candidates names) replies).
Proof.
  unfold selected. intros H. apply in_map_iff in H as ([f b] & Hf & H).
  simpl in Hf. subst f. apply filter_In in H as [H Hb]. simpl in Hb. subst b.
  split; [|split; [|exact H]].
  - apply in_combine_l in H. unfold candidates in H. now apply filter_In in H.
  - apply in_combine_l in H. unfold candidates in H. apply filter_In in H as [_ H].
    now destruct (startsWithPeriod file).
Qed.

Lemma In_ran (ev : event) (a b : list event) :
  ran ev = true -> existsb ran a = false -> In ev (a ++ b) -> In ev b.
Proof.
  intros Hr Ha H. apply in_app_or in H as [H|H]; [|exact H].
  assert (Hx : existsb ran a = true) by (apply existsb_exists; eauto).
  rewrite Ha in Hx. discriminate.
Qed.

Lemma In_deploySteps (files : list jsstring) (command : jsstring) :
  In (Cmd command) (deploySteps pathJoin ROOT_TXT BRIEFINGS_DIR files) ->
  In command [gitVersion; gitAdd ROOT_TXT; gitCommit; gitPush] \/
  exists file, In file files /\ command = gitAdd (pathJoin BRIEFINGS_DIR file).
Proof.
  unfold deploySteps. intros H. apply in_app_or in H as [H|H].
  - left. simpl in H. destruct H as [H|[H|[]]]; injection H as <-; simpl; auto.
  - apply in_app_or in H as [H|H].
    + right. apply in_map_iff in H as (file & H & Hin). injection H as <-.
      exists file. auto.
    + left. simpl in H.
      destruct H as [H|[H|[H|[H|[]]]]]; try discriminate; injection H as <-;
        simpl; auto.
Qed.

(** X20: a command string that [main] hands to [exec] is git --version,
    git add of root.txt in double quotes, git commit or git push, or it is
    git add, in double quotes, of [path.join] of the directory and a name
    that is in the listing, does not start with a period, and for which
    [statSync(...).isFile()] said yes in this run.  The name is put between
    the quotes as it is. *)
Theorem main_command_strings tr out (command : jsstring) (reply : result unit) :
  traces (main pathJoin BRIEFINGS_DIR ROOT_TXT) tr out ->
  In (Ran command reply) tr ->
  In command [gitVersion; gitAdd ROOT_TXT; gitCommit; gitPush] \/
  exists names file,
    In (Readdir BRIEFINGS_DIR (Ok names)) tr /\
    In file names /\ startsWithPeriod file = false /\
    In (Stat (pathJoin BRIEFINGS_DIR file) (Ok true)) tr /\
    command = gitAdd (pathJoin BRIEFINGS_DIR file).
Proof.
  intros H Hin.
  assert (Hran : existsb ran tr = true).
  { apply existsb_exists. exists (Ran command reply). auto. }
  apply main_inv in H.
  destruct H as [ |message|names before file later replies message Hc Hl
                |names replies message Hl|names replies old trR message Hl Hold
                |names replies old trR Hl Hold
                |names replies old trR message Hl Hold
                |names replies old trR first Hl Hold Hf
                |names replies old trR first Hl Hold Hf
                |names replies old trR first message Hl Hold Hf
                |names replies old trR first second Hl Hold Hf Hs
                |names replies old trR first second Hl Hold Hf Hs
                |names replies old trR first second before c later message
                   Hl Hold Hf Hs Hd];
    try (scan_hyp Hran; discriminate);
    try (scan_hyp Hran;
         rewrite (@existsb_readShape ran old trR) in Hran
           by (intros; reflexivity || assumption);
         discriminate).
  - assert (Hc : In (Cmd command)
                   (deploySteps pathJoin ROOT_TXT BRIEFINGS_DIR (selected names replies))).
    { apply In_ran in Hin; [|reflexivity|scan_goal; reflexivity].
      apply In_ran in Hin;
        [|reflexivity
         |apply (@existsb_readShape ran old trR); intros; reflexivity || assumption].
      destruct Hin as [Hin|Hin]; [discriminate|].
      apply In_ran in Hin; [|reflexivity|reflexivity].
      apply In_ran in Hin; [|reflexivity|reflexivity].
      apply in_map_iff in Hin as ([c|t] & Hd & Hin); [|discriminate].
      injection Hd as -> _. exact Hin. }
    apply In_deploySteps in Hc as [Hc|(file & Hf' & ->)]; [now left|right].
    apply selected_In in Hf' as (Hn & Hp & Hst).
    exists names, file. split; [|split; [assumption|split; [assumption|split]]].
    + apply in_or_app. left. unfold listed. simpl. auto.
    + apply in_or_app. left. unfold listed. simpl. right. right.
      apply in_map_iff. exists (file, true). auto.
    + reflexivity.
  - assert (Hc : In (Cmd command)
                   (deploySteps pathJoin ROOT_TXT BRIEFINGS_DIR (selected names replies))).
    { rewrite Hd.
      apply In_ran in Hin; [|reflexivity|scan_goal; reflexivity].
      apply In_ran in Hin;
        [|reflexivity
         |apply (@existsb_readShape ran old trR); intros; reflexivity || assumption].
      destruct Hin as [Hin|Hin]; [discriminate|].
      apply In_ran in Hin; [|reflexivity|reflexivity].
      apply In_ran in Hin; [|reflexivity|reflexivity].
      apply in_app_or in Hin as [Hin|Hin].
      - apply in_map_iff in Hin as ([c'|t] & Hd' & Hin); [|discriminate].
        injection Hd' as -> _. apply in_or_app. now left.
      - destruct Hin as [Hin|[Hin|[]]]; [|discriminate]. injection Hin as -> _.
        apply in_or_app. right. simpl. auto. }
    apply In_deploySteps in Hc as [Hc|(file & Hf' & ->)]; [now left|right].
    apply selected_In in Hf' as (Hn & Hp & Hst).
    exists names, file. split; [|split; [assumption|split; [assumption|split]]].
    + apply in_or_app. left. unfold listed. simpl. auto.
    + apply in_or_app. left. unfold listed. simpl. right. right.
      apply in_map_iff. exists (file, true). auto.
    + reflexivity.
Qed.

End MainFacts.

(* ------------------------------------------------------------------ *)
(** ** Every kind of run of [main] is a run *)

Lemma tryBind_ok (A B : Type) (p : io (result A)) (f : A -> io (result B))
  a tr1 tr2 out :
  traces p tr1 (Returned (Ok a)) -> traces (f a) tr2 out ->
  traces (tryBind p f) (tr1 ++ tr2) out.
Proof.
  intros H1 H2. apply traces_tryBind. right. right. exists a, tr1, tr2. auto.
Qed.

Lemma tryBind_throw (A B : Type) (p : io (result A)) (f : A -> io (result B))
  message tr :
  traces p tr (Returned (Throw message)) ->
  traces (tryBind p f) tr (Returned (Throw message)).
Proof. intros H. apply traces_tryBind. right. left. exists message. auto. Qed.

Lemma tryBind_stops (A B : Type) (p : io (result A)) (f : A -> io (result B)) tr :
  traces p tr Stopped -> traces (tryBind p f) tr Stopped.
Proof. intros H. apply traces_tryBind. left. exists Stopped. auto. Qed.

Section MainRuns.

Variable pathJoin : jsstring -> jsstring -> jsstring.
Variables BRIEFINGS_DIR ROOT_TXT : jsstring.

Lemma main_returns trB :
  traces (mainBody pathJoin BRIEFINGS_DIR ROOT_TXT) trB (Returned (Ok tt)) ->
  traces (main pathJoin BRIEFINGS_DIR ROOT_TXT)
    (Exists BRIEFINGS_DIR true :: trB) (Returned tt).
Proof.
  intros H. cbn [main traces]. exists true, trB. split; [reflexivity|].
  cbn [negb]. apply traces_bind. right. exists (Ok tt), trB, [].
  rewrite app_nil_r. simpl. auto.
Qed.

Lemma main_exits trB message :
  traces (mainBody pathJoin BRIEFINGS_DIR ROOT_TXT) trB (Returned (Throw message)) ->
  traces (main pathJoin BRIEFINGS_DIR ROOT_TXT)
    (Exists BRIEFINGS_DIR true :: trB ++ [Errored (failure message)]) (Exited 1).
Proof.
  intros H. cbn [main traces]. exists true, (trB ++ [Errored (failure message)]).
  split; [reflexivity|]. cbn [negb]. apply traces_bind. right.
  exists (Throw message), trB, [Errored (failure message)].
  split; [assumption|]. split; [|reflexivity].
  apply traces_after. exists []. simpl. auto.
Qed.

Lemma main_stops trB :
  traces (mainBody pathJoin BRIEFINGS_DIR ROOT_TXT) trB Stopped ->
  traces (main pathJoin BRIEFINGS_DIR ROOT_TXT)
    (Exists BRIEFINGS_DIR true :: trB) Stopped.
Proof.
  intros H. cbn [main traces]. exists true, trB. split; [reflexivity|].
  cbn [negb]. apply traces_bind. left. exists Stopped. auto.
Qed.

Lemma mainBody_selected names replies rest out :
  length replies = length (candidates names) ->
  traces
    (tryBind (readRootTxtIO ROOT_TXT) (fun existingEntries =>
     tryBind (writeRootTxt ROOT_TXT
                (updateEntries existingEntries
                   (generateKeys (selected names replies)))) (fun _ =>
     after (ConsoleLog (newline :: str "Updated root.txt:"))
       (after (ConsoleLog (str "------------------"))
          (after (ConsoleLog
                    (formatEntries
                       (updateEntries existingEntries
                          (generateKeys (selected names replies)))))
             (tryBind userInteraction (fun proceed =>
              if proceed
              then deployChanges pathJoin ROOT_TXT BRIEFINGS_DIR
                     (selected names replies)
              else after (ConsoleLog (str "Process terminated by the user."))
                     (Ret (Ok tt))))))))) rest out ->
  traces (mainBody pathJoin BRIEFINGS_DIR ROOT_TXT)
    (Readdir BRIEFINGS_DIR (Ok names)
     :: map (statOf pathJoin BRIEFINGS_DIR) (combine (candidates names) replies)
     ++ rest) out.
Proof.
  intros Hl H. unfold mainBody.
  apply (@tryBind_ok _ _ _ _ names [Readdir BRIEFINGS_DIR (Ok names)]).
  { apply traces_attempt. exists (Ok names). auto. }
  apply (@tryBind_ok _ _ _ _ (selected names replies)).
  { apply traces_filterFiles. left. exists replies. auto. }
  exact H.
Qed.

Lemma mainBody_written names replies old trR rest out :
  length replies = length (candidates names) ->
  readShape ROOT_TXT old trR ->
  traces
    (tryBind userInteraction (fun proceed =>
     if proceed
     then deployChanges pathJoin ROOT_TXT BRIEFINGS_DIR (selected names replies)
     else after (ConsoleLog (str "Process terminated by the user."))
            (Ret (Ok tt)))) rest out ->
  traces (mainBody pathJoin BRIEFINGS_DIR ROOT_TXT)
    (Readdir BRIEFINGS_DIR (Ok names)
     :: map (statOf pathJoin BRIEFINGS_DIR) (combine (candidates names) replies)
     ++ trR
     ++ Wrote ROOT_TXT (updatedContent old (selected names replies)) (Ok tt)
     :: shown (updatedContent old (selected names replies)) ++ rest) out.
Proof.
  intros Hl Hold H. apply mainBody_selected; [assumption|].
  apply (@tryBind_ok _ _ _ _ (readRootTxt old)).
  { apply traces_readRootTxtIO. left. exists old. auto. }
  apply (@tryBind_ok _ _ _ _ tt
           [Wrote ROOT_TXT (updatedContent old (selected names replies)) (Ok tt)]).
  { apply traces_attempt. exists (Ok tt). auto. }
  apply traces_after. eexists. split; [reflexivity|].
  apply traces_after. eexists. split; [reflexivity|].
  apply traces_after. eexists. split; [reflexivity|].
  exact H.
Qed.

Lemma mainRun_traces tr out :
  mainRun pathJoin BRIEFINGS_DIR ROOT_TXT tr out ->
  traces (main pathJoin BRIEFINGS_DIR ROOT_TXT) tr out.
Proof.
  intros H.
  destruct H as [ |message|names before file later replies message Hc Hl
                |names replies message Hl|names replies old trR message Hl Hold
                |names replies old trR Hl Hold
                |names replies old trR message Hl Hold
                |names replies old trR first Hl Hold Hf
                |names replies old trR first Hl Hold Hf
                |names replies old trR first message Hl Hold Hf
                |names replies old trR first second Hl Hold Hf Hs
                |names replies old trR first second Hl Hold Hf Hs
                |names replies old trR first second before command later message
                   Hl Hold Hf Hs Hd].
  - cbn [main traces]. exists false. eexists. split; [reflexivity|].
    cbn [negb]. apply traces_after. exists []. simpl. auto.
  - apply (@main_exits [Readdir BRIEFINGS_DIR (Throw message)]).
    unfold mainBody. apply tryBind_throw, traces_attempt.
    exists (Throw message). auto.
  - replace (Exists BRIEFINGS_DIR true :: Readdir BRIEFINGS_DIR (Ok names)
             :: map (statOf pathJoin BRIEFINGS_DIR) (combine before replies)
             ++ [Stat (pathJoin BRIEFINGS_DIR file) (Throw message);
                 Errored (failure message)])
      with (Exists BRIEFINGS_DIR true
            :: ([Readdir BRIEFINGS_DIR (Ok names)]
                ++ map (statOf pathJoin BRIEFINGS_DIR) (combine before replies)
                ++ [Stat (pathJoin BRIEFINGS_DIR file) (Throw message)])
            ++ [Errored (failure message)])
      by (simpl; now rewrite <- app_assoc).
    apply main_exits. unfold mainBody.
    apply (@tryBind_ok _ _ _ _ names).
    { apply traces_attempt. exists (Ok names). auto. }
    apply tryBind_throw, traces_filterFiles. right.
    exists before, file, later, replies, message. auto.
  - replace (listed pathJoin BRIEFINGS_DIR names replies
             ++ [Exists ROOT_TXT true; Read ROOT_TXT (Throw message);
                 Errored (failure message)])
      with (Exists BRIEFINGS_DIR true
            :: (Readdir BRIEFINGS_DIR (Ok names)
                :: map (statOf pathJoin BRIEFINGS_DIR)
                     (combine (candidates names) replies)
                ++ [Exists ROOT_TXT true; Read ROOT_TXT (Throw message)])
            ++ [Errored (failure message)])
      by (unfold listed; simpl; now rewrite <- app_assoc).
    apply main_exits, mainBody_selected; [assumption|].
    apply tryBind_throw, traces_readRootTxtIO. right. exists message. auto.
  - replace (listed pathJoin BRIEFINGS_DIR names replies ++ trR
             ++ [Wrote ROOT_TXT (updatedContent old (selected names replies))
                   (Throw message);
                 Errored (failure message)])
      with (Exists BRIEFINGS_DIR true
            :: (Readdir BRIEFINGS_DIR (Ok names)
                :: map (statOf pathJoin BRIEFINGS_DIR)
                     (combine (candidates names) replies)
                ++ trR
                ++ [Wrote ROOT_TXT (updatedContent old (selected names replies))
                      (Throw message)])
            ++ [Errored (failure message)])
      by (unfold listed; simpl; now rewrite <- !app_assoc).
    apply main_exits, mainBody_selected; [assumption|].
    apply (@tryBind_ok _ _ _ _ (readRootTxt old)).
    { apply traces_readRootTxtIO. left. exists old. auto. }
    apply tryBind_throw, traces_attempt. exists (Throw message). auto.
  - apply main_stops, mainBody_written; try assumption.
    apply tryBind_stops, traces_userInteraction. now left.
  - replace (listed pathJoin BRIEFINGS_DIR names replies ++ trR
             ++ Wrote ROOT_TXT (updatedContent old (selected names replies)) (Ok tt)
             :: shown (updatedContent old (selected names replies))
             ++ [Opened; AskFailed editQuery message; Closed;
                 Errored (failure message)])
      with (Exists BRIEFINGS_DIR true
            :: (Readdir BRIEFINGS_DIR (Ok names)
                :: map (statOf pathJoin BRIEFINGS_DIR)
                     (combine (candidates names) replies)
                ++ trR
                ++ Wrote ROOT_TXT (updatedContent old (selected names replies)) (Ok tt)
                :: shown (updatedContent old (selected names replies))
                ++ [Opened; AskFailed editQuery message; Closed])
            ++ [Errored (failure message)])
      by (unfold listed, shown; repeat (progress (simpl; rewrite <- ?app_assoc));
          reflexivity).
    apply main_exits, mainBody_written; try assumption.
    apply tryBind_throw, traces_userInteraction. right. left.
    exists message. auto.
  - apply main_returns, mainBody_written; try assumption.
    apply (@tryBind_ok _ _ _ _ false
             [Opened; Asked editQuery first; pleaseEdit; Closed] [terminated]).
    { apply traces_userInteraction. right. right. exists first. left. auto. }
    apply traces_after. exists []. simpl. auto.
  - apply main_stops, mainBody_written; try assumption.
    apply tryBind_stops, traces_userInteraction. right. right. exists first.
    right. split; [assumption|]. now left.
  - replace (listed pathJoin BRIEFINGS_DIR names replies ++ trR
             ++ Wrote ROOT_TXT (updatedContent old (selected names replies)) (Ok tt)
             :: shown (updatedContent old (selected names replies))
             ++ [Opened; Asked editQuery first; AskFailed deployQuery message;
                 Closed; Errored (failure message)])
      with (Exists BRIEFINGS_DIR true
            :: (Readdir BRIEFINGS_DIR (Ok names)
                :: map (statOf pathJoin BRIEFINGS_DIR)
                     (combine (candidates names) replies)
                ++ trR
                ++ Wrote ROOT_TXT (updatedContent old (selected names replies)) (Ok tt)
                :: shown (updatedContent old (selected names replies))
                ++ [Opened; Asked editQuery first; AskFailed deployQuery message;
                    Closed])
            ++ [Errored (failure message)])
      by (unfold listed, shown; repeat (progress (simpl; rewrite <- ?app_assoc));
          reflexivity).
    apply main_exits, mainBody_written; try assumption.
    apply tryBind_throw, traces_userInteraction. right. right. exists first.
    right. split; [assumption|]. right. left. exists message. auto.
  - apply main_returns, mainBody_written; try assumption.
    apply (@tryBind_ok _ _ _ _ false
             [Opened; Asked editQuery first; Asked deployQuery second; Closed]
             [terminated]).
    { apply traces_userInteraction. right. right. exists first. right.
      split; [assumption|]. right. right. exists second. auto. }
    apply traces_after. exists []. simpl. auto.
  - apply main_returns, mainBody_written; try assumption.
    apply (@tryBind_ok _ _ _ _ true
             [Opened; Asked editQuery first; Asked deployQuery second; Closed]).
    { apply traces_userInteraction. right. right. exists first. right.
      split; [assumption|]. right. right. exists second. auto. }
    apply traces_deployChanges. left. auto.
  - replace (listed pathJoin BRIEFINGS_DIR names replies ++ trR
             ++ Wrote ROOT_TXT (updatedContent old (selected names replies)) (Ok tt)
             :: shown (updatedContent old (selected names replies))
             ++ [Opened; Asked editQuery first; Asked deployQuery second; Closed]
             ++ map done before
             ++ [Ran command (Throw message);
                 Errored (failure (str "Deployment failed: " ++ message))])
      with (Exists BRIEFINGS_DIR true
            :: (Readdir BRIEFINGS_DIR (Ok names)
                :: map (statOf pathJoin BRIEFINGS_DIR)
                     (combine (candidates names) replies)
                ++ trR
                ++ Wrote ROOT_TXT (updatedContent old (selected names replies)) (Ok tt)
                :: shown (updatedContent old (selected names replies))
                ++ [Opened; Asked editQuery first; Asked deployQuery second; Closed]
                ++ map done before ++ [Ran command (Throw message)])
            ++ [Errored (failure (str "Deployment failed: " ++ message))])
      by (unfold listed, shown; repeat (progress (simpl; rewrite <- ?app_assoc));
          reflexivity).
    apply main_exits, mainBody_written; try assumption.
    apply (@tryBind_ok _ _ _ _ true
             [Opened; Asked editQuery first; Asked deployQuery second; Closed]).
    { apply traces_userInteraction. right. right. exists first. right.
      split; [assumption|]. right. right. exists second. auto. }
    apply traces_deployChanges. right. exists before, command, later, message. auto.
Qed.

(** X19: the runs of [main] are exactly of thirteen kinds: the directory
    is missing; listing it fails; a [statSync] fails; reading root.txt
    fails; writing it fails; the input ends at the first question; the
    first question throws; the user wants to edit; the input ends at the
    second question; the second question throws; the user does not want to
    deploy; the deployment goes through; a command of the deployment
    fails.  Each consists of the calls, and ends, as [mainRun] says. *)
Theorem main_runs tr out :
  traces (main pathJoin BRIEFINGS_DIR ROOT_TXT) tr out <->
  mainRun pathJoin BRIEFINGS_DIR ROOT_TXT tr out.
Proof. split; [apply main_inv | apply mainRun_traces]. Qed.

End MainRuns.

(* ------------------------------------------------------------------ *)
(** ** The example run *)

Ltac run_example :=
  repeat (hnf;
          match goal with
          | |- exists _ : unit, _ => exists tt
          | |- exists _ : result (option jsstring), _ => eexists (Ok (Some _))
          | |- exists _, _ => eexists
          | |- _ /\ _ => split; [reflexivity|]
          end);
  hnf; split; reflexivity.

Lemma exampleRun_traces :
  traces (main joinSlash (str "briefings") (str "root.txt")) exampleRun (Returned tt).
Proof.
  run_example.
Qed.

(** The run in which the input ends at the first question: [main] has
    written root.txt and printed it, the question stays without an answer,
    and the process ends by itself with code 0. *)
Example inputEnds_traces :
  traces (main joinSlash (str "briefings") (str "root.txt"))
    [Exists (str "briefings") true;
     Readdir (str "briefings") (Ok [str "seo-2024.txt"]);
     Stat (str "briefings/seo-2024.txt") (Ok true);
     Exists (str "root.txt") false;
     Wrote (str "root.txt") (str "seo: seo-2024.txt") (Ok tt);
     Logged (newline :: str "Updated root.txt:");
     Logged (str "------------------");
     Logged (str "seo: seo-2024.txt");
     Opened;
     Unanswered editQuery]
    Stopped /\
  exitCode (@Stopped unit) = 0.
Proof.
  split; [|reflexivity]. apply mainRun_traces.
  exact (@RunNoEditAnswer joinSlash (str "briefings") (str "root.txt")
           [str "seo-2024.txt"] [true] None [Exists (str "root.txt") false]
           eq_refl (or_introl (conj eq_refl eq_refl))).
Qed.

Lemma main_exit_witness :
  traces (main joinSlash (str "briefings") (str "root.txt")) exampleRun (Returned tt) /\
  ((@Returned unit tt = Returned tt /\ forallb fine exampleRun = true) \/
   (@Returned unit tt = Exited 1 /\
    exists pre ev text,
      exampleRun = pre ++ ev :: cleanup ev ++ [Errored text] /\
      forallb fine pre = true /\
      ((pre = [] /\ ev = Exists (str "briefings") false /\
        text = missingDir (str "briefings")) \/
       (exists message,
          thrown ev = Some message /\
          text = failure (if ran ev then str "Deployment failed: " ++ message
                          else message)))) \/
   (@Returned unit tt = Stopped /\ exitCode (@Returned unit tt) = 0 /\
    exists pre query,
      exampleRun = pre ++ [Unanswered query] /\ forallb fine pre = true)).
Proof.
  split; [exact exampleRun_traces | apply (main_exit exampleRun_traces)].
Defined.

Lemma main_writes_witness :
  traces (main joinSlash (str "briefings") (str "root.txt")) exampleRun (Returned tt) /\
  existsb wrote exampleRun = true /\
  exists names replies old trR reply post,
    length replies = length (candidates names) /\
    readShape (str "root.txt") old trR /\
    exampleRun
    = listed joinSlash (str "briefings") names replies ++ trR
      ++ Wrote (str "root.txt")
           (formatEntries
              (updateEntries (readRootTxt old)
                 (generateKeys (selected names replies)))) reply
      :: post /\
    existsb wrote post = false.
Proof.
  split; [exact exampleRun_traces|]. split; [reflexivity|].
  apply (main_writes exampleRun_traces). reflexivity.
Defined.

Lemma main_asks_after_write_witness :
  traces (main joinSlash (str "briefings") (str "root.txt")) exampleRun (Returned tt) /\
  existsb (fun ev => asked ev || ran ev) exampleRun = true /\
  exists pre content post,
    exampleRun
    = pre ++ Wrote (str "root.txt") content (Ok tt) :: shown content ++ Opened :: post /\
    existsb (fun ev => asked ev || ran ev) pre = false.
Proof.
  split; [exact exampleRun_traces|]. split; [reflexivity|].
  apply (main_asks_after_write exampleRun_traces). reflexivity.
Defined.

Lemma main_commands_after_yes_witness :
  traces (main joinSlash (str "briefings") (str "root.txt")) exampleRun (Returned tt) /\
  existsb ran exampleRun = true /\
  exists pre first second post,
    exampleRun
    = pre ++ [Asked editQuery first; Asked deployQuery second; Closed] ++ post /\
    ~ saysYes first /\ saysYes second /\
    existsb ran pre = false.
Proof.
  split; [exact exampleRun_traces|]. split; [reflexivity|].
  apply (main_commands_after_yes exampleRun_traces). reflexivity.
Defined.

Lemma main_commands_witness :
  traces (main joinSlash (str "briefings") (str "root.txt")) exampleRun (Returned tt) /\
  (commands exampleRun = [] \/
   exists names replies post rest,
     length replies = length (candidates names) /\
     exampleRun = listed joinSlash (str "briefings") names replies ++ post /\
     [gitVersion; gitAdd (str "root.txt")]
     ++ map (fun file => gitAdd (joinSlash (str "briefings") file))
          (selected names replies)
     ++ [gitCommit; gitPush] = commands exampleRun ++ rest /\
     (@Returned unit tt = Returned tt -> rest = [])).
Proof.
  split; [exact exampleRun_traces|].
  apply (main_commands exampleRun_traces).
Defined.

Lemma main_command_strings_witness :
  traces (main joinSlash (str "briefings") (str "root.txt")) exampleRun (Returned tt) /\
  In (Ran (gitAdd (str "briefings/seo-2024.txt")) (Ok tt)) exampleRun /\
  (In (gitAdd (str "briefings/seo-2024.txt"))
      [gitVersion; gitAdd (str "root.txt"); gitCommit; gitPush] \/
   exists names file,
     In (Readdir (str "briefings") (Ok names)) exampleRun /\
     In file names /\ startsWithPeriod file = false /\
     In (Stat (joinSlash (str "briefings") file) (Ok true)) exampleRun /\
     gitAdd (str "briefings/seo-2024.txt") = gitAdd (joinSlash (str "briefings") file)).
Proof.
  assert (Hin : In (Ran (gitAdd (str "briefings/seo-2024.txt")) (Ok tt)) exampleRun).
  { unfold exampleRun. repeat first [left; reflexivity | right]. }
  split; [exact exampleRun_traces|]. split; [exact Hin|].
  exact (@main_command_strings _ _ _ _ _ _ _ exampleRun_traces Hin).
Defined.
